(** * Interview assistant: orchestration, adapters and recorder

    A shallow embedding of the main-process orchestrator (screenshot queue,
    single-flight flag, reset), of the two AI adapters' response handling, of
    the audio recorder service and of the renderer's result history, together
    with the properties the specification states about them; then of the
    screen capture, of the requests the adapters build and of the loading and
    saving of the configuration, with further properties of the code. *)

From Stdlib Require Import String Ascii List ZArith NArith Bool Lia.
From stdpp Require Import base option list strings pretty gmap.
Import ListNotations.

Open Scope string_scope.
Open Scope list_scope.

(** The quotation mark, and a text written with ['] where it has one. *)
Definition dquote : ascii := Eval cbv in ascii_of_N 34.

Fixpoint quoted (s : string) : string :=
  match s with
  | EmptyString => EmptyString
  | String c r => String (if (c =? "'")%char then dquote else c) (quoted r)
  end.

(** ** JSON values and [JSON.parse]

    JavaScript strings are represented by their UTF-8 bytes.  [JSON.parse] is
    the built-in of the host language; it is modelled after the JSON grammar
    (ECMA-404) so that the adapters can be run on concrete provider texts. *)

Module Json.

(** A JSON number [±mantissa * 10^exp10], kept exact. *)
Record number := { neg : bool; mantissa : N; exp10 : Z }.

#[local] Set Warnings "-register-all".

Inductive json :=
| JNull
| JBool (b : bool)
| JNum (n : number)
| JStr (s : string)
| JArr (xs : list json)
| JObj (members : list (string * json)).

Definition is_ws (c : ascii) : bool :=
  match N_of_ascii c with
  | 9%N | 10%N | 13%N | 32%N => true
  | _ => false
  end.

Fixpoint skip_ws (s : string) : string :=
  match s with
  | String c r => if is_ws c then skip_ws r else s
  | EmptyString => s
  end.

Definition digit_val (c : ascii) : option N :=
  let n := N_of_ascii c in
  if (48 <=? n)%N && (n <=? 57)%N then Some (n - 48)%N else None.

Definition hex_val (c : ascii) : option N :=
  let n := N_of_ascii c in
  if (48 <=? n)%N && (n <=? 57)%N then Some (n - 48)%N
  else if (65 <=? n)%N && (n <=? 70)%N then Some (n - 55)%N
  else if (97 <=? n)%N && (n <=? 102)%N then Some (n - 87)%N
  else None.

Definition hex4 (a b c d : ascii) : option N :=
  match hex_val a, hex_val b, hex_val c, hex_val d with
  | Some x, Some y, Some z, Some w => Some (((x * 16 + y) * 16 + z) * 16 + w)%N
  | _, _, _, _ => None
  end.

Definition byte (n : N) : string := String (ascii_of_N n) EmptyString.

(** UTF-8 bytes of a code point (a lone surrogate is written as three bytes). *)
Definition utf8 (cp : N) : string :=
  if (cp <? 128)%N then byte cp
  else if (cp <? 2048)%N then
    byte (N.lor 192 (N.shiftr cp 6)) +:+ byte (N.lor 128 (N.land cp 63))
  else if (cp <? 65536)%N then
    byte (N.lor 224 (N.shiftr cp 12))
    +:+ byte (N.lor 128 (N.land (N.shiftr cp 6) 63))
    +:+ byte (N.lor 128 (N.land cp 63))
  else
    byte (N.lor 240 (N.shiftr cp 18))
    +:+ byte (N.lor 128 (N.land (N.shiftr cp 12) 63))
    +:+ byte (N.lor 128 (N.land (N.shiftr cp 6) 63))
    +:+ byte (N.lor 128 (N.land cp 63)).

Definition is_high_surrogate (u : N) : bool := (55296 <=? u)%N && (u <? 56320)%N.
Definition is_low_surrogate (u : N) : bool := (56320 <=? u)%N && (u <? 57344)%N.

Definition simple_escape (c : ascii) : option ascii :=
  if (c =? dquote)%char then Some c
  else if (c =? "\")%char then Some c
  else if (c =? "/")%char then Some c
  else if (c =? "b")%char then Some (ascii_of_N 8)
  else if (c =? "f")%char then Some (ascii_of_N 12)
  else if (c =? "n")%char then Some (ascii_of_N 10)
  else if (c =? "r")%char then Some (ascii_of_N 13)
  else if (c =? "t")%char then Some (ascii_of_N 9)
  else None.

(** A character of a string literal: a byte of the text taken as it is, or
    a UTF-16 code unit written as an escape. *)
Inductive unit16 :=
| Raw (c : ascii)
| Esc (u : N).

Definition cons_unit (x : unit16) (p : option (list unit16 * string))
  : option (list unit16 * string) :=
  match p with
  | Some (xs, r) => Some (x :: xs, r)
  | None => None
  end.

(** The characters of a string literal after its opening quote, up to and
    including the closing quote; returns them and what follows. *)
Fixpoint parse_string_body (s : string) : option (list unit16 * string) :=
  match s with
  | EmptyString => None
  | String c r =>
      if (c =? dquote)%char then Some ([], r)
      else if (c =? "\")%char then
        match r with
        | EmptyString => None
        | String e r1 =>
            if (e =? "u")%char then
              match r1 with
              | String a (String b (String c' (String d r2))) =>
                  match hex4 a b c' d with
                  | Some u => cons_unit (Esc u) (parse_string_body r2)
                  | None => None
                  end
              | _ => None
              end
            else
              match simple_escape e with
              | Some c' => cons_unit (Raw c') (parse_string_body r1)
              | None => None
              end
        end
      else if (N_of_ascii c <? 32)%N then None
      else cons_unit (Raw c) (parse_string_body r)
  end.

(** The UTF-8 bytes of the string of those characters: an escaped high
    surrogate followed by an escaped low surrogate is one code point. *)
Fixpoint encode (us : list unit16) : string :=
  match us with
  | [] => EmptyString
  | Raw c :: rest => String c (encode rest)
  | Esc hi :: rest =>
      match rest with
      | Esc lo :: rest' =>
          if is_high_surrogate hi && is_low_surrogate lo
          then utf8 (65536 + (hi - 55296) * 1024 + (lo - 56320))%N +:+ encode rest'
          else utf8 hi +:+ encode rest
      | _ => utf8 hi +:+ encode rest
      end
  end.

Definition parse_string (s : string) : option (string * string) :=
  match parse_string_body s with
  | Some (us, r) => Some (encode us, r)
  | None => None
  end.

(** [starts c s]: the rest of [s] after its first character when that is [c]. *)
Definition starts (c : ascii) (s : string) : option string :=
  match s with
  | String a r => if (a =? c)%char then Some r else None
  | EmptyString => None
  end.

(** A maximal run of decimal digits: its value, its length, and what follows. *)
Fixpoint parse_digits (acc : N) (count : nat) (s : string) : N * nat * string :=
  match s with
  | String c r =>
      match digit_val c with
      | Some d => parse_digits (acc * 10 + d)%N (S count) r
      | None => (acc, count, s)
      end
  | EmptyString => (acc, count, s)
  end.

Definition parse_int_part (s : string) : option (N * string) :=
  match starts "0" s with
  | Some r => Some (0%N, r)
  | None =>
      let '(v, k, r) := parse_digits 0 0 s in
      match k with
      | O => None
      | S _ => Some (v, r)
      end
  end.

Definition parse_frac_part (int_part : N) (s : string) : option (N * nat * string) :=
  match starts "." s with
  | Some r =>
      let '(v, k, r') := parse_digits int_part 0 r in
      match k with
      | O => None
      | S _ => Some (v, k, r')
      end
  | None => Some (int_part, O, s)
  end.

Definition parse_exp_part (s : string) : option (Z * string) :=
  match starts "e" s, starts "E" s with
  | Some r, _ | None, Some r =>
      let '(sign, r1) :=
        match starts "+" r, starts "-" r with
        | Some r1, _ => (1%Z, r1)
        | None, Some r1 => ((-1)%Z, r1)
        | None, None => (1%Z, r)
        end in
      let '(v, k, r2) := parse_digits 0 0 r1 in
      match k with
      | O => None
      | S _ => Some ((sign * Z.of_N v)%Z, r2)
      end
  | None, None => Some (0%Z, s)
  end.

Definition parse_number (s : string) : option (number * string) :=
  let '(sgn, s1) :=
    match starts "-" s with
    | Some r => (true, r)
    | None => (false, s)
    end in
  match parse_int_part s1 with
  | None => None
  | Some (i, s2) =>
      match parse_frac_part i s2 with
      | None => None
      | Some (m, k, s3) =>
          match parse_exp_part s3 with
          | None => None
          | Some (e, s4) =>
              Some ({| neg := sgn; mantissa := m; exp10 := (e - Z.of_nat k)%Z |}, s4)
          end
      end
  end.

Fixpoint strip_prefix (p s : string) : option string :=
  match p, s with
  | EmptyString, _ => Some s
  | String a p', String b s' => if (a =? b)%char then strip_prefix p' s' else None
  | String _ _, EmptyString => None
  end.

(** Outcome of the recursive-descent parser.  The fuel is a termination
    device only: [JSON_parse] supplies enough of it for any text
    ([parse_value_fuel]). *)
Inductive parsed (A : Type) :=
| Parsed (v : A) (rest : string)
| SyntaxErr
| OutOfFuel.
Arguments Parsed {A} v rest.
Arguments SyntaxErr {A}.
Arguments OutOfFuel {A}.

Definition parsed_map {A B} (f : A -> B) (p : parsed A) : parsed B :=
  match p with
  | Parsed v r => Parsed (f v) r
  | SyntaxErr => SyntaxErr
  | OutOfFuel => OutOfFuel
  end.

Definition of_option {A} (o : option (A * string)) : parsed A :=
  match o with
  | Some (v, r) => Parsed v r
  | None => SyntaxErr
  end.

(** A literal, a number or a string: the values that need no recursion. *)
Definition parse_scalar (s : string) : parsed json :=
  match starts dquote s with
  | Some r => parsed_map JStr (of_option (parse_string r))
  | None =>
      match strip_prefix "true" s, strip_prefix "false" s, strip_prefix "null" s with
      | Some r, _, _ => Parsed (JBool true) r
      | None, Some r, _ => Parsed (JBool false) r
      | None, None, Some r => Parsed JNull r
      | None, None, None => parsed_map JNum (of_option (parse_number s))
      end
  end.

Fixpoint parse_value (fuel : nat) (s : string) : parsed json :=
  match fuel with
  | O => OutOfFuel
  | S fuel' =>
      let s1 := skip_ws s in
      match starts "{" s1, starts "[" s1 with
      | Some r, _ =>
          match starts "}" (skip_ws r) with
          | Some r' => Parsed (JObj []) r'
          | None => parsed_map JObj (parse_members fuel' r)
          end
      | None, Some r =>
          match starts "]" (skip_ws r) with
          | Some r' => Parsed (JArr []) r'
          | None => parsed_map JArr (parse_elements fuel' r)
          end
      | None, None => parse_scalar s1
      end
  end

(** One or more values separated by commas, then the closing bracket. *)
with parse_elements (fuel : nat) (s : string) : parsed (list json) :=
  match fuel with
  | O => OutOfFuel
  | S fuel' =>
      match parse_value fuel' s with
      | Parsed v r =>
          let r1 := skip_ws r in
          match starts "]" r1, starts "," r1 with
          | Some r', _ => Parsed [v] r'
          | None, Some r' => parsed_map (cons v) (parse_elements fuel' r')
          | None, None => SyntaxErr
          end
      | SyntaxErr => SyntaxErr
      | OutOfFuel => OutOfFuel
      end
  end

(** One or more [string : value] members separated by commas, then the
    closing brace. *)
with parse_members (fuel : nat) (s : string) : parsed (list (string * json)) :=
  match fuel with
  | O => OutOfFuel
  | S fuel' =>
      match starts dquote (skip_ws s) with
      | None => SyntaxErr
      | Some r =>
          match parse_string r with
          | None => SyntaxErr
          | Some (k, r1) =>
              match starts ":" (skip_ws r1) with
              | None => SyntaxErr
              | Some r2 =>
                  match parse_value fuel' r2 with
                  | Parsed v r3 =>
                      let r4 := skip_ws r3 in
                      match starts "}" r4, starts "," r4 with
                      | Some r', _ => Parsed [(k, v)] r'
                      | None, Some r' => parsed_map (cons (k, v)) (parse_members fuel' r')
                      | None, None => SyntaxErr
                      end
                  | SyntaxErr => SyntaxErr
                  | OutOfFuel => OutOfFuel
                  end
              end
          end
      end
  end.

(** [JSON.parse(text)]: one value, surrounded by optional white space.
    [None] stands for the [SyntaxError] the built-in throws. *)
Definition JSON_parse (text : string) : option json :=
  match parse_value (S (2 * String.length text)) text with
  | Parsed v r =>
      match skip_ws r with
      | EmptyString => Some v
      | String _ _ => None
      end
  | SyntaxErr | OutOfFuel => None
  end.

(** [ToBoolean] of a number: false exactly for the doubles [+0] and [-0].
    A decimal [m * 10^e] rounds (to nearest, ties to even) to zero exactly when
    it is at most [2^-1075], half the smallest subnormal. *)
Definition number_is_zero (n : number) : bool :=
  (mantissa n =? 0)%N
  || ((exp10 n <? 0)%Z
      && (Z.of_N (mantissa n) * 2 ^ 1075 <=? 10 ^ (- exp10 n))%Z).

(** [obj[key]] on a parsed value that is not [null]: the own property of an
    object (the last one when the key is repeated), [undefined] ([None])
    otherwise. *)
Fixpoint get_member (key : string) (ms : list (string * json)) : option json :=
  match ms with
  | [] => None
  | (k, v) :: ms' =>
      match get_member key ms' with
      | Some v' => Some v'
      | None => if (k =? key)%string then Some v else None
      end
  end.

Definition get_prop (v : json) (key : string) : option json :=
  match v with
  | JObj ms => get_member key ms
  | _ => None
  end.

(** [ToBoolean] of a property read ([None] is [undefined]). *)
Definition truthy (v : option json) : bool :=
  match v with
  | None => false
  | Some JNull => false
  | Some (JBool b) => b
  | Some (JNum n) => negb (number_is_zero n)
  | Some (JStr s) => negb (s =? "")%string
  | Some (JArr _) => true
  | Some (JObj _) => true
  end.

End Json.

Import Json.

(** ** Thrown values

    What a [catch] clause can observe of a thrown value: whether it is an
    [Error] object ([error instanceof Error]), whose [message] is a string;
    for any other value, what it is converted to as a string; and the
    properties [error?.message] and [error?.error?.message]. *)

Inductive js_error :=
| ErrorObject (msg : string) (nested : option string)   (* an instance of Error *)
| ThrownValue (text : string) (msg : option string) (nested : option string).

(** [error instanceof Error] *)
Definition instance_of_Error (e : js_error) : bool :=
  match e with
  | ErrorObject _ _ => true
  | ThrownValue _ _ _ => false
  end.

(** [error?.message] *)
Definition message (e : js_error) : option string :=
  match e with
  | ErrorObject msg _ => Some msg
  | ThrownValue _ msg _ => msg
  end.

(** [error?.error?.message] *)
Definition nested_message (e : js_error) : option string :=
  match e with
  | ErrorObject _ nested => nested
  | ThrownValue _ _ nested => nested
  end.

(** [new Error(msg)] *)
Definition Error (msg : string) : js_error := ErrorObject msg None.

(** What an asynchronous call comes to for the caller that awaits it: a call
    that settles completes, normally with [Fulfilled] or by throwing; a call
    that never settles leaves its caller suspended for good, [Pending]. *)
Inductive promised (A : Type) :=
| Fulfilled (a : A)
| Pending.
Arguments Fulfilled {A} a.
Arguments Pending {A}.

(** [`${error}`]: the name and the message of an [Error] object, the string
    conversion of any other value. *)
Definition error_to_string (e : js_error) : string :=
  match e with
  | ErrorObject msg _ => "Error: " +:+ msg
  | ThrownValue text _ _ => text
  end.

(** [x || d] on an optional string: [undefined], [null] and the empty string
    are falsy. *)
Definition or_else (x : option string) (d : string) : string :=
  match x with
  | Some s => if (s =? "")%string then d else s
  | None => d
  end.

(** ** A monad for handler bodies: state, emitted effects, exceptions *)

Module Eff.
Section Eff.
Context {S E : Type}.

Inductive completion (A : Type) :=
| Normal (a : A)
| Thrown (e : js_error).
Arguments Normal {A} a.
Arguments Thrown {A} e.

Definition M (A : Type) : Type := S -> completion A * S * list E.

Definition ret {A} (a : A) : M A := fun s => (Normal a, s, []).

Definition bind {A B} (m : M A) (k : A -> M B) : M B :=
  fun s =>
    match m s with
    | (Normal a, s1, out1) =>
        let '(c, s2, out2) := k a s1 in (c, s2, out1 ++ out2)
    | (Thrown e, s1, out1) => (Thrown e, s1, out1)
    end.

Definition throw {A} (e : js_error) : M A := fun s => (Thrown e, s, []).
Definition get : M S := fun s => (Normal s, s, []).
Definition modify (f : S -> S) : M unit := fun s => (Normal tt, f s, []).
Definition emit (e : E) : M unit := fun s => (Normal tt, s, [e]).

(** [try { body } catch (e) { handler e }] *)
Definition try_catch {A} (body : M A) (handler : js_error -> M A) : M A :=
  fun s =>
    match body s with
    | (Normal a, s1, out1) => (Normal a, s1, out1)
    | (Thrown e, s1, out1) =>
        let '(c, s2, out2) := handler e s1 in (c, s2, out1 ++ out2)
    end.

(** [try { body } finally { fin }]: [fin] always runs; when it completes
    normally the completion of [body] stands. *)
Definition finally {A} (body : M A) (fin : M unit) : M A :=
  fun s =>
    let '(c, s1, out1) := body s in
    match fin s1 with
    | (Normal _, s2, out2) => (c, s2, out1 ++ out2)
    | (Thrown e, s2, out2) => (Thrown e, s2, out1 ++ out2)
    end.

(** The value of [await p] once [p] has settled with [c]. *)
Definition await {A} (c : completion A) : M A := fun s => (c, s, []).
End Eff.
Arguments completion : clear implicits.
Arguments M : clear implicits.
Arguments Normal {A} a.
Arguments Thrown {A} e.

(** Run a computation on a component [T] of the state [S]. *)
Definition zoom {S T E A} (proj : S -> T) (inj : T -> S -> S) (m : M T E A) : M S E A :=
  fun s => let '(c, t, out) := m (proj s) in (c, inj t s, out).

(** Run a computation with local variables of its own, starting from [init]. *)
Definition embed {S L E A} (init : L) (m : M L E A) : M S E A :=
  fun s => let '(c, _, out) := m init in (c, s, out).
End Eff.

Import Eff.

#[global] Instance eff_ret {S E} : MRet (M S E) := fun A => ret.
#[global] Instance eff_bind {S E} : MBind (M S E) := fun A B k m => bind m k.

(** ** The AI adapters: response handling *)

Module Adapter.

Inductive failure :=
| ClientNotInitialized      (* thrown before the [try] block *)
| TransportFailed           (* the SDK call rejected *)
| NoJsonFound               (* 'Could not extract JSON from Gemini response' *)
| JsonSyntaxError           (* [JSON.parse] threw *)
| PropertyOfNull            (* a property read on [null] threw *)
| InvalidStructure.         (* 'Invalid response structure from Gemini' *)

Inductive outcome :=
| Solved (result : json)
| Failed (why : failure).

(** The suffix of [s] that starts at its first ["{"]. *)
Fixpoint from_first_open (s : string) : option string :=
  match s with
  | EmptyString => None
  | String c r => if (c =? "{")%char then Some s else from_first_open r
  end.

(** The longest prefix of [s] that ends with ["}"]. *)
Fixpoint upto_last_close (s : string) : option string :=
  match s with
  | EmptyString => None
  | String c r =>
      match upto_last_close r with
      | Some p => Some (String c p)
      | None => if (c =? "}")%char then Some (String c EmptyString) else None
      end
  end.

(** [c] occurs in [s]. *)
Fixpoint contains (c : ascii) (s : string) : bool :=
  match s with
  | EmptyString => false
  | String a r => (a =? c)%char || contains c r
  end.

(** [text.match(/\{[\s\S]*\}/)]: the greedy match starts at the first ["{"]
    and runs to the last ["}"] after it. *)
Definition match_braces (text : string) : option string :=
  match from_first_open text with
  | Some (String c r) =>
      match upto_last_close r with
      | Some p => Some (String c p)
      | None => None
      end
  | _ => None
  end.

Definition required_fields : list string :=
  ["approach"; "code"; "timeComplexity"; "spaceComplexity"].

(** [!p.approach || !p.code || !p.timeComplexity || !p.spaceComplexity] *)
Definition missing_field (p : json) : bool :=
  negb (truthy (get_prop p "approach"))
  || negb (truthy (get_prop p "code"))
  || negb (truthy (get_prop p "timeComplexity"))
  || negb (truthy (get_prop p "spaceComplexity")).

(** The object literal returned on success; a property that reads [undefined]
    cannot occur there because of the check before it. *)
Definition pick (p : json) (key : string) : string * json :=
  (key, default JNull (get_prop p key)).

Definition solution_of (p : json) : json :=
  JObj (map (pick p) required_fields).

(** Gemini [processImages], from the text of the response on: extraction,
    parse and validation, with every throw caught and rethrown by the
    enclosing [catch].  Reading a property of [null] throws; a span that
    starts with a brace never parses to [null] ([span_parses_to_object]). *)
Definition gemini_of_text (text : option string) : outcome :=
  match match_braces (or_else text "") with
  | None => Failed NoJsonFound
  | Some span =>
      match JSON_parse span with
      | None => Failed JsonSyntaxError
      | Some JNull => Failed PropertyOfNull
      | Some p => if missing_field p then Failed InvalidStructure else Solved (solution_of p)
      end
  end.

(** What [genAI.models.generateContent] (or the OpenAI completion call)
    settles with: a rejection, or a response whose text may be missing. *)
Inductive sdk_reply :=
| SdkRejected
| SdkText (text : option string).

Definition processImages (client_ready : bool) (reply : sdk_reply) : outcome :=
  if negb client_ready then Failed ClientNotInitialized
  else
    match reply with
    | SdkRejected => Failed TransportFailed
    | SdkText text => gemini_of_text text
    end.

(** OpenAI [processScreenshots], from the message content on:
    [JSON.parse(content || '{}')], returned as it is. *)
Definition openai_of_content (content : option string) : outcome :=
  match JSON_parse (or_else content "{}") with
  | Some v => Solved v
  | None => Failed JsonSyntaxError
  end.

Definition processScreenshots (client_ready : bool) (reply : sdk_reply) : outcome :=
  if negb client_ready then Failed ClientNotInitialized
  else
    match reply with
    | SdkRejected => Failed TransportFailed
    | SdkText content => openai_of_content content
    end.

(** The message of the error each failure is thrown with; [thrown] is what
    the SDK or the host threw inside the [try] block (the rejection, the
    [SyntaxError], the [TypeError]), which the [catch] clause tests with
    [instanceof Error]. *)
Definition gemini_message (thrown : js_error) (why : failure) : string :=
  match why with
  | ClientNotInitialized =>
      "Google AI client not initialized. Please configure your API key."
  | NoJsonFound =>
      "Gemini processing failed: Could not extract JSON from Gemini response"
  | TransportFailed | JsonSyntaxError | PropertyOfNull =>
      match thrown with
      | ErrorObject msg _ => "Gemini processing failed: " +:+ msg
      | ThrownValue _ _ _ => "Unknown error occurred during Gemini processing"
      end
  | InvalidStructure =>
      "Gemini processing failed: Invalid response structure from Gemini"
  end.

(** *** The response contract in the specification's words

    "The adapter must locate the first balanced [{...}] span in the raw text
    and parse that, rejecting the call if none is found or parsing fails";
    "all four fields must be non-empty for a successful result". *)

(** After an opening brace at nesting [depth] (counting it): the characters up
    to and including the brace that closes it. *)
Fixpoint close_span (depth : nat) (s : string) : option string :=
  match s with
  | EmptyString => None
  | String c r =>
      if (c =? "{")%char then option_map (String c) (close_span (S depth) r)
      else if (c =? "}")%char then
        match depth with
        | O => None
        | S O => Some (String c EmptyString)
        | S d => option_map (String c) (close_span d r)
        end
      else option_map (String c) (close_span depth r)
  end.

Fixpoint spec_first_balanced_span (s : string) : option string :=
  match s with
  | EmptyString => None
  | String c r =>
      if (c =? "{")%char then
        match close_span 1 r with
        | Some p => Some (String c p)
        | None => spec_first_balanced_span r
        end
      else spec_first_balanced_span r
  end.

Definition non_empty_string (v : option json) : bool :=
  match v with
  | Some (JStr s) => negb (s =? "")%string
  | _ => false
  end.

Definition spec_solveFromImages (text : string) : outcome :=
  match spec_first_balanced_span text with
  | None => Failed NoJsonFound
  | Some span =>
      match JSON_parse span with
      | None => Failed JsonSyntaxError
      | Some p =>
          if forallb (fun k => non_empty_string (get_prop p k)) required_fields
          then Solved (solution_of p)
          else Failed InvalidStructure
      end
  end.

End Adapter.

(** ** Shared data of the main process *)

Record Screenshot := { id : N; preview : string; path : string }.

Record Config := {
  provider : string;
  openaiApiKey : string;
  geminiApiKey : string;
  language : string;
  model : string;
  audioDeviceId : string;
  interviewType : string
}.

(** Messages sent to the renderer with [mainWindow.webContents.send].  The
    payload of [processing-complete] is the value handed to [JSON.stringify]. *)
Inductive event :=
| ScreenshotTaken (s : Screenshot)
| ProcessingStarted
| ProcessingComplete (payload : json)
| QueueReset
| RecordingToggled (isRecording : bool) (filePath : string)
| RecordingError (msg : string)
| AudioProcessingStarted
| AudioStreamChunk (chunk : string)
| AudioProcessingComplete
| AudioProcessingError (msg : string)
| AudioQueueReset.

(** Everything a handler does to the world outside its own variables. *)
Inductive effect :=
| Send (e : event)
| CallOpenAI (screenshots : list Screenshot)   (* openaiService.processScreenshots *)
| CallGemini (images : list string)            (* geminiService.processImages *)
| SdkStream (audioBase64 : string)             (* genAI.models.generateContentStream *)
| SdkFallback (audioBase64 : string)           (* genAI.models.generateContent *)
| HideWindow
| ShowWindow
| WriteFile (path : string)
| Unlink (path : string)
| ReadFile (path : string)
| Spawn (cmd : string) (args : list string)
| Kill.                                        (* recordingProcess.kill('SIGINT') *)

(** Decimal text of a number, as a template literal prints it. *)
Definition show (n : N) : string := pretty n.

(** [path.join(dir, name)] for a directory and a plain file name. *)
Definition path_join (dir name : string) : string := dir +:+ "/" +:+ name.

(** ** Gemini [processAudioStream] *)

Module AudioStream.

(** What [generateContentStream] settles with: a rejection, or an iterator
    that yields [chunks] and then ends, normally or by throwing.  A chunk is
    represented by [candidates[0].content.parts[0].text] when that path
    exists. *)
Inductive stream :=
| StreamRejected (e : js_error)
| Stream (chunks : list (option string)) (ending : completion unit).

Record locals := { chunkCount : nat; hasReceivedContent : bool }.

Definition count_chunk (l : locals) : locals :=
  {| chunkCount := S (chunkCount l); hasReceivedContent := hasReceivedContent l |}.
Definition mark_content (l : locals) : locals :=
  {| chunkCount := chunkCount l; hasReceivedContent := true |}.

(** The text of a chunk that carries content. *)
Definition content (chunk : option string) : option string :=
  match chunk with
  | Some text => if (text =? "")%string then None else Some text
  | None => None
  end.

(** The texts of the content chunks of a stream, in arrival order. *)
Definition contents (chunks : list (option string)) : list string :=
  omap content chunks.

Section WithCallback.
Variable onChunk : string -> list effect.

Definition call_back (text : string) : M locals effect unit :=
  fun l => (Normal tt, l, onChunk text).

(** Body of the [for await] loop. *)
Definition on_stream_chunk (chunk : option string) : M locals effect unit :=
  modify count_chunk;;
  match chunk with
  | Some text =>
      if (text =? "")%string then mret tt
      else modify mark_content;; call_back text
  | None => mret tt
  end.

Fixpoint for_await (chunks : list (option string)) : M locals effect unit :=
  match chunks with
  | [] => mret tt
  | c :: rest => on_stream_chunk c;; for_await rest
  end.

(** The [catch] clause: [if (error instanceof Error) throw new Error(`Gemini
    audio processing failed: ${error.message}`)], and the other [throw]
    otherwise. *)
Definition rethrow (e : js_error) : M locals effect unit :=
  match e with
  | ErrorObject msg _ => throw (Error ("Gemini audio processing failed: " +:+ msg))
  | ThrownValue _ _ _ =>
      throw (Error "Unknown error occurred during Gemini audio processing")
  end.

Definition processAudioStream (client_ready : bool) (audioBase64 : string)
    (st : stream) (fallback : completion (option string)) : M locals effect unit :=
  if negb client_ready then
    throw (Error "Google AI client not initialized. Please configure your API key.")
  else
    try_catch
      (emit (SdkStream audioBase64);;
       match st with
       | StreamRejected e => throw e
       | Stream chunks ending =>
           for_await chunks;;
           await ending;;
           l ← get;
           if negb (hasReceivedContent l) then
             emit (SdkFallback audioBase64);;
             reply ← await fallback;
             let text := or_else reply "" in
             if (text =? "")%string then mret tt else call_back text
           else mret tt
       end)
      rethrow.
End WithCallback.

Definition start : locals := {| chunkCount := 0; hasReceivedContent := false |}.

End AudioStream.

(** ** The audio recorder service *)

Module Recorder.

Record t := {
  isRecording : bool;
  recordingProcess : option string;   (* the command of the spawned child *)
  outputPath : string;
  questionCounter : N;
  deviceId : string
}.

Definition initial : t :=
  {| isRecording := false; recordingProcess := None; outputPath := "";
     questionCounter := 1; deviceId := "default" |}.

Definition set_isRecording (b : bool) (r : t) : t :=
  {| isRecording := b; recordingProcess := recordingProcess r;
     outputPath := outputPath r; questionCounter := questionCounter r;
     deviceId := deviceId r |}.
Definition set_recordingProcess (p : option string) (r : t) : t :=
  {| isRecording := isRecording r; recordingProcess := p;
     outputPath := outputPath r; questionCounter := questionCounter r;
     deviceId := deviceId r |}.
Definition set_outputPath (p : string) (r : t) : t :=
  {| isRecording := isRecording r; recordingProcess := recordingProcess r;
     outputPath := p; questionCounter := questionCounter r;
     deviceId := deviceId r |}.
Definition incr_questionCounter (r : t) : t :=
  {| isRecording := isRecording r; recordingProcess := recordingProcess r;
     outputPath := outputPath r; questionCounter := questionCounter r + 1;
     deviceId := deviceId r |}.
Definition updateConfig (d : string) (r : t) : t :=
  {| isRecording := isRecording r; recordingProcess := recordingProcess r;
     outputPath := outputPath r; questionCounter := questionCounter r;
     deviceId := d |}.

Definition sampleRate : N := 16000.
Definition channels : N := 1.

Section WithHost.
(** [app.getPath('userData')] and the outcome of [which cmd]. *)
Variable userData : string.
Variable available : string -> bool.

Definition recordingDir : string := path_join userData "recordings".

Definition question_path (n : N) : string :=
  path_join recordingDir ("question-" +:+ show n +:+ ".wav").

Definition checkRecordingCapability : M t effect string :=
  match List.find available ["arecord"; "sox"; "ffmpeg"] with
  | Some cmd => mret cmd
  | None =>
      throw (Error "No audio recording tool found. Please install arecord, sox, or ffmpeg.")
  end.

Definition recorder_args (tool out : string) : list string :=
  if (tool =? "arecord")%string then
    ["-f"; "cd"; "-t"; "wav"; "-c"; show channels; "-r"; show sampleRate; out]
  else if (tool =? "sox")%string then
    ["-d"; "-t"; "wav"; "-c"; show channels; "-r"; show sampleRate; out]
  else if (tool =? "ffmpeg")%string then
    ["-f"; "pulse"; "-i"; "default"; "-ac"; show channels; "-ar"; show sampleRate;
     "-acodec"; "pcm_s16le"; out]
  else [].

Definition startRecording : M t effect string :=
  r ← get;
  if isRecording r then throw (Error "Already recording")
  else
    modify (set_outputPath (question_path (questionCounter r)));;
    try_catch
      (tool ← checkRecordingCapability;
       r1 ← get;
       emit (Spawn tool (recorder_args tool (outputPath r1)));;
       modify (set_recordingProcess (Some tool));;
       modify (set_isRecording true);;
       mret (outputPath r1))
      (fun e =>
         modify (set_isRecording false);;
         throw (Error ("Failed to start recording: " +:+ error_to_string e))).

(** The [try] block of [stopRecording] from "Verify file was created and
    has content" on.  [stat] is what [fs.stat(this.outputPath)] settles with:
    the size of the file, or a rejection when there is no such file. *)
Definition verify_and_return (stat : completion N) : M t effect (promised string) :=
  try_catch
    (size ← await stat;
     if (size =? 0)%N then throw (Error "Recording file is empty") else mret tt)
    (fun e =>
       throw (Error ("Recording file was not created properly: "
                     +:+ error_to_string e)));;
  r1 ← get;
  let filePath := outputPath r1 in
  modify incr_questionCounter;;
  mret (Fulfilled filePath).

(** [closes] says whether the child emits ['close'] after [stopRecording]
    has attached its listener, which it does only once the signal is sent: a
    child that is still running and ends on the signal does, a child that has
    exited before does not, and the promise [stopRecording] awaits is then
    never resolved: nothing after the [await] runs, neither the [catch]
    clause nor the caller's.  The ['error'] listener of the child, which
    clears [isRecording] when the tool cannot be run, is an event of its own
    and not part of these calls. *)
Definition stopRecording (closes : bool) (stat : completion N)
  : M t effect (promised string) :=
  r ← get;
  if negb (isRecording r) then throw (Error "Not currently recording")
  else
    try_catch
      (modify (set_isRecording false);;
       match recordingProcess r with
       | Some _ =>
           emit Kill;;
           if closes then
             modify (set_recordingProcess None);;
             verify_and_return stat
           else mret Pending
       | None => verify_and_return stat
       end)
      (fun e =>
         modify (set_isRecording false);;
         throw (Error ("Failed to stop recording: " +:+ error_to_string e))).

Definition toggleRecording (closes : bool) (stat : completion N)
  : M t effect (promised string) :=
  r ← get;
  if isRecording r then stopRecording closes stat
  else filePath ← startRecording; mret (Fulfilled filePath).

Definition getRecordingStatus : M t effect bool :=
  r ← get; mret (isRecording r).

(** [read] is what [fs.readFile(filePath)] settles with, already in
    base64. *)
Definition audioFileToBase64 (filePath : string) (read : completion string)
  : M t effect string :=
  try_catch
    (emit (ReadFile filePath);; await read)
    (fun e => throw (Error ("Failed to read audio file: " +:+ error_to_string e))).
End WithHost.

End Recorder.

(** ** The main process: screenshot queue, single-flight flag, reset *)

Module Main.

Definition MAX_SCREENSHOTS : nat := 4.

(** A handler suspended at an [await]. [handleTakeScreenshot] reads and
    writes no shared variable between its three awaits (the 100 ms timer, the
    capture, the file write), so they are one suspension here. *)
Inductive task :=
| TakeTask                          (* handleTakeScreenshot, past its guard *)
| ProcessTask                       (* handleProcessScreenshots, awaiting the adapter *)
| ResetTask (arr : nat) (i : nat).  (* handleResetQueue, awaiting the unlink of arr[i] *)

(** The module-level variables.  Arrays are objects: [arrays] is the store of
    the array objects ever created and [screenshotQueue] refers to the current
    one, so that a [for ... of] loop keeps iterating the object it started
    on after [screenshotQueue = []] has replaced it. *)
Record state := {
  arrays : list (list Screenshot);
  screenshotQueue : nat;
  isProcessing : bool;
  config : option Config;
  recorder : Recorder.t;
  tasks : gmap nat task;
  next_task : nat
}.

Definition set_arrays (a : list (list Screenshot)) (s : state) : state :=
  {| arrays := a; screenshotQueue := screenshotQueue s; isProcessing := isProcessing s;
     config := config s; recorder := recorder s; tasks := tasks s;
     next_task := next_task s |}.
Definition set_screenshotQueue (q : nat) (s : state) : state :=
  {| arrays := arrays s; screenshotQueue := q; isProcessing := isProcessing s;
     config := config s; recorder := recorder s; tasks := tasks s;
     next_task := next_task s |}.
Definition set_isProcessing (b : bool) (s : state) : state :=
  {| arrays := arrays s; screenshotQueue := screenshotQueue s; isProcessing := b;
     config := config s; recorder := recorder s; tasks := tasks s;
     next_task := next_task s |}.
Definition set_recorder (r : Recorder.t) (s : state) : state :=
  {| arrays := arrays s; screenshotQueue := screenshotQueue s;
     isProcessing := isProcessing s; config := config s; recorder := r;
     tasks := tasks s; next_task := next_task s |}.
Definition set_tasks (m : gmap nat task) (s : state) : state :=
  {| arrays := arrays s; screenshotQueue := screenshotQueue s;
     isProcessing := isProcessing s; config := config s; recorder := recorder s;
     tasks := m; next_task := next_task s |}.
Definition set_next_task (n : nat) (s : state) : state :=
  {| arrays := arrays s; screenshotQueue := screenshotQueue s;
     isProcessing := isProcessing s; config := config s; recorder := recorder s;
     tasks := tasks s; next_task := n |}.

(** The state after module initialisation and [loadConfig]. *)
Definition initial (cfg : option Config) : state :=
  {| arrays := [[]]; screenshotQueue := 0; isProcessing := false; config := cfg;
     recorder := Recorder.initial; tasks := ∅; next_task := 0 |}.

Definition array_at (s : state) (r : nat) : list Screenshot :=
  default [] (arrays s !! r).

(** The contents of the array [screenshotQueue] refers to. *)
Definition queue (s : state) : list Screenshot := array_at s (screenshotQueue s).

(** [screenshotQueue.push(shot)] *)
Definition push (shot : Screenshot) (s : state) : state :=
  set_arrays (alter (fun q => q ++ [shot]) (screenshotQueue s) (arrays s)) s.

(** [screenshotQueue = []] *)
Definition fresh_queue (s : state) : state :=
  set_screenshotQueue (length (arrays s)) (set_arrays (arrays s ++ [[]]) s).

Inductive status := Finished | Suspended.

Definition suspend (k : task) : M state effect status :=
  modify (fun s =>
            set_next_task (S (next_task s))
              (set_tasks (<[next_task s := k]> (tasks s)) s));;
  mret Suspended.

(** What the awaits of [handleTakeScreenshot] settle with. *)
Inductive capture :=
| CaptureFailed (e : js_error)
| Captured (base64 : string) (now : N) (written : completion unit).

(** What the awaits of one [handleToggleRecording] call settle with. *)
Record recording_host := {
  available : string -> bool;          (* which <cmd> *)
  closes : bool;                       (* the child emits 'close' after the signal *)
  stat : completion N;                 (* fs.stat(outputPath).size *)
  read : completion string;            (* fs.readFile, in base64 *)
  gemini_ready : bool;                 (* the Gemini client has been configured *)
  stream : AudioStream.stream;         (* generateContentStream *)
  fallback : completion (option string) (* generateContent: the text of the reply *)
}.

Definition no_config_payload : json :=
  JObj [("approach", JStr "Error");
        ("code", JStr "No configuration found. Please configure your API keys.");
        ("timeComplexity", JStr ""); ("spaceComplexity", JStr "")].

Definition cancelled_payload : json :=
  JObj [("approach", JStr "Processing cancelled"); ("code", JStr "");
        ("timeComplexity", JStr ""); ("spaceComplexity", JStr "")].

Definition error_payload (errorMessage : string) : json :=
  JObj [("error", JStr errorMessage);
        ("approach", JStr "Error occurred while processing");
        ("code", JStr ("Error: " +:+ errorMessage));
        ("timeComplexity", JStr "N/A"); ("spaceComplexity", JStr "N/A")].

(** "Extract the most relevant error message". *)
Definition relevant_message (error : js_error) : string :=
  or_else (nested_message error)
    (or_else (message error) "Error processing screenshots").

Section WithHost.
(** [app.getPath('userData')] and [app.getPath('temp')]. *)
Variable userData : string.
Variable temp : string.

Definition SCREENSHOT_DIR : string := path_join temp "screenshots".

Definition handleTakeScreenshot : M state effect status :=
  s ← get;
  if (MAX_SCREENSHOTS <=? length (queue s))%nat then mret Finished
  else emit HideWindow;; suspend TakeTask.

Definition take_resume (c : capture) : M state effect status :=
  try_catch
    (match c with
     | CaptureFailed e => throw e
     | Captured base64 now written =>
         let screenshotPath := path_join SCREENSHOT_DIR (show now +:+ ".png") in
         emit (WriteFile screenshotPath);;
         await written;;
         let screenshot :=
           {| id := now; preview := "data:image/png;base64," +:+ base64;
              path := screenshotPath |} in
         modify (push screenshot);;
         emit ShowWindow;;
         emit (Send (ScreenshotTaken screenshot))
     end)
    (fun _ => emit ShowWindow);;
  mret Finished.

(** [handleProcessScreenshots] from the point where the adapter call has
    settled with [r] (or where the provider dispatch has thrown). *)
Definition process_settle (r : completion json) : M state effect status :=
  finally
    (try_catch
       (result ← await r;
        s ← get;
        if negb (isProcessing s) then mret tt
        else emit (Send (ProcessingComplete result)))
       (fun error =>
          s ← get;
          if negb (isProcessing s) then mret tt
          else emit (Send (ProcessingComplete (error_payload (relevant_message error))))))
    (modify (set_isProcessing false));;
  mret Finished.

(** The OpenAI adapter is handed the array object itself; the effect records
    what it holds at the call. *)
Definition handleProcessScreenshots : M state effect status :=
  s ← get;
  if isProcessing s || (length (queue s) =? 0)%nat then mret Finished
  else
    match config s with
    | None =>
        emit (Send (ProcessingComplete no_config_payload));;
        mret Finished
    | Some cfg =>
        modify (set_isProcessing true);;
        emit (Send ProcessingStarted);;
        if (provider cfg =? "openai")%string then
          emit (CallOpenAI (queue s));; suspend ProcessTask
        else if (provider cfg =? "gemini")%string then
          emit (CallGemini (map preview (queue s)));; suspend ProcessTask
        else
          process_settle (Thrown (Error ("Unsupported AI provider: " +:+ provider cfg)))
    end.

(** The [for (const screenshot of screenshotQueue)] loop of
    [handleResetQueue], about to look at element [i] of the array object
    [arr], followed by the rest of the handler. *)
Definition reset_loop (arr i : nat) : M state effect status :=
  s ← get;
  match array_at s arr !! i with
  | Some screenshot => emit (Unlink (path screenshot));; suspend (ResetTask arr i)
  | None =>
      modify fresh_queue;;
      emit (Send QueueReset);;
      mret Finished
  end.

Definition handleResetQueue : M state effect status :=
  s ← get;
  (if isProcessing s then
     modify (set_isProcessing false);;
     emit (Send (ProcessingComplete cancelled_payload))
   else mret tt);;
  reset_loop (screenshotQueue s) 0.

(** A failed deletion is logged and the loop goes on. *)
Definition reset_resume (arr i : nat) (r : completion unit) : M state effect status :=
  try_catch (await r) (fun _ => mret tt);;
  reset_loop arr (S i).

Definition on_recorder {A} (m : M Recorder.t effect A) : M state effect A :=
  zoom recorder set_recorder m.

Definition handleProcessAudio (h : recording_host) (audioFilePath : string)
  : M state effect unit :=
  s ← get;
  match config s with
  | None => emit (Send (AudioProcessingError "No configuration found"))
  | Some cfg =>
      try_catch
        (emit (Send AudioProcessingStarted);;
         audioBase64 ← on_recorder (Recorder.audioFileToBase64 audioFilePath (read h));
         if (provider cfg =? "gemini")%string then
           embed AudioStream.start
             (AudioStream.processAudioStream
                (fun chunk => [Send (AudioStreamChunk chunk)])
                (gemini_ready h) audioBase64 (stream h) (fallback h));;
           emit (Send AudioProcessingComplete)
         else
           throw (Error "Audio processing is currently only supported with Gemini provider"))
        (fun error => emit (Send (AudioProcessingError (default "" (message error)))))
  end.

(** [handleToggleRecording], run to its end: the recorder and the audio
    pipeline share no variable with the screenshot handlers.  When the
    toggle it awaits never settles the handler stays suspended and no event
    resumes it. *)
Definition handleToggleRecording (h : recording_host) : M state effect status :=
  try_catch
    (toggled ← on_recorder
                 (Recorder.toggleRecording userData (available h) (closes h) (stat h));
     match toggled with
     | Pending => mret Suspended
     | Fulfilled filePath =>
         isRecording ← on_recorder Recorder.getRecordingStatus;
         emit (Send (RecordingToggled isRecording filePath));;
         (if negb isRecording && negb (filePath =? "")%string
          then handleProcessAudio h filePath
          else mret tt);;
         mret Finished
     end)
    (fun error =>
       emit (Send (RecordingError (default "" (message error))));;
       mret Finished).

Definition handleResetAudioQueue : M state effect status :=
  emit (Send AudioQueueReset);; mret Finished.

(** What reaches the event loop: intents (IPC calls and global shortcuts)
    and the settling of what a suspended handler awaits. *)
Inductive input :=
| TakeScreenshot
| ProcessScreenshots
| ResetQueue
| ToggleRecording (h : recording_host)
| ResetAudioQueue
| CaptureSettled (t : nat) (c : capture)
| ProviderSettled (t : nat) (r : completion json)
| UnlinkSettled (t : nat) (r : completion unit).

Definition drop_task (t : nat) (s : state) : state :=
  set_tasks (delete t (tasks s)) s.

(** Resume task [t] when it is suspended where the input says; an input for
    a task that is not there changes nothing. *)
Definition resume (t : nat) (k : task -> option (M state effect status))
  : M state effect status :=
  s ← get;
  match tasks s !! t ≫= k with
  | Some m => modify (drop_task t);; m
  | None => mret Finished
  end.

Definition step (i : input) : M state effect status :=
  match i with
  | TakeScreenshot => handleTakeScreenshot
  | ProcessScreenshots => handleProcessScreenshots
  | ResetQueue => handleResetQueue
  | ToggleRecording h => handleToggleRecording h
  | ResetAudioQueue => handleResetAudioQueue
  | CaptureSettled t c =>
      resume t (fun k => match k with TakeTask => Some (take_resume c) | _ => None end)
  | ProviderSettled t r =>
      resume t (fun k => match k with ProcessTask => Some (process_settle r) | _ => None end)
  | UnlinkSettled t r =>
      resume t (fun k =>
                  match k with
                  | ResetTask arr i => Some (reset_resume arr i r)
                  | _ => None
                  end)
  end.

(** The event loop on a sequence of inputs: the final state and everything
    done on the way.  A handler that throws does not stop the loop. *)
Fixpoint run (inputs : list input) (s : state) : state * list effect :=
  match inputs with
  | [] => (s, [])
  | i :: rest =>
      let '(_, s1, out1) := step i s in
      let '(s2, out2) := run rest s1 in
      (s2, out1 ++ out2)
  end.
End WithHost.

(** Counting what a run did. *)
Definition is_provider_call (e : effect) : bool :=
  match e with
  | CallOpenAI _ | CallGemini _ => true
  | _ => false
  end.

Definition provider_calls (out : list effect) : nat :=
  length (filter (fun e => is_provider_call e = true) out).

End Main.

(** ** The renderer: preview list and result history *)

Module Renderer.

Inductive kind := screenshot | audio.

Inductive item_result :=
| Structured (v : json)      (* JSON.parse(resultStr) *)
| Text (s : string).

Record HistoryItem := {
  item_id : N;
  type : kind;
  timestamp : N;
  result : item_result;
  item_screenshots : option (list Screenshot)
}.

(** The React state of [App] the listeners touch. *)
Record state := {
  isProcessing : bool;
  screenshots : list Screenshot;
  error : option string;
  isRecording : bool;
  isAudioProcessing : bool;
  streamingResponse : string;
  showStreamingResponse : bool;
  history : list HistoryItem;
  currentItem : option HistoryItem
}.

Definition first_render : state :=
  {| isProcessing := false; screenshots := []; error := None; isRecording := false;
     isAudioProcessing := false; streamingResponse := ""; showStreamingResponse := false;
     history := []; currentItem := None |}.

(** No character other than (ASCII) white space: [s.trim()] is empty. *)
Fixpoint blank (s : string) : bool :=
  match s with
  | EmptyString => true
  | String c r =>
      match N_of_ascii c with
      | 9%N | 10%N | 11%N | 12%N | 13%N | 32%N => blank r
      | _ => false
      end
  end.

(** The listeners are registered once, by an effect with no dependencies:
    where they read a state variable directly (not through a functional
    update) they read [seen], the values of the render that registered
    them. *)
Definition listener (seen : state) (now : N) (e : event) (r : state) : state :=
  match e with
  | ProcessingStarted =>
      {| isProcessing := true; screenshots := screenshots r; error := error r;
         isRecording := isRecording r; isAudioProcessing := isAudioProcessing r;
         streamingResponse := streamingResponse r;
         showStreamingResponse := showStreamingResponse r;
         history := history r; currentItem := None |}
  | RecordingToggled recording _ =>
      {| isProcessing := isProcessing r; screenshots := screenshots r; error := error r;
         isRecording := recording; isAudioProcessing := isAudioProcessing r;
         streamingResponse := if recording then "" else streamingResponse r;
         showStreamingResponse := if recording then false else showStreamingResponse r;
         history := history r; currentItem := currentItem r |}
  | RecordingError msg =>
      {| isProcessing := isProcessing r; screenshots := screenshots r; error := Some msg;
         isRecording := false; isAudioProcessing := isAudioProcessing r;
         streamingResponse := streamingResponse r;
         showStreamingResponse := showStreamingResponse r;
         history := history r; currentItem := currentItem r |}
  | AudioProcessingStarted =>
      {| isProcessing := isProcessing r; screenshots := screenshots r; error := error r;
         isRecording := isRecording r; isAudioProcessing := true;
         streamingResponse := ""; showStreamingResponse := true;
         history := history r; currentItem := None |}
  | AudioStreamChunk chunk =>
      {| isProcessing := isProcessing r; screenshots := screenshots r; error := error r;
         isRecording := isRecording r; isAudioProcessing := isAudioProcessing r;
         streamingResponse := streamingResponse r +:+ chunk;
         showStreamingResponse := true;
         history := history r; currentItem := currentItem r |}
  | AudioProcessingComplete =>
      if blank (streamingResponse seen) then
        {| isProcessing := isProcessing r; screenshots := screenshots r; error := error r;
           isRecording := isRecording r; isAudioProcessing := false;
           streamingResponse := streamingResponse r;
           showStreamingResponse := showStreamingResponse r;
           history := history r; currentItem := currentItem r |}
      else
        let historyItem :=
          {| item_id := now; type := audio; timestamp := now;
             result := Text (streamingResponse seen); item_screenshots := None |} in
        {| isProcessing := isProcessing r; screenshots := screenshots r; error := error r;
           isRecording := isRecording r; isAudioProcessing := false;
           streamingResponse := streamingResponse r;
           showStreamingResponse := false;
           history := historyItem :: history r; currentItem := Some historyItem |}
  | AudioProcessingError msg =>
      {| isProcessing := isProcessing r; screenshots := screenshots r; error := Some msg;
         isRecording := isRecording r; isAudioProcessing := false;
         streamingResponse := streamingResponse r;
         showStreamingResponse := showStreamingResponse r;
         history := history r; currentItem := currentItem r |}
  | AudioQueueReset =>
      {| isProcessing := isProcessing r; screenshots := screenshots r; error := error r;
         isRecording := isRecording r; isAudioProcessing := false;
         streamingResponse := ""; showStreamingResponse := false;
         history := history r; currentItem := currentItem r |}
  | ProcessingComplete payload =>
      let historyItem :=
        {| item_id := now; type := screenshot; timestamp := now;
           result := Structured payload;
           item_screenshots := Some (screenshots seen) |} in
      {| isProcessing := false; screenshots := screenshots r; error := error r;
         isRecording := isRecording r; isAudioProcessing := isAudioProcessing r;
         streamingResponse := streamingResponse r;
         showStreamingResponse := showStreamingResponse r;
         history := historyItem :: history r; currentItem := Some historyItem |}
  | ScreenshotTaken shot =>
      {| isProcessing := isProcessing r; screenshots := screenshots r ++ [shot];
         error := error r;
         isRecording := isRecording r; isAudioProcessing := isAudioProcessing r;
         streamingResponse := streamingResponse r;
         showStreamingResponse := showStreamingResponse r;
         history := history r; currentItem := currentItem r |}
  | QueueReset =>
      (* "Don't clear history/currentItem here - only clear screenshots" *)
      {| isProcessing := isProcessing r; screenshots := []; error := error r;
         isRecording := isRecording r; isAudioProcessing := isAudioProcessing r;
         streamingResponse := streamingResponse r;
         showStreamingResponse := showStreamingResponse r;
         history := history r; currentItem := currentItem r |}
  end.

Definition on_event : N -> event -> state -> state := listener first_render.

(** The messages among the effects of the main process, delivered in order. *)
Fixpoint deliver (now : N) (out : list effect) (r : state) : state :=
  match out with
  | [] => r
  | Send e :: rest => deliver now rest (on_event now e r)
  | _ :: rest => deliver now rest r
  end.

(** [handleReset] between its two IPC calls. *)
Definition reset_streaming (r : state) : state :=
  {| isProcessing := isProcessing r; screenshots := screenshots r; error := error r;
     isRecording := isRecording r; isAudioProcessing := false;
     streamingResponse := ""; showStreamingResponse := false;
     history := history r; currentItem := currentItem r |}.

(** [handleReset] after [resetAudioQueue] has returned. *)
Definition reset_history (r : state) : state :=
  {| isProcessing := false; screenshots := screenshots r; error := None;
     isRecording := false; isAudioProcessing := isAudioProcessing r;
     streamingResponse := streamingResponse r;
     showStreamingResponse := showStreamingResponse r;
     history := []; currentItem := None |}.

End Renderer.

(** ** The two ways a reset reaches the application

    [Ctrl+R] is registered as a global shortcut of the main process, which
    runs [handleResetQueue]; the renderer's own [handleReset] (its key
    listener) calls [resetQueue] and [resetAudioQueue] over IPC and then
    clears its history. *)

Module App.

Section WithHost.
Variable userData : string.
Variable temp : string.

(** The task ids [t, t+1, ...] answered with the outcomes [rs]. *)
Fixpoint unlink_replies (t : nat) (rs : list (completion unit)) : list Main.input :=
  match rs with
  | [] => []
  | r :: rest => Main.UnlinkSettled t r :: unlink_replies (S t) rest
  end.

(** [handleResetQueue] run to its end with nothing else arriving meanwhile. *)
Definition reset_queue (rs : list (completion unit)) (m : Main.state)
  : Main.state * list effect :=
  Main.run userData temp (Main.ResetQueue :: unlink_replies (Main.next_task m) rs) m.

(** The global shortcut: the main process resets, the renderer hears of it. *)
Definition shortcut_reset (now : N) (rs : list (completion unit))
    (sys : Main.state * Renderer.state) : Main.state * Renderer.state :=
  let '(m1, out) := reset_queue rs (fst sys) in
  (m1, Renderer.deliver now out (snd sys)).

(** The renderer's [handleReset]. *)
Definition handleReset (now : N) (rs : list (completion unit))
    (sys : Main.state * Renderer.state) : Main.state * Renderer.state :=
  let '(m1, out1) := reset_queue rs (fst sys) in
  let r1 := Renderer.reset_streaming (Renderer.deliver now out1 (snd sys)) in
  let '(m2, out2) := Main.run userData temp [Main.ResetAudioQueue] m1 in
  (m2, Renderer.reset_history (Renderer.deliver now out2 r1)).
End WithHost.

End App.

(** ** Capturing the screen *)

Module Capture.

(** [process.platform].  The [win32] branch of [captureScreenshot] (a
    PowerShell script) is not part of this model, which joins paths the POSIX
    way. *)
Inductive platform :=
| darwin
| linux
| unsupported (name : string).

Inductive effect :=
| ExecFile (cmd : string) (args : list string)
| ReadTmp (path : string)
| UnlinkTmp (path : string).

(** What the three awaits of one attempt settle with: the run of the tool,
    the read of the file it wrote (the buffer, in base64) and the deletion of
    that file. *)
Record attempt := {
  exec : completion unit;
  read : completion string;
  unlink : completion unit
}.

Definition grab (tmpPath cmd : string) (args : list string) (a : attempt)
  : M unit effect string :=
  emit (ExecFile cmd args);;
  await (exec a);;
  emit (ReadTmp tmpPath);;
  buffer ← await (read a);
  emit (UnlinkTmp tmpPath);;
  await (unlink a);;
  mret buffer.

Definition linux_tools (tmpPath : string) : list (string * list string) :=
  [("gnome-screenshot", ["-f"; tmpPath]);
   ("scrot", [tmpPath]);
   ("import", ["-window"; "root"; tmpPath]);
   ("maim", [tmpPath]);
   ("spectacle", ["-b"; "-n"; "-o"; tmpPath])].

Section WithHost.
(** [app.getPath('temp')], [Date.now()] at the call and the outcome of
    running each command. *)
Variable temp : string.
Variable now : N.
Variable host : string -> attempt.

Definition tmpPath : string :=
  path_join (Main.SCREENSHOT_DIR temp) (show now +:+ ".png").

(** The [for (const tool of tools)] loop: a tool that fails at any of its
    three steps is passed over. *)
Fixpoint try_tools (tools : list (string * list string)) : M unit effect string :=
  match tools with
  | [] =>
      throw (Error ("No screenshot tool available on Linux. Please install one of: "
                    +:+ "gnome-screenshot, scrot, imagemagick, maim, or spectacle"))
  | (cmd, args) :: rest =>
      try_catch (grab tmpPath cmd args (host cmd)) (fun _ => try_tools rest)
  end.

Definition captureScreenshot (p : platform) : M unit effect string :=
  match p with
  | darwin => grab tmpPath "screencapture" ["-x"; tmpPath] (host "screencapture")
  | linux => try_tools (linux_tools tmpPath)
  | unsupported name =>
      throw (Error ("Screenshot capture not supported on platform: " +:+ name))
  end.
End WithHost.

End Capture.

(** ** The requests of the two adapters *)

Module GeminiRequest.

(** The text of [s] up to its first comma. *)
Fixpoint upto_comma (s : string) : string :=
  match s with
  | EmptyString => EmptyString
  | String c r => if (c =? ",")%char then EmptyString else String c (upto_comma r)
  end.

(** [s.split(',')[1]]: what lies between the first comma of [s] and the
    next one; [undefined] ([None]) when [s] has no comma. *)
Fixpoint split_comma_1 (s : string) : option string :=
  match s with
  | EmptyString => None
  | String c r => if (c =? ",")%char then Some (upto_comma r) else split_comma_1 r
  end.

Record inlineData := { data : option string; mimeType : string }.

(** The image parts [processImages] makes of the previews it is given. *)
Definition imageParts (base64Images : list string) : list inlineData :=
  map (fun base64 => {| data := split_comma_1 base64; mimeType := "image/jpeg" |})
      base64Images.

End GeminiRequest.

Module OpenAIRequest.

Inductive message :=
| System (content : string)
| UserText (text : string)
| UserImage (url : string).

Inductive effect :=
| ReadImage (path : string)                   (* fs.readFile(path, { encoding: 'base64' }) *)
| CreateCompletion (messages : list message). (* openai.chat.completions.create *)

Section WithHost.
(** What reading the file at a path settles with, in base64, and the
    [SyntaxError] [JSON.parse] throws for a text. *)
Variable readFile : string -> completion string.
Variable syntax_error : string -> js_error.

(** The [for (const screenshot of screenshots)] loop over the screenshots the
    iteration yields (the array is the live queue: a screenshot pushed while
    the loop runs is among them). *)
Fixpoint add_images (yielded : list Screenshot) (messages : list message)
  : M unit effect (list message) :=
  match yielded with
  | [] => mret messages
  | screenshot :: rest =>
      emit (ReadImage (path screenshot));;
      base64Image ← await (readFile (path screenshot));
      add_images rest (messages ++ [UserImage ("data:image/png;base64," +:+ base64Image)])
  end.

(** [processScreenshots] as a whole; [prompt] is what [getPrompt] returns (a
    system and a user text) or throws, [reply] what the completion call
    settles with: the content of the message of the first choice. *)
Definition processScreenshots (client_ready : bool)
    (prompt : completion (string * string)) (yielded : list Screenshot)
    (reply : completion (option string)) : M unit effect json :=
  if negb client_ready then
    throw (Error ("OpenAI client not initialized. Please configure API key first. "
                  +:+ "Click CTRL/CMD + P to open settings and set the API key."))
  else
    try_catch
      (p ← await prompt;
       messages ← add_images yielded [System (fst p); UserText (snd p)];
       emit (CreateCompletion messages);;
       content ← await reply;
       match JSON_parse (or_else content "{}") with
       | Some v => mret v
       | None => throw (syntax_error (or_else content "{}"))
       end)
      (fun error => throw error).
End WithHost.

End OpenAIRequest.

(** ** [JSON.stringify] of a configuration

    [JSON.stringify(newConfig, null, 2)] is the built-in of the host language,
    modelled after its definition (QuoteJSONString and SerializeJSONObject of
    ECMA-262) for an object whose properties are strings. *)

Module Stringify.

Definition hex_digit (n : N) : ascii :=
  ascii_of_N (if (n <? 10)%N then 48 + n else 87 + n).

(** [\uXXXX], with lower-case digits. *)
Definition unicode_escape (u : N) : string :=
  String "\" (String "u"
    (String (hex_digit (u / 4096)) (String (hex_digit ((u / 256) mod 16))
      (String (hex_digit ((u / 16) mod 16)) (String (hex_digit (u mod 16)) ""))))).

(** The code unit of a lone surrogate, from the second and third of the three
    bytes it is written with (the first is [0xED]). *)
Definition surrogate_of (b1 b2 : ascii) : option N :=
  let n1 := N_of_ascii b1 in
  let n2 := N_of_ascii b2 in
  if (160 <=? n1)%N && (n1 <=? 191)%N && (128 <=? n2)%N && (n2 <=? 191)%N
  then Some (53248 + (n1 - 128) * 64 + (n2 - 128))%N
  else None.

(** One character of a quoted string: the two-character escapes for the
    characters that have one, [\u00XX] for the other control characters, and
    the character itself otherwise. *)
Definition quote_char (c : ascii) : string :=
  let n := N_of_ascii c in
  if (n =? 8)%N then "\b"
  else if (n =? 9)%N then "\t"
  else if (n =? 10)%N then "\n"
  else if (n =? 12)%N then "\f"
  else if (n =? 13)%N then "\r"
  else if (n =? 34)%N then String "\" (String c "")
  else if (n =? 92)%N then "\\"
  else if (n <? 32)%N then unicode_escape n
  else String c "".

(** The characters of a string between the quotation marks of its JSON text,
    on the UTF-8 bytes of the string: a lone surrogate is written as an
    escape. *)
Fixpoint quote_body (s : string) : string :=
  match s with
  | EmptyString => EmptyString
  | String c r =>
      match r with
      | String b1 (String b2 r') =>
          match (if (N_of_ascii c =? 237)%N then surrogate_of b1 b2 else None) with
          | Some u => unicode_escape u +:+ quote_body r'
          | None => quote_char c +:+ quote_body r
          end
      | _ => quote_char c +:+ quote_body r
      end
  end.

Definition quote (s : string) : string :=
  String dquote (quote_body s +:+ String dquote "").

Definition newline : string := byte 10.

(** A property and its value, and the properties of an object at the
    indentation of two spaces. *)
Definition member (kv : string * string) : string :=
  quote (fst kv) +:+ ": " +:+ quote (snd kv).

Fixpoint join_members (members : list (string * string)) : string :=
  match members with
  | [] => ""
  | [kv] => member kv
  | kv :: rest => member kv +:+ "," +:+ newline +:+ "  " +:+ join_members rest
  end.

(** [JSON.stringify(o, null, 2)] for an object [o] whose properties, in
    order, are the strings [members]. *)
Definition object (members : list (string * string)) : string :=
  match members with
  | [] => "{}"
  | _ => "{" +:+ newline +:+ "  " +:+ join_members members +:+ newline +:+ "}"
  end.

(** The properties of a configuration, in the order the configuration screen
    builds it. *)
Definition fields (c : Config) : list (string * string) :=
  [("provider", provider c); ("openaiApiKey", openaiApiKey c);
   ("geminiApiKey", geminiApiKey c); ("language", language c);
   ("model", model c); ("audioDeviceId", audioDeviceId c);
   ("interviewType", interviewType c)].

Definition stringify (c : Config) : string := object (fields c).

End Stringify.

(** ** The settings of an adapter *)

Module Service.

(** The module-level variables of an adapter: the SDK client, represented by
    the key it was built with, and the settings its prompts are made from. *)
Record t := {
  client : option string;
  language : string;
  model : string;
  interviewType : string
}.

Section WithHost.
Context {E : Type}.
(** [String.prototype.trim], and the constructor of the SDK client: [None]
    when it returns, the error when it throws. *)
Variable trim : string -> string.
Variable construct : string -> option js_error.

(** [updateConfig] of an adapter; [required] is the message for a missing
    key and [default_model] the model used when none is given. *)
Definition updateConfig (required default_model : string)
    (apiKey lang mdl itype : string) : M t E unit :=
  if (apiKey =? "")%string then throw (Error required)
  else
    try_catch
      (match construct (trim apiKey) with
       | Some e => throw e
       | None =>
           modify (fun _ =>
                     {| client := Some (trim apiKey);
                        language := or_else (Some lang) "Python";
                        model := or_else (Some mdl) default_model;
                        interviewType := or_else (Some itype) "algorithmic" |})
       end)
      (fun error => throw error).
End WithHost.

(** The Gemini adapter when its module has been loaded. *)
Definition gemini_initial : t :=
  {| client := None; language := "Python"; model := "gemini-2.5-flash";
     interviewType := "algorithmic" |}.

End Service.

(** ** Loading and saving the configuration *)

Module Settings.

(** The environment variables [loadConfig] reads. *)
Record env := {
  OPENAI_API_KEY : option string;
  GEMINI_API_KEY : option string;
  APP_LANGUAGE : option string;
  AI_MODEL : option string;
  AI_PROVIDER : option string;
  INTERVIEW_TYPE : option string
}.

Inductive effect :=
| ReadConfig (path : string)                   (* fs.readFile(CONFIG_FILE, 'utf-8') *)
| WriteConfig (path : string) (data : string). (* fs.writeFile(CONFIG_FILE, data) *)

(** The variables of the main process together with those of the two
    adapters. *)
Record state := {
  main : Main.state;
  openai : Service.t;
  gemini : Service.t
}.

Definition set_main (m : Main.state) (s : state) : state :=
  {| main := m; openai := openai s; gemini := gemini s |}.
Definition set_openai (o : Service.t) (s : state) : state :=
  {| main := main s; openai := o; gemini := gemini s |}.
Definition set_gemini (g : Service.t) (s : state) : state :=
  {| main := main s; openai := openai s; gemini := g |}.

(** [config = c] *)
Definition set_config (c : option Config) (m : Main.state) : Main.state :=
  {| Main.arrays := Main.arrays m; Main.screenshotQueue := Main.screenshotQueue m;
     Main.isProcessing := Main.isProcessing m; Main.config := c;
     Main.recorder := Main.recorder m; Main.tasks := Main.tasks m;
     Main.next_task := Main.next_task m |}.

(** [audioRecorderService.updateConfig(deviceId)] *)
Definition set_device (deviceId : string) (m : Main.state) : Main.state :=
  Main.set_recorder (Recorder.updateConfig deviceId (Main.recorder m)) m.

(** What [loadConfig] returns.  The parsed file is taken for a
    [Partial<Config>] by a cast: a file in which a field holds a truthy value
    that is not a string yields a value outside the [Config] type, which this
    model does not follow any further ([IllTyped]). *)
Inductive loaded :=
| NoConfig
| Loaded (c : Config)
| IllTyped.

(** A property of the parsed file as [loadConfig] uses it. *)
Inductive field :=
| Missing            (* falsy: undefined, null, false, 0, '' *)
| Text (s : string)  (* a string that is not empty *)
| NotText.           (* truthy and not a string *)

Definition field_of (v : json) (key : string) : field :=
  match get_prop v key with
  | Some (JStr s) => if (s =? "")%string then Missing else Text s
  | x => if truthy x then NotText else Missing
  end.

(** [field || d] *)
Definition or_default (f : field) (d : string) : option string :=
  match f with
  | Missing => Some d
  | Text s => Some s
  | NotText => None
  end.

(** An environment variable is set to something. *)
Definition given (x : option string) : bool := negb (or_else x "" =? "")%string.

Section WithHost.
(** [app.getPath('userData')], [String.prototype.trim], the constructors of
    the two SDK clients and the [SyntaxError] [JSON.parse] throws for a
    text. *)
Variable userData : string.
Variable trim : string -> string.
Variable new_OpenAI : string -> option js_error.
Variable new_GoogleGenAI : string -> option js_error.
Variable syntax_error : string -> js_error.

Definition CONFIG_FILE : string := path_join userData "config.json".

Definition openai_updateConfig (apiKey lang mdl itype : string) : M state effect unit :=
  zoom openai set_openai
    (Service.updateConfig trim new_OpenAI "OpenAI API key is required" "gpt-3.5-turbo"
       apiKey lang mdl itype).

Definition gemini_updateConfig (apiKey lang mdl itype : string) : M state effect unit :=
  zoom gemini set_gemini
    (Service.updateConfig trim new_GoogleGenAI "Google AI API key is required"
       "gemini-2.5-flash" apiKey lang mdl itype).

(** "Initialize the appropriate service": the same statement in both
    branches of [loadConfig] and in [saveConfig]. *)
Definition init_service (c : Config) : M state effect unit :=
  if (provider c =? "openai")%string && negb (openaiApiKey c =? "")%string then
    openai_updateConfig (openaiApiKey c) (language c) (model c) (interviewType c)
  else if (provider c =? "gemini")%string && negb (geminiApiKey c =? "")%string then
    gemini_updateConfig (geminiApiKey c) (language c) (model c) (interviewType c)
  else mret tt.

Definition env_config (e : env) : Config :=
  {| provider := or_else (AI_PROVIDER e) "";
     openaiApiKey := or_else (OPENAI_API_KEY e) "";
     geminiApiKey := or_else (GEMINI_API_KEY e) "";
     language := or_else (APP_LANGUAGE e) "";
     model := or_else (AI_MODEL e) "";
     audioDeviceId := "default";
     interviewType := or_else (INTERVIEW_TYPE e) "algorithmic" |}.

(** [(envOpenaiKey || envGeminiKey) && envLanguage && envModel && envProvider] *)
Definition env_complete (e : env) : bool :=
  (given (OPENAI_API_KEY e) || given (GEMINI_API_KEY e))
  && given (APP_LANGUAGE e) && given (AI_MODEL e) && given (AI_PROVIDER e).

(** The configuration made of the parsed file, when it has the three
    required fields. *)
Definition file_config (v : json) : loaded :=
  match v with
  | JNull => NoConfig
  | _ =>
      match field_of v "provider", field_of v "language", field_of v "model" with
      | Missing, _, _ | _, Missing, _ | _, _, Missing => NoConfig
      | Text p, Text l, Text m =>
          match or_default (field_of v "openaiApiKey") "",
                or_default (field_of v "geminiApiKey") "",
                or_default (field_of v "audioDeviceId") "default",
                or_default (field_of v "interviewType") "algorithmic" with
          | Some okey, Some gkey, Some device, Some itype =>
              Loaded {| provider := p; openaiApiKey := okey; geminiApiKey := gkey;
                        language := l; model := m; audioDeviceId := device;
                        interviewType := itype |}
          | _, _, _, _ => IllTyped
          end
      | _, _, _ => IllTyped
      end
  end.

(** [file] is what [fs.readFile(CONFIG_FILE, 'utf-8')] settles with. *)
Definition loadConfig (e : env) (file : completion string) : M state effect loaded :=
  try_catch
    (if env_complete e then
       init_service (env_config e);;
       mret (Loaded (env_config e))
     else
       emit (ReadConfig CONFIG_FILE);;
       data ← await file;
       match JSON_parse data with
       | None => throw (syntax_error data)
       | Some v =>
           match file_config v with
           | Loaded c =>
               init_service c;;
               modify (fun s => set_main (set_device (audioDeviceId c) (main s)) s);;
               mret (Loaded c)
           | other => mret other
           end
       end)
    (fun _ => mret NoConfig).

(** [written] is what [fs.writeFile] settles with. *)
Definition saveConfig (newConfig : Config) (written : completion unit)
  : M state effect unit :=
  try_catch
    (if (provider newConfig =? "")%string || (language newConfig =? "")%string
        || (model newConfig =? "")%string then
       throw (Error "Invalid configuration - missing required fields")
     else if (provider newConfig =? "openai")%string
             && (openaiApiKey newConfig =? "")%string then
       throw (Error "OpenAI API key is required when using OpenAI provider")
     else if (provider newConfig =? "gemini")%string
             && (geminiApiKey newConfig =? "")%string then
       throw (Error "Gemini API key is required when using Gemini provider")
     else
       emit (WriteConfig CONFIG_FILE (Stringify.stringify newConfig));;
       await written;;
       modify (fun s => set_main (set_config (Some newConfig) (main s)) s);;
       init_service newConfig;;
       modify (fun s => set_main (set_device (audioDeviceId newConfig) (main s)) s))
    (fun error => throw error).

(** The handler of the [save-config] call. *)
Definition save_config (newConfig : Config) (written : completion unit)
  : M state effect bool :=
  try_catch (saveConfig newConfig written;; mret true) (fun _ => mret false).
End WithHost.

End Settings.

#[global] Instance task_eq_dec : EqDecision Main.task.
Proof. solve_decision. Defined.

(** ** Concrete inputs used in the statements below *)

(** The provider text of the specification's example (written with ['] for
    its quotation marks, like the other texts below). *)
Definition sample_text : string :=
  quoted "Sure! {'approach':'x','code':'y','timeComplexity':'O(1)','spaceComplexity':'O(1)'} Hope that helps!".

Definition sample_solution : json :=
  JObj [("approach", JStr "x"); ("code", JStr "y");
        ("timeComplexity", JStr "O(1)"); ("spaceComplexity", JStr "O(1)")].

(** A valid solution followed by another pair of braces. *)
Definition two_spans_text : string :=
  quoted "{'approach':'x','code':'y','timeComplexity':'O(1)','spaceComplexity':'O(1)'} {}".

Definition gemini_config : Config :=
  {| provider := "gemini"; openaiApiKey := ""; geminiApiKey := "key";
     language := "Python"; model := "gemini-2.5-flash"; audioDeviceId := "default";
     interviewType := "algorithmic" |}.

(** A capture that succeeds at time [now]. *)
Definition shot_at (now : N) : Main.capture := Main.Captured "QUJD" now (Normal tt).

(** The main process with a Gemini configuration and nothing captured yet. *)
Definition ready : Main.state := Main.initial (Some gemini_config).

(** Five take-screenshot intents arrive before the first capture is done. *)
Definition five_overlapping_takes : list Main.input :=
  [Main.TakeScreenshot; Main.TakeScreenshot; Main.TakeScreenshot;
   Main.TakeScreenshot; Main.TakeScreenshot;
   Main.CaptureSettled 0 (shot_at 1); Main.CaptureSettled 1 (shot_at 2);
   Main.CaptureSettled 2 (shot_at 3); Main.CaptureSettled 3 (shot_at 4);
   Main.CaptureSettled 4 (shot_at 5)].

(** A job is started (task 1), a reset arrives while its call is in flight,
    then a new screenshot is taken and processed (task 4). *)
Definition reset_then_process_again : list Main.input :=
  [Main.TakeScreenshot; Main.CaptureSettled 0 (shot_at 1);
   Main.ProcessScreenshots;
   Main.ResetQueue; Main.UnlinkSettled 2 (Normal tt);
   Main.TakeScreenshot; Main.CaptureSettled 3 (shot_at 2);
   Main.ProcessScreenshots].

Definition stale_result : json := JStr "answer to the first question".
Definition fresh_result : json := JStr "answer to the second question".

Definition one_shot : Screenshot :=
  {| id := 1; preview := "data:image/png;base64,QUJD"; path := "/tmp/screenshots/1.png" |}.

Definition old_item : Renderer.HistoryItem :=
  {| Renderer.item_id := 7; Renderer.type := Renderer.screenshot;
     Renderer.timestamp := 7; Renderer.result := Renderer.Structured sample_solution;
     Renderer.item_screenshots := Some [] |}.

(** A renderer that shows one earlier result. *)
Definition with_history : Renderer.state :=
  {| Renderer.isProcessing := false; Renderer.screenshots := []; Renderer.error := None;
     Renderer.isRecording := false; Renderer.isAudioProcessing := false;
     Renderer.streamingResponse := ""; Renderer.showStreamingResponse := false;
     Renderer.history := [old_item]; Renderer.currentItem := Some old_item |}.

(** A host with [sox] installed whose recording left no file behind; the
    tool is still running when it is stopped. *)
Definition silent_host : Main.recording_host :=
  {| Main.available := fun cmd => (cmd =? "sox")%string;
     Main.closes := true;
     Main.stat := Normal 0%N;
     Main.read := Normal "";
     Main.gemini_ready := true;
     Main.stream := AudioStream.Stream [] (Normal tt);
     Main.fallback := Normal None |}.

(** The same host when the tool has exited before it is stopped. *)
Definition exited_host : Main.recording_host :=
  {| Main.available := fun cmd => (cmd =? "sox")%string;
     Main.closes := false;
     Main.stat := Normal 0%N;
     Main.read := Normal "";
     Main.gemini_ready := true;
     Main.stream := AudioStream.Stream [] (Normal tt);
     Main.fallback := Normal None |}.

(** The recorder after a successful [startRecording] from its initial state. *)
Definition recording : Recorder.t :=
  {| Recorder.isRecording := true; Recorder.recordingProcess := Some "sox";
     Recorder.outputPath := "/u/recordings/question-1.wav";
     Recorder.questionCounter := 1; Recorder.deviceId := "default" |}.

(** A configuration that names a provider the main process has no adapter
    for. *)
Definition claude_config : Config :=
  {| provider := "claude"; openaiApiKey := ""; geminiApiKey := "";
     language := "Python"; model := "claude-3"; audioDeviceId := "default";
     interviewType := "algorithmic" |}.

(** A configuration file edited by hand: Gemini is chosen and no key is
    given. *)
Definition keyless_config : Config :=
  {| provider := "gemini"; openaiApiKey := ""; geminiApiKey := "";
     language := "Python"; model := "gemini-2.5-flash"; audioDeviceId := "";
     interviewType := "" |}.

(** SDK constructors that accept every key, and a [trim] that finds nothing
    to remove. *)
Definition accepting : string -> option js_error := fun _ => None.
Definition untrimmed : string -> string := fun key => key.

(** The main process and the two adapters before any configuration. *)
Definition unconfigured : Settings.state :=
  {| Settings.main := Main.initial None;
     Settings.openai :=
       {| Service.client := None; Service.language := "Python";
          Service.model := "gpt-3.5-turbo"; Service.interviewType := "algorithmic" |};
     Settings.gemini := Service.gemini_initial |}.

(** A host on which a recorded question is answered in three chunks. *)
Definition answering_host : Main.recording_host :=
  {| Main.available := fun cmd => (cmd =? "sox")%string;
     Main.closes := true;
     Main.stat := Normal 2048%N;
     Main.read := Normal "UklGRg==";
     Main.gemini_ready := true;
     Main.stream := AudioStream.Stream [Some "Hello "; None; Some "world"] (Normal tt);
     Main.fallback := Normal None |}.


(** A [JSON.parse] whose [SyntaxError] carries the text it was given. *)
Definition reporting_text : string -> js_error :=
  fun text => Error ("Unexpected token in JSON: " +:+ text).

(** An environment that configures the program by itself. *)
Definition gemini_env : Settings.env :=
  {| Settings.OPENAI_API_KEY := None; Settings.GEMINI_API_KEY := Some "AIza-env";
     Settings.APP_LANGUAGE := Some "Go"; Settings.AI_MODEL := Some "gemini-2.5-pro";
     Settings.AI_PROVIDER := Some "gemini"; Settings.INTERVIEW_TYPE := None |}.

(** ** Vocabulary of the statements *)

(** What [stopRecording] does once it is past its guard, for each outcome of
    the check of the output file. *)
Definition stop_error (stat : completion N) : option js_error :=
  match stat with
  | Normal size =>
      if (size =? 0)%N then Some (Error "Recording file is empty") else None
  | Thrown e => Some e
  end.

Definition stop_failure_message (inner : js_error) : string :=
  "Failed to stop recording: "
  +:+ error_to_string
        (Error ("Recording file was not created properly: " +:+ error_to_string inner)).

Definition kill_effects (r : Recorder.t) : list effect :=
  match Recorder.recordingProcess r with
  | Some _ => [Kill]
  | None => []
  end.

(** The stop gets past its wait for the child: there is no child to wait
    for, or the child closes after the signal. *)
Definition child_closes (closes : bool) (r : Recorder.t) : bool :=
  match Recorder.recordingProcess r with
  | Some _ => closes
  | None => true
  end.

(** The adapter call a process-queue intent makes for a supported provider. *)
Definition provider_call (cfg : Config) (q : list Screenshot) : effect :=
  if (provider cfg =? "openai")%string then CallOpenAI q
  else CallGemini (map preview q).

Definition supported (cfg : Config) : bool :=
  (provider cfg =? "openai")%string || (provider cfg =? "gemini")%string.

(** An input that is neither a reset intent nor the settling of job [t]. *)
Definition leaves_job_alone (t : nat) (i : Main.input) : bool :=
  match i with
  | Main.ResetQueue => false
  | Main.ProviderSettled t' _ => negb (t' =? t)%nat
  | _ => true
  end.

(** Take-screenshot intents handled one after the other: each capture
    settles before the next intent arrives. *)
Fixpoint take_each (userData temp : string) (cs : list Main.capture) (s : Main.state)
  : Main.state :=
  match cs with
  | [] => s
  | c :: rest =>
      take_each userData temp rest
        (fst (Main.run userData temp
                [Main.TakeScreenshot; Main.CaptureSettled (Main.next_task s) c] s))
  end.

(** The history entry the renderer makes of a [processing-complete] message. *)
Definition history_item (now : N) (payload : json) : Renderer.HistoryItem :=
  {| Renderer.item_id := now; Renderer.type := Renderer.screenshot;
     Renderer.timestamp := now; Renderer.result := Renderer.Structured payload;
     Renderer.item_screenshots := Some [] |}.

(** The state in which a job has just been started as task [next_task s]. *)
Definition job_started (s : Main.state) : Main.state :=
  Main.set_next_task (S (Main.next_task s))
    (Main.set_tasks (<[Main.next_task s := Main.ProcessTask]> (Main.tasks s))
       (Main.set_isProcessing true s)).

(** A handler body relates the state it starts in to the state it ends in. *)
Definition respects {S E A : Type} (R : S -> S -> Prop) (m : M S E A) : Prop :=
  forall s, R s (snd (fst (m s))).

(** From [s] to [s'] the single-flight flag is untouched, no job has been
    started and no job that was in flight has been resumed. *)
Definition keeps_jobs (s s' : Main.state) : Prop :=
  Main.isProcessing s' = Main.isProcessing s
  /\ Main.next_task s <= Main.next_task s'
  /\ (forall t, Main.tasks s' !! t = Some Main.ProcessTask ->
                Main.tasks s !! t = Some Main.ProcessTask)
  /\ (forall t, t < Main.next_task s ->
                Main.tasks s !! t = Some Main.ProcessTask ->
                Main.tasks s' !! t = Some Main.ProcessTask).

(** Job [t] is the one process-queue job in flight and the flag is set. *)
Definition job_in_flight (t : nat) (s : Main.state) : Prop :=
  Main.tasks s !! t = Some Main.ProcessTask
  /\ Main.isProcessing s = true
  /\ t < Main.next_task s
  /\ (forall t', Main.tasks s !! t' = Some Main.ProcessTask -> t' = t).

(** The deletions a reset attempts for the screenshots [q]. *)
Definition deletions (q : list Screenshot) : list effect :=
  map (fun shot => Unlink (path shot)) q.

(** What a reset tells the renderer about a job it cancels. *)
Definition cancel_notice (s : Main.state) : list effect :=
  if Main.isProcessing s then [Send (ProcessingComplete Main.cancelled_payload)] else [].

(** Every effect of a handler body satisfies [P]. *)
Definition emits {S E A : Type} (P : E -> Prop) (m : M S E A) : Prop :=
  forall s, Forall P (snd (m s)).

(** What the recorder and the audio pipeline do. *)
Definition recording_effect (e : effect) : Prop :=
  match e with
  | Send (RecordingToggled _ _) | Send (RecordingError _) | Send AudioProcessingStarted
  | Send (AudioStreamChunk _) | Send AudioProcessingComplete
  | Send (AudioProcessingError _) => True
  | Spawn _ _ | Kill | ReadFile _ | SdkStream _ | SdkFallback _ => True
  | _ => False
  end.

Definition not_processing_complete (e : effect) : Prop :=
  match e with
  | Send (ProcessingComplete _) => False
  | _ => True
  end.

Definition not_queue_reset (e : effect) : Prop :=
  match e with
  | Send QueueReset => False
  | _ => True
  end.

(** *** The recorder *)

(** One question recorded: [startRecording], then [stopRecording] on a
    child that closes after the signal or not ([fst stop]) and with a file of
    [snd stop] bytes found. *)
Definition record_question (userData : string) (available : string -> bool)
    (stop : bool * N) : M Recorder.t effect (promised string) :=
  Recorder.startRecording userData available;;
  Recorder.stopRecording (fst stop) (Normal (snd stop)).

(** Questions recorded one after the other: what each [stopRecording] came
    to, and the recorder at the end. *)
Fixpoint record_questions (userData : string) (available : string -> bool)
    (stops : list (bool * N)) (r : Recorder.t)
  : list (completion (promised string)) * Recorder.t :=
  match stops with
  | [] => ([], r)
  | stop :: rest =>
      let '(c, r1, _) := record_question userData available stop r in
      let '(cs, r2) := record_questions userData available rest r1 in
      (c :: cs, r2)
  end.

(** A stop that gets past its two awaits: the child closes after the signal
    and the file has content. *)
Definition completes (stop : bool * N) : Prop := fst stop = true /\ snd stop <> 0%N.

(** *** The audio pipeline *)

(** The error [processAudioStream] throws for a failure [e] inside its [try]
    block. *)
Definition audio_failure (e : js_error) : js_error :=
  if instance_of_Error e
  then Error ("Gemini audio processing failed: " +:+ default "" (message e))
  else Error "Unknown error occurred during Gemini audio processing".

(** The messages that end an audio job, and what goes on during one. *)
Definition audio_terminal (e : effect) : Prop :=
  match e with
  | Send AudioProcessingComplete | Send (AudioProcessingError _) => True
  | _ => False
  end.

Definition audio_traffic (e : effect) : Prop :=
  match e with
  | SdkStream _ | SdkFallback _ | Send (AudioStreamChunk _) => True
  | _ => False
  end.

(** The callback [handleProcessAudio] hands to the adapter. *)
Definition send_chunk (chunk : string) : list effect := [Send (AudioStreamChunk chunk)].

(** Texts appended one after the other. *)
Definition joined (texts : list string) : string := foldr String.app "" texts.

(** *** The renderer *)

(** The payloads of the [processing-complete] messages among [out]. *)
Definition completions (out : list effect) : list json :=
  omap (fun e => match e with Send (ProcessingComplete p) => Some p | _ => None end) out.

(** The renderer state [r] goes with the main-process state [s]: its preview
    list is the queue (and [screenshotQueue] refers to an array that
    exists). *)
Definition shows_queue (s : Main.state) (r : Renderer.state) : Prop :=
  Main.screenshotQueue s < length (Main.arrays s)
  /\ Renderer.screenshots r = Main.queue s.

(** Effects that do not reach the preview list. *)
Definition preview_neutral (e : effect) : Prop :=
  match e with
  | Send (ScreenshotTaken _) | Send QueueReset => False
  | _ => True
  end.

(** From [s] to [s'] no array has changed and [screenshotQueue] refers to the
    same one. *)
Definition same_queue (s s' : Main.state) : Prop :=
  Main.arrays s' = Main.arrays s /\ Main.screenshotQueue s' = Main.screenshotQueue s.

(** *** Jobs and captures in flight *)

(** While the flag is set, the adapter call of some job is pending. *)
Definition flag_has_job (s : Main.state) : Prop :=
  Main.isProcessing s = true ->
  exists t, t < Main.next_task s /\ Main.tasks s !! t = Some Main.ProcessTask.

(** An adapter call is made with at least one screenshot. *)
Definition call_has_screenshots (e : effect) : Prop :=
  match e with
  | CallOpenAI q => q <> []
  | CallGemini images => images <> []
  | _ => True
  end.

(** The captures that have been started and have not settled yet. *)
Definition pending_captures (s : Main.state) : nat :=
  size (filter (fun kv => kv.2 = Main.TakeTask) (Main.tasks s)).

Definition is_hide (e : effect) : bool :=
  match e with HideWindow => true | _ => false end.
Definition is_show (e : effect) : bool :=
  match e with ShowWindow => true | _ => false end.

(** How many of the effects [out] are of the kind [f]. *)
Definition count_effects (f : effect -> bool) (out : list effect) : nat :=
  length (List.filter f out).

(** Task ids are handed out in increasing order. *)
Definition fresh_ids (s : Main.state) : Prop :=
  forall t k, Main.tasks s !! t = Some k -> t < Main.next_task s.

(** What a step from [s] to [s'] with the effects [out] does to the window,
    set against the captures pending before and after it. *)
Definition window_balance (s : Main.state) (out : list effect) (s' : Main.state) : Prop :=
  fresh_ids s ->
  fresh_ids s'
  /\ count_effects is_hide out + pending_captures s
     = count_effects is_show out + pending_captures s'.

Definition window_neutral (e : effect) : Prop :=
  match e with
  | HideWindow | ShowWindow => False
  | _ => True
  end.

(** From [s] to [s'] the pending captures are as many and ids stay fresh. *)
Definition same_captures (s s' : Main.state) : Prop :=
  fresh_ids s -> fresh_ids s' /\ pending_captures s' = pending_captures s.

(** *** Capturing the screen *)

(** The image of an attempt whose three steps all succeed. *)
Definition grabbed (a : Capture.attempt) : option string :=
  match Capture.exec a, Capture.read a, Capture.unlink a with
  | Normal _, Normal buffer, Normal _ => Some buffer
  | _, _, _ => None
  end.

(** The commands among the effects of a capture, in the order they ran. *)
Definition commands_run (out : list Capture.effect) : list string :=
  omap (fun e => match e with Capture.ExecFile cmd _ => Some cmd | _ => None end) out.

(** The tools of [tools] up to and including the first one that works. *)
Fixpoint tools_tried (host : string -> Capture.attempt) (tools : list string)
  : list string :=
  match tools with
  | [] => []
  | cmd :: rest =>
      cmd :: match grabbed (host cmd) with
             | Some _ => []
             | None => tools_tried host rest
             end
  end.

(** The image of the first tool of [tools] that works. *)
Fixpoint first_grab (host : string -> Capture.attempt) (tools : list string)
  : option string :=
  match tools with
  | [] => None
  | cmd :: rest =>
      match grabbed (host cmd) with
      | Some buffer => Some buffer
      | None => first_grab host rest
      end
  end.

Definition linux_tool_names : list string :=
  ["gnome-screenshot"; "scrot"; "import"; "maim"; "spectacle"].

(** *** The request of the OpenAI adapter *)

(** The screenshots of [shots] up to and including the first whose file
    cannot be read. *)
Fixpoint read_until_failure (readFile : string -> completion string)
    (shots : list Screenshot) : list Screenshot :=
  match shots with
  | [] => []
  | shot :: rest =>
      shot :: match readFile (path shot) with
              | Normal _ => read_until_failure readFile rest
              | Thrown _ => []
              end
  end.

(** The error of the first read that fails. *)
Fixpoint first_read_error (readFile : string -> completion string)
    (shots : list Screenshot) : option js_error :=
  match shots with
  | [] => None
  | shot :: rest =>
      match readFile (path shot) with
      | Normal _ => first_read_error readFile rest
      | Thrown e => Some e
      end
  end.

(** The image message made of a screenshot file. *)
Definition image_message (readFile : string -> completion string) (shot : Screenshot)
  : OpenAIRequest.message :=
  OpenAIRequest.UserImage
    ("data:image/png;base64,"
     +:+ match readFile (path shot) with Normal b => b | Thrown _ => "" end).

(** *** The configuration *)

(** No lone surrogate among the characters of [s]: the string is well-formed
    Unicode. *)
Fixpoint no_lone_surrogate (s : string) : bool :=
  match s with
  | EmptyString => true
  | String c r =>
      match r with
      | String b1 (String b2 _) =>
          negb ((N_of_ascii c =? 237)%N
                && bool_decide (is_Some (Stringify.surrogate_of b1 b2)))
      | _ => true
      end && no_lone_surrogate r
  end.

(** What the parser reads back from a quoted character. *)
Definition unit_of (c : ascii) : unit16 :=
  let n := N_of_ascii c in
  if (n <? 32)%N && negb ((n =? 8) || (n =? 9) || (n =? 10) || (n =? 12) || (n =? 13))%N
  then Esc n else Raw c.

Definition units_of (s : string) : list unit16 := map unit_of (list_ascii_of_string s).

(** The value a flat object of strings parses to. *)
Definition object_value (members : list (string * string)) : json :=
  JObj (map (fun kv => (fst kv, JStr (snd kv))) members).

(** What [saveConfig] checks before it writes. *)
Definition valid_config (c : Config) : bool :=
  negb ((provider c =? "")%string || (language c =? "")%string || (model c =? "")%string)
  && negb ((provider c =? "openai")%string && (openaiApiKey c =? "")%string)
  && negb ((provider c =? "gemini")%string && (geminiApiKey c =? "")%string).

(** The configuration with the defaults [loadConfig] fills in. *)
Definition with_defaults (c : Config) : Config :=
  {| provider := provider c; openaiApiKey := openaiApiKey c;
     geminiApiKey := geminiApiKey c; language := language c; model := model c;
     audioDeviceId := or_else (Some (audioDeviceId c)) "default";
     interviewType := or_else (Some (interviewType c)) "algorithmic" |}.

(** The values of a configuration are well-formed strings. *)
Definition config_well_formed (c : Config) : Prop :=
  Forall (fun kv => no_lone_surrogate (snd kv) = true) (Stringify.fields c).

(** The constructors of the SDK clients return for the keys of [c]. *)
Definition client_accepted (trim : string -> string)
    (new_OpenAI new_GoogleGenAI : string -> option js_error) (c : Config) : Prop :=
  new_OpenAI (trim (openaiApiKey c)) = None
  /\ new_GoogleGenAI (trim (geminiApiKey c)) = None.

(** No configuration in the environment. *)
Definition no_env : Settings.env :=
  {| Settings.OPENAI_API_KEY := None; Settings.GEMINI_API_KEY := None;
     Settings.APP_LANGUAGE := None; Settings.AI_MODEL := None;
     Settings.AI_PROVIDER := None; Settings.INTERVIEW_TYPE := None |}.

(** * Properties *)

(** ** The JSON parser terminates by itself *)

Lemma skip_ws_length (s : string) : String.length (skip_ws s) <= String.length s.
Proof.
  induction s as [|c s IH]; cbn; [lia|]. destruct (is_ws c); cbn; lia.
Qed.

Lemma starts_length (c : ascii) (s r : string) :
  starts c s = Some r -> String.length s = S (String.length r).
Proof.
  destruct s as [|a s]; cbn; [discriminate|].
  destruct (Ascii.eqb a c); [|discriminate]. now intros [= ->].
Qed.

Lemma strip_prefix_length (p s r : string) :
  strip_prefix p s = Some r -> String.length s = String.length p + String.length r.
Proof.
  revert s. induction p as [|a p IH]; intros s; cbn.
  - now intros [= ->].
  - destruct s as [|b s]; [discriminate|]. destruct (Ascii.eqb a b); [|discriminate].
    intros H. apply IH in H. cbn. lia.
Qed.

Lemma parse_string_body_length (s : string) (us : list unit16) (r : string) :
  parse_string_body s = Some (us, r) -> String.length r < String.length s.
Proof.
  remember (String.length s) as n eqn:Hn. revert s us r Hn.
  induction n as [n IH] using lt_wf_ind. intros s us r Hn.
  assert (forall x s' us' r', String.length s' < n ->
            cons_unit x (parse_string_body s') = Some (us', r') ->
            String.length r' < String.length s')
    as IH'.
  { intros x s' us' r' Hlt H. destruct (parse_string_body s') as [[xs r0]|] eqn:Hs';
      [|discriminate]. injection H as _ <-. eapply IH; eauto. }
  clear IH. destruct s as [|c s]; cbn [parse_string_body]; [discriminate|].
  cbn [String.length] in Hn.
  destruct (Ascii.eqb c dquote). { intros [= _ ->]. cbn. lia. }
  destruct (Ascii.eqb c "\").
  - destruct s as [|e r1]; [discriminate|]. cbn [String.length] in *.
    destruct (Ascii.eqb e "u").
    + destruct r1 as [|a [|b [|c' [|d r2]]]]; try discriminate. cbn [String.length] in *.
      destruct (hex4 a b c' d) as [u|]; [|discriminate].
      intros H. apply IH' in H; lia.
    + destruct (simple_escape e); [|discriminate].
      intros H. apply IH' in H; lia.
  - destruct (N.ltb _ _); [discriminate|].
    intros H. apply IH' in H; cbn; lia.
Qed.

Lemma parse_string_length (s t r : string) :
  parse_string s = Some (t, r) -> String.length r < String.length s.
Proof.
  unfold parse_string. destruct (parse_string_body s) as [[us r0]|] eqn:H; [|discriminate].
  intros [= _ <-]. eapply parse_string_body_length; eauto.
Qed.

Lemma parse_digits_length (s : string) :
  forall acc k v k' r,
    parse_digits acc k s = (v, k', r) ->
    String.length r + k' = String.length s + k.
Proof.
  induction s as [|c s IH]; intros acc k v k' r; cbn.
  - intros [= <- <- <-]. reflexivity.
  - destruct (digit_val c).
    + intros H. apply IH in H. lia.
    + intros [= <- <- <-]. reflexivity.
Qed.

Lemma parse_int_part_length (s : string) (i : N) (r : string) :
  parse_int_part s = Some (i, r) -> String.length r < String.length s.
Proof.
  unfold parse_int_part. destruct (starts "0" s) as [r0|] eqn:H0.
  - intros [= _ <-]. apply starts_length in H0. lia.
  - destruct (parse_digits 0 0 s) as [[v k] r0] eqn:Hd. apply parse_digits_length in Hd.
    destruct k; [discriminate|]. intros [= _ <-]. lia.
Qed.

Lemma parse_frac_part_length (i : N) (s : string) (m : N) (k : nat) (r : string) :
  parse_frac_part i s = Some (m, k, r) -> String.length r <= String.length s.
Proof.
  unfold parse_frac_part. destruct (starts "." s) as [r0|] eqn:Hdot.
  - destruct (parse_digits i 0 r0) as [[v k0] r'] eqn:Hd. apply parse_digits_length in Hd.
    apply starts_length in Hdot. destruct k0; [discriminate|]. intros [= _ _ <-]. lia.
  - intros [= _ _ <-]. lia.
Qed.

Lemma parse_exp_part_length (s : string) (e : Z) (r : string) :
  parse_exp_part s = Some (e, r) -> String.length r <= String.length s.
Proof.
  unfold parse_exp_part.
  assert (forall r0, String.length r0 < String.length s ->
            (let '(sign, r1) :=
               match starts "+" r0, starts "-" r0 with
               | Some r1, _ => (1%Z, r1)
               | None, Some r1 => ((-1)%Z, r1)
               | None, None => (1%Z, r0)
               end in
             let '(v, k0, r2) := parse_digits 0 0 r1 in
             match k0 with O => None | S _ => Some ((sign * Z.of_N v)%Z, r2) end)
            = Some (e, r) -> String.length r <= String.length s) as Hrest.
  { intros r0 Hr0.
    destruct (starts "+" r0) as [r1|] eqn:Hp; [|destruct (starts "-" r0) as [r1|] eqn:Hm].
    - apply starts_length in Hp.
      destruct (parse_digits 0 0 r1) as [[v k0] r2] eqn:Hd. apply parse_digits_length in Hd.
      destruct k0; [discriminate|]. intros [= _ <-]. lia.
    - apply starts_length in Hm.
      destruct (parse_digits 0 0 r1) as [[v k0] r2] eqn:Hd. apply parse_digits_length in Hd.
      destruct k0; [discriminate|]. intros [= _ <-]. lia.
    - destruct (parse_digits 0 0 r0) as [[v k0] r2] eqn:Hd. apply parse_digits_length in Hd.
      destruct k0; [discriminate|]. intros [= _ <-]. lia. }
  destruct (starts "e" s) as [r0|] eqn:He.
  - apply Hrest. apply starts_length in He. lia.
  - destruct (starts "E" s) as [r0|] eqn:HE.
    + apply Hrest. apply starts_length in HE. lia.
    + intros [= _ <-]. lia.
Qed.

Lemma parse_number_length (s : string) (n : number) (r : string) :
  parse_number s = Some (n, r) -> String.length r < String.length s.
Proof.
  unfold parse_number.
  destruct (starts "-" s) as [r0|] eqn:Hm.
  - apply starts_length in Hm.
    destruct (parse_int_part r0) as [[i s2]|] eqn:Hi; [|discriminate].
    apply parse_int_part_length in Hi.
    destruct (parse_frac_part i s2) as [[[m k] s3]|] eqn:Hf; [|discriminate].
    apply parse_frac_part_length in Hf.
    destruct (parse_exp_part s3) as [[e s4]|] eqn:He; [|discriminate].
    apply parse_exp_part_length in He. intros [= _ <-]. lia.
  - destruct (parse_int_part s) as [[i s2]|] eqn:Hi; [|discriminate].
    apply parse_int_part_length in Hi.
    destruct (parse_frac_part i s2) as [[[m k] s3]|] eqn:Hf; [|discriminate].
    apply parse_frac_part_length in Hf.
    destruct (parse_exp_part s3) as [[e s4]|] eqn:He; [|discriminate].
    apply parse_exp_part_length in He. intros [= _ <-]. lia.
Qed.

Lemma parse_scalar_length (s : string) (v : json) (r : string) :
  parse_scalar s = Parsed v r -> String.length r < String.length s.
Proof.
  unfold parse_scalar. destruct (starts dquote s) as [r0|] eqn:Hq.
  - apply starts_length in Hq.
    destruct (parse_string r0) as [[t r1]|] eqn:Hs; [|discriminate].
    apply parse_string_length in Hs. cbn. intros [= _ <-]. lia.
  - destruct (strip_prefix "true" s) as [r0|] eqn:Ht.
    { apply strip_prefix_length in Ht. intros [= _ <-]. cbn in Ht. lia. }
    destruct (strip_prefix "false" s) as [r0|] eqn:Hf.
    { apply strip_prefix_length in Hf. intros [= _ <-]. cbn in Hf. lia. }
    destruct (strip_prefix "null" s) as [r0|] eqn:Hn.
    { apply strip_prefix_length in Hn. intros [= _ <-]. cbn in Hn. lia. }
    destruct (parse_number s) as [[n r0]|] eqn:Hnum; [|discriminate].
    apply parse_number_length in Hnum. cbn. now intros [= _ <-].
Qed.

Lemma parse_scalar_fuel (s : string) : parse_scalar s <> OutOfFuel.
Proof.
  unfold parse_scalar. destruct (starts dquote s).
  - destruct (parse_string s0) as [[t r]|]; discriminate.
  - destruct (strip_prefix "true" s); [discriminate|].
    destruct (strip_prefix "false" s); [discriminate|].
    destruct (strip_prefix "null" s); [discriminate|].
    destruct (parse_number s) as [[n r]|]; discriminate.
Qed.

Lemma parsed_map_Parsed {A B} (f : A -> B) (p : parsed A) (v : B) (r : string) :
  parsed_map f p = Parsed v r -> exists a, p = Parsed a r.
Proof. destruct p; cbn; [|discriminate..]. intros [= _ <-]. eauto. Qed.

Lemma parsed_map_fuel {A B} (f : A -> B) (p : parsed A) :
  p <> OutOfFuel -> parsed_map f p <> OutOfFuel.
Proof. destruct p; cbn; congruence. Qed.

(** Every successful parse consumes at least one character. *)
Lemma parse_progress (fuel : nat) :
  (forall s v r, parse_value fuel s = Parsed v r -> String.length r < String.length s)
  /\ (forall s v r, parse_elements fuel s = Parsed v r -> String.length r < String.length s)
  /\ (forall s v r, parse_members fuel s = Parsed v r -> String.length r < String.length s).
Proof.
  induction fuel as [|fuel (IHv & IHe & IHm)]; [repeat split; discriminate|].
  repeat split; intros s v r.
  - cbn [parse_value]. pose proof (skip_ws_length s) as Hws.
    destruct (starts "{" (skip_ws s)) as [r0|] eqn:Ho.
    { apply starts_length in Ho. pose proof (skip_ws_length r0) as Hws0.
      destruct (starts "}" (skip_ws r0)) as [r1|] eqn:Hc.
      - apply starts_length in Hc. intros [= _ <-]. lia.
      - intros H. apply parsed_map_Parsed in H as [ms H]. apply IHm in H. lia. }
    destruct (starts "[" (skip_ws s)) as [r0|] eqn:Hb.
    { apply starts_length in Hb. pose proof (skip_ws_length r0) as Hws0.
      destruct (starts "]" (skip_ws r0)) as [r1|] eqn:Hc.
      - apply starts_length in Hc. intros [= _ <-]. lia.
      - intros H. apply parsed_map_Parsed in H as [xs H]. apply IHe in H. lia. }
    intros H. apply parse_scalar_length in H. lia.
  - cbn [parse_elements].
    destruct (parse_value fuel s) as [x r0| |] eqn:Hv; [|discriminate..].
    apply IHv in Hv. pose proof (skip_ws_length r0) as Hws.
    destruct (starts "]" (skip_ws r0)) as [r1|] eqn:Hc.
    { apply starts_length in Hc. intros [= _ <-]. lia. }
    destruct (starts "," (skip_ws r0)) as [r1|] eqn:Hcomma; [|discriminate].
    apply starts_length in Hcomma.
    intros H. apply parsed_map_Parsed in H as [xs H]. apply IHe in H. lia.
  - cbn [parse_members]. pose proof (skip_ws_length s) as Hws.
    destruct (starts dquote (skip_ws s)) as [r0|] eqn:Hq; [|discriminate].
    apply starts_length in Hq.
    destruct (parse_string r0) as [[k r1]|] eqn:Hk; [|discriminate].
    apply parse_string_length in Hk. pose proof (skip_ws_length r1) as Hws1.
    destruct (starts ":" (skip_ws r1)) as [r2|] eqn:Hcolon; [|discriminate].
    apply starts_length in Hcolon.
    destruct (parse_value fuel r2) as [x r3| |] eqn:Hv; [|discriminate..].
    apply IHv in Hv. pose proof (skip_ws_length r3) as Hws3.
    destruct (starts "}" (skip_ws r3)) as [r4|] eqn:Hc.
    { apply starts_length in Hc. intros [= _ <-]. lia. }
    destruct (starts "," (skip_ws r3)) as [r4|] eqn:Hcomma; [|discriminate].
    apply starts_length in Hcomma.
    intros H. apply parsed_map_Parsed in H as [ms H]. apply IHm in H. lia.
Qed.

(** With fuel beyond twice the length of the text the parser never stops for
    lack of it. *)
Lemma parse_fuel (fuel : nat) :
  (forall s, 2 * String.length s + 1 <= fuel -> parse_value fuel s <> OutOfFuel)
  /\ (forall s, 2 * String.length s + 2 <= fuel -> parse_elements fuel s <> OutOfFuel)
  /\ (forall s, 2 * String.length s + 2 <= fuel -> parse_members fuel s <> OutOfFuel).
Proof.
  induction fuel as [|fuel (IHv & IHe & IHm)]; [repeat split; intros s; lia|].
  destruct (parse_progress fuel) as (Pv & Pe & Pm).
  repeat split; intros s Hfuel.
  - cbn [parse_value]. pose proof (skip_ws_length s) as Hws.
    destruct (starts "{" (skip_ws s)) as [r0|] eqn:Ho.
    { apply starts_length in Ho.
      destruct (starts "}" (skip_ws r0)); [discriminate|].
      apply parsed_map_fuel, IHm. lia. }
    destruct (starts "[" (skip_ws s)) as [r0|] eqn:Hb.
    { apply starts_length in Hb.
      destruct (starts "]" (skip_ws r0)); [discriminate|].
      apply parsed_map_fuel, IHe. lia. }
    apply parse_scalar_fuel.
  - cbn [parse_elements].
    destruct (parse_value fuel s) as [x r0| |] eqn:Hv; [|discriminate|].
    + apply Pv in Hv. pose proof (skip_ws_length r0) as Hws.
      destruct (starts "]" (skip_ws r0)); [discriminate|].
      destruct (starts "," (skip_ws r0)) as [r1|] eqn:Hcomma; [|discriminate].
      apply starts_length in Hcomma. apply parsed_map_fuel, IHe. lia.
    + exfalso. revert Hv. apply IHv. lia.
  - cbn [parse_members]. pose proof (skip_ws_length s) as Hws.
    destruct (starts dquote (skip_ws s)) as [r0|] eqn:Hq; [|discriminate].
    apply starts_length in Hq.
    destruct (parse_string r0) as [[k r1]|] eqn:Hk; [|discriminate].
    apply parse_string_length in Hk. pose proof (skip_ws_length r1) as Hws1.
    destruct (starts ":" (skip_ws r1)) as [r2|] eqn:Hcolon; [|discriminate].
    apply starts_length in Hcolon.
    destruct (parse_value fuel r2) as [x r3| |] eqn:Hv; [|discriminate|].
    + apply Pv in Hv. pose proof (skip_ws_length r3) as Hws3.
      destruct (starts "}" (skip_ws r3)); [discriminate|].
      destruct (starts "," (skip_ws r3)) as [r4|] eqn:Hcomma; [|discriminate].
      apply starts_length in Hcomma. apply parsed_map_fuel, IHm. lia.
    + exfalso. revert Hv. apply IHv. lia.
Qed.

(** [JSON_parse] never fails for lack of fuel: when it returns [None] the
    text is not a JSON text. *)
Lemma parse_value_fuel (text : string) :
  parse_value (S (2 * String.length text)) text <> OutOfFuel.
Proof. apply parse_fuel. lia. Qed.

(** The parser on texts with escapes, numbers and nesting. *)
Example surrogate_pair_escape :
  JSON_parse (quoted "'\ud83d\ude00 \u00e9\n'") = Some (JStr ("😀 é" +:+ byte 10)).
Proof. vm_compute. reflexivity. Qed.

Example nested_values :
  JSON_parse (quoted " { 'a' : [1, -2.50e3, true, null, {}], 'a' : 'last' } ")
  = Some (JObj [("a", JArr [JNum {| neg := false; mantissa := 1; exp10 := 0 |};
                            JNum {| neg := true; mantissa := 250; exp10 := 1 |};
                            JBool true; JNull; JObj []]);
                ("a", JStr "last")])
  /\ get_prop (JObj [("a", JNull); ("a", JStr "last")]) "a" = Some (JStr "last").
Proof. vm_compute. split; reflexivity. Qed.

Example not_json :
  JSON_parse "01" = None /\ JSON_parse "[1,]" = None /\ JSON_parse "{} {}" = None
  /\ JSON_parse "" = None /\ JSON_parse "{'a':1}" = None.
Proof. vm_compute. repeat split. Qed.

Example tiny_number_is_falsy :
  option_map (fun v => truthy (Some v)) (JSON_parse "1e-400") = Some false
  /\ option_map (fun v => truthy (Some v)) (JSON_parse "5e-324") = Some true.
Proof. vm_compute. split; reflexivity. Qed.

(** ** Strings *)

Lemma append_cons (c : ascii) (s t : string) :
  String c s +:+ t = String c (s +:+ t).
Proof. reflexivity. Qed.

Lemma append_nil_l (s : string) : "" +:+ s = s.
Proof. reflexivity. Qed.

Lemma contains_append (c : ascii) (s t : string) :
  Adapter.contains c (s +:+ t) = Adapter.contains c s || Adapter.contains c t.
Proof.
  induction s as [|a s IH]; [reflexivity|].
  rewrite append_cons. cbn [Adapter.contains]. rewrite IH. apply orb_assoc.
Qed.

(** ** The brace pattern of the Gemini adapter *)

Lemma from_first_open_Some (s t : string) :
  Adapter.from_first_open s = Some t ->
  exists pre r, s = pre +:+ t /\ t = String "{" r /\ Adapter.contains "{" pre = false.
Proof.
  induction s as [|c s IH]; cbn [Adapter.from_first_open]; [discriminate|].
  destruct (Ascii.eqb c "{") eqn:Hc.
  - intros [= <-]. apply Ascii.eqb_eq in Hc. subst c.
    exists "", s. repeat split.
  - intros H. destruct (IH H) as (pre & r & -> & -> & Hpre).
    exists (String c pre), r. repeat split.
    cbn [Adapter.contains]. now rewrite Hc, Hpre.
Qed.

Lemma from_first_open_None (s : string) :
  Adapter.from_first_open s = None -> Adapter.contains "{" s = false.
Proof.
  induction s as [|c s IH]; cbn [Adapter.from_first_open Adapter.contains]; [reflexivity|].
  destruct (Ascii.eqb c "{"); [discriminate|]. exact IH.
Qed.

Lemma from_first_open_append (pre t : string) :
  Adapter.contains "{" pre = false ->
  Adapter.from_first_open (pre +:+ String "{" t) = Some (String "{" t).
Proof.
  induction pre as [|c pre IH]; intros H; [reflexivity|].
  cbn [Adapter.contains] in H. apply orb_false_iff in H as [Hc Hpre].
  rewrite append_cons. cbn [Adapter.from_first_open]. rewrite Hc. auto.
Qed.

Lemma upto_last_close_None (s : string) :
  Adapter.upto_last_close s = None <-> Adapter.contains "}" s = false.
Proof.
  induction s as [|c s IH]; cbn [Adapter.upto_last_close Adapter.contains]; [easy|].
  destruct (Adapter.upto_last_close s) as [p|].
  - split; [discriminate|]. intros H. apply orb_false_iff in H as [_ H].
    apply IH in H. discriminate.
  - destruct IH as [IH _]. rewrite (IH eq_refl), orb_false_r.
    destruct (Ascii.eqb c "}"); easy.
Qed.

Lemma upto_last_close_Some (s p : string) :
  Adapter.upto_last_close s = Some p ->
  exists mid post, p = mid +:+ "}" /\ s = p +:+ post /\ Adapter.contains "}" post = false.
Proof.
  revert p. induction s as [|c s IH]; intros p; cbn [Adapter.upto_last_close]; [discriminate|].
  destruct (Adapter.upto_last_close s) as [q|] eqn:Hs.
  - intros [= <-]. destruct (IH q eq_refl) as (mid & post & -> & Hs' & Hpost).
    exists (String c mid), post. repeat split; [|exact Hpost].
    rewrite append_cons. now f_equal.
  - destruct (Ascii.eqb c "}") eqn:Hc; [|discriminate].
    intros [= <-]. apply Ascii.eqb_eq in Hc. subst c.
    exists "", s. repeat split. now apply upto_last_close_None.
Qed.

Lemma upto_last_close_append (mid post : string) :
  Adapter.contains "}" post = false ->
  Adapter.upto_last_close (mid +:+ String "}" post) = Some (mid +:+ "}").
Proof.
  intros Hpost. induction mid as [|c mid IH].
  - rewrite !append_nil_l. cbn [Adapter.upto_last_close].
    apply upto_last_close_None in Hpost. now rewrite Hpost.
  - rewrite !append_cons. cbn [Adapter.upto_last_close]. now rewrite IH.
Qed.

(** The pattern matches exactly the span from the first opening brace of the
    text to its last closing brace. *)
Lemma match_braces_spec (text span : string) :
  Adapter.match_braces text = Some span <->
  exists pre mid post,
    text = pre +:+ String "{" (mid +:+ String "}" post)
    /\ Adapter.contains "{" pre = false
    /\ Adapter.contains "}" post = false
    /\ span = String "{" (mid +:+ "}").
Proof.
  unfold Adapter.match_braces. split.
  - destruct (Adapter.from_first_open text) as [t|] eqn:Ht; [|discriminate].
    destruct (from_first_open_Some _ _ Ht) as (pre & r & -> & -> & Hpre).
    destruct (Adapter.upto_last_close r) as [p|] eqn:Hr; [|discriminate].
    intros [= <-].
    destruct (upto_last_close_Some _ _ Hr) as (mid & post & -> & -> & Hpost).
    exists pre, mid, post. repeat split; try assumption.
    f_equal. f_equal. clear. induction mid as [|c mid IH]; [reflexivity|].
    rewrite !append_cons. now f_equal.
  - intros (pre & mid & post & -> & Hpre & Hpost & ->).
    rewrite (from_first_open_append _ _ Hpre).
    now rewrite (upto_last_close_append _ _ Hpost).
Qed.

Lemma after_first_open (pre' r pre r2 : string) :
  Adapter.contains "{" pre' = false ->
  pre' +:+ String "{" r = pre +:+ String "{" r2 ->
  exists x, r = x +:+ r2.
Proof.
  revert pre. induction pre' as [|c p' IH]; intros pre Hno Heq.
  - destruct pre as [|c0 pre0].
    + injection Heq as ->. now exists "".
    + rewrite append_nil_l, append_cons in Heq. injection Heq as _ ->.
      exists (pre0 +:+ "{"). clear.
      induction pre0 as [|a q IHq]; [reflexivity|].
      rewrite !append_cons. now f_equal.
  - cbn [Adapter.contains] in Hno. apply orb_false_iff in Hno as [Hc Hno].
    destruct pre as [|c0 pre0].
    + rewrite append_nil_l, append_cons in Heq. injection Heq as -> _.
      rewrite Ascii.eqb_refl in Hc. discriminate.
    + rewrite !append_cons in Heq. injection Heq as _ Heq. eauto.
Qed.

(** No match exactly when no opening brace is followed by a closing one. *)
Lemma match_braces_None (text : string) :
  Adapter.match_braces text = None <->
  ~ exists pre mid post, text = pre +:+ String "{" (mid +:+ String "}" post).
Proof.
  split.
  - intros Hnone (pre & mid & post & ->).
    unfold Adapter.match_braces in Hnone.
    destruct (Adapter.from_first_open (pre +:+ String "{" (mid +:+ String "}" post)))
      as [t|] eqn:Ht.
    + destruct (from_first_open_Some _ _ Ht) as (pre' & r & Heq & -> & Hpre').
      destruct (Adapter.upto_last_close r) as [p|] eqn:Hr; [discriminate|].
      apply upto_last_close_None in Hr.
      symmetry in Heq. destruct (after_first_open _ _ _ _ Hpre' Heq) as [x ->].
      rewrite !contains_append in Hr. cbn [Adapter.contains] in Hr.
      rewrite Ascii.eqb_refl, !orb_true_r in Hr. discriminate.
    + apply from_first_open_None in Ht. rewrite contains_append in Ht.
      cbn [Adapter.contains] in Ht. rewrite Ascii.eqb_refl, orb_true_r in Ht. discriminate.
  - intros Hno. destruct (Adapter.match_braces text) as [span|] eqn:Hm; [|reflexivity].
    apply match_braces_spec in Hm as (pre & mid & post & -> & _). exfalso. eauto.
Qed.

(** ** The response contract of the two adapters *)

Lemma missing_field_forallb (p : json) :
  Adapter.missing_field p
  = negb (forallb (fun k => truthy (get_prop p k)) Adapter.required_fields).
Proof.
  unfold Adapter.missing_field, Adapter.required_fields. cbn [forallb].
  destruct (truthy (get_prop p "approach")), (truthy (get_prop p "code")),
    (truthy (get_prop p "timeComplexity")), (truthy (get_prop p "spaceComplexity"));
    reflexivity.
Qed.

(** A text that starts with an opening brace parses to an object or not at
    all. *)
Lemma span_parses_to_object (text span : string) (v : json) :
  Adapter.match_braces text = Some span ->
  JSON_parse span = Some v ->
  exists members, v = JObj members.
Proof.
  intros Hm. apply match_braces_spec in Hm as (pre & mid & post & _ & _ & _ & ->).
  unfold JSON_parse. cbn [parse_value skip_ws is_ws].
  change (is_ws "{") with false. cbn [starts]. rewrite Ascii.eqb_refl.
  destruct (starts "}" (skip_ws (mid +:+ "}"))) as [r|].
  - destruct (skip_ws r); [|discriminate]. intros [= <-]. eauto.
  - destruct (parse_members _ _) as [ms r| |]; cbn; try discriminate.
    destruct (skip_ws r); [|discriminate]. intros [= <-]. eauto.
Qed.

(** The Gemini adapter in terms of the matched span. *)
Lemma gemini_of_text_span (text : option string) (span : string) :
  Adapter.match_braces (or_else text "") = Some span ->
  Adapter.gemini_of_text text =
    match JSON_parse span with
    | None => Adapter.Failed Adapter.JsonSyntaxError
    | Some p =>
        if forallb (fun k => truthy (get_prop p k)) Adapter.required_fields
        then Adapter.Solved (Adapter.solution_of p)
        else Adapter.Failed Adapter.InvalidStructure
    end.
Proof.
  intros Hm. unfold Adapter.gemini_of_text. rewrite Hm.
  destruct (JSON_parse span) as [p|] eqn:Hp; [|reflexivity].
  destruct (span_parses_to_object _ _ _ Hm Hp) as [members ->].
  rewrite missing_field_forallb. now destruct (forallb _ Adapter.required_fields).
Qed.

(** C5 as the specification words it fails on the code: the OpenAI adapter
    parses the whole text, so the sample text with prose around the object is
    rejected, and it validates no field, so an empty object is a success; the
    Gemini adapter takes everything up to the last closing brace, so a text
    whose first balanced span is a valid solution is rejected when another
    brace follows. *)
Lemma adapter_contract_counterexample :
  Adapter.spec_solveFromImages sample_text = Adapter.Solved sample_solution
  /\ Adapter.openai_of_content (Some sample_text) = Adapter.Failed Adapter.JsonSyntaxError
  /\ Adapter.spec_solveFromImages "{}" = Adapter.Failed Adapter.InvalidStructure
  /\ Adapter.openai_of_content (Some "{}") = Adapter.Solved (JObj [])
  /\ Adapter.spec_solveFromImages two_spans_text = Adapter.Solved sample_solution
  /\ Adapter.gemini_of_text (Some two_spans_text) = Adapter.Failed Adapter.JsonSyntaxError.
Proof. repeat split; vm_compute; reflexivity. Qed.

(** C5, amended: the Gemini adapter parses the span from the first opening
    brace of the text to its last closing brace and succeeds exactly when
    that span parses to a value whose four fields are all truthy, returning
    those four fields; with no such span, a span that does not parse or a
    field that is not truthy it fails.  The OpenAI adapter parses the whole
    content (['{}'] when there is none) and returns the value as it is.  On
    the sample text the Gemini adapter yields exactly the four fields and the
    OpenAI adapter fails. *)
Theorem adapter_response_parsing (text : option string) (result : json) :
  (Adapter.gemini_of_text text = Adapter.Solved result <->
     exists pre mid post p,
       or_else text "" = pre +:+ String "{" (mid +:+ String "}" post)
       /\ Adapter.contains "{" pre = false
       /\ Adapter.contains "}" post = false
       /\ JSON_parse (String "{" (mid +:+ "}")) = Some p
       /\ forallb (fun k => truthy (get_prop p k)) Adapter.required_fields = true
       /\ result = Adapter.solution_of p)
  /\ (Adapter.gemini_of_text text = Adapter.Failed Adapter.NoJsonFound <->
        ~ exists pre mid post,
            or_else text "" = pre +:+ String "{" (mid +:+ String "}" post))
  /\ (Adapter.openai_of_content text = Adapter.Solved result <->
        JSON_parse (or_else text "{}") = Some result)
  /\ Adapter.gemini_of_text (Some sample_text) = Adapter.Solved sample_solution
  /\ Adapter.openai_of_content (Some sample_text) = Adapter.Failed Adapter.JsonSyntaxError.
Proof.
  split; [|split; [|split; [|split; vm_compute; reflexivity]]].
  - split.
    + intros Hg.
      destruct (Adapter.match_braces (or_else text "")) as [span|] eqn:Hm.
      * rewrite (gemini_of_text_span _ _ Hm) in Hg.
        apply match_braces_spec in Hm as (pre & mid & post & Htext & Hpre & Hpost & ->).
        destruct (JSON_parse _) as [p|] eqn:Hp; [|discriminate].
        destruct (forallb _ _) eqn:Hf; [|discriminate].
        injection Hg as <-. exists pre, mid, post, p. auto 10.
      * unfold Adapter.gemini_of_text in Hg. rewrite Hm in Hg. discriminate.
    + intros (pre & mid & post & p & Htext & Hpre & Hpost & Hp & Hf & ->).
      assert (Adapter.match_braces (or_else text "") = Some (String "{" (mid +:+ "}"))) as Hm.
      { apply match_braces_spec. exists pre, mid, post. auto. }
      rewrite (gemini_of_text_span _ _ Hm), Hp, Hf. reflexivity.
  - rewrite <- match_braces_None. split.
    + intros Hg. destruct (Adapter.match_braces (or_else text "")) as [span|] eqn:Hm;
        [|reflexivity].
      rewrite (gemini_of_text_span _ _ Hm) in Hg.
      destruct (JSON_parse span); [destruct (forallb _ _)|]; discriminate.
    + intros Hm. unfold Adapter.gemini_of_text. now rewrite Hm.
  - unfold Adapter.openai_of_content.
    destruct (JSON_parse (or_else text "{}")) as [v|]; split; congruence.
Qed.

(** ** Streaming an audio answer *)

Ltac eff_unfold :=
  unfold mbind, mret, eff_bind, eff_ret, Eff.bind, Eff.ret, Eff.modify, Eff.emit,
    Eff.get, Eff.throw, Eff.await, Eff.try_catch, Eff.finally, Eff.zoom, Eff.embed.

Lemma contents_cons (c : option string) (rest : list (option string)) :
  AudioStream.contents (c :: rest) =
    match AudioStream.content c with
    | Some text => text :: AudioStream.contents rest
    | None => AudioStream.contents rest
    end.
Proof. reflexivity. Qed.

Lemma on_stream_chunk_spec (onChunk : string -> list effect) (c : option string)
    (l : AudioStream.locals) :
  AudioStream.on_stream_chunk onChunk c l =
    match AudioStream.content c with
    | Some text =>
        (Normal tt, AudioStream.mark_content (AudioStream.count_chunk l), onChunk text)
    | None => (Normal tt, AudioStream.count_chunk l, [])
    end.
Proof.
  unfold AudioStream.on_stream_chunk, AudioStream.content, AudioStream.call_back.
  eff_unfold. destruct c as [text|]; [|reflexivity].
  destruct (String.eqb text ""); reflexivity.
Qed.

(** The [for await] loop hands the content chunks to the callback in arrival
    order and records whether there was any. *)
Lemma for_await_spec (onChunk : string -> list effect) (chunks : list (option string))
    (l : AudioStream.locals) :
  AudioStream.for_await onChunk chunks l =
    (Normal tt,
     {| AudioStream.chunkCount := length chunks + AudioStream.chunkCount l;
        AudioStream.hasReceivedContent :=
          AudioStream.hasReceivedContent l
          || negb (bool_decide (AudioStream.contents chunks = [])) |},
     concat (map onChunk (AudioStream.contents chunks))).
Proof.
  revert l. induction chunks as [|c rest IH]; intros [n b].
  - cbn. now rewrite orb_false_r.
  - cbn [AudioStream.for_await]. unfold mbind, eff_bind, Eff.bind.
    rewrite on_stream_chunk_spec, contents_cons.
    destruct (AudioStream.content c) as [text|]; rewrite IH; cbn -[bool_decide].
    + rewrite bool_decide_eq_false_2 by discriminate.
      repeat f_equal; [lia|]. now rewrite orb_true_r.
    + repeat f_equal. lia.
Qed.

(** C8 as stated fails on the code: when the stream carries no content and
    the fallback reply has no text, nothing is handed to the callback. *)
Lemma fallback_chunk_counterexample :
  AudioStream.contents [None; Some ""] = []
  /\ AudioStream.processAudioStream (fun chunk => [Send (AudioStreamChunk chunk)])
       true "QUJD" (AudioStream.Stream [None; Some ""] (Normal tt)) (Normal (Some ""))
       AudioStream.start
     = (Normal tt,
        {| AudioStream.chunkCount := 2; AudioStream.hasReceivedContent := false |},
        [SdkStream "QUJD"; SdkFallback "QUJD"]).
Proof. split; vm_compute; reflexivity. Qed.

(** C8, amended: when the stream ends without a content chunk, exactly one
    fallback call is made, and its text, when there is one, is handed to the
    callback as a single chunk (a reply without text, or a rejected fallback
    call, hands over nothing); when the stream yields a content chunk, no
    fallback call is made and the content chunks are handed to the callback in
    arrival order. *)
Theorem audio_stream_fallback (onChunk : string -> list effect) (audio : string)
    (chunks : list (option string)) (ending : completion unit)
    (fallback : completion (option string)) :
  (AudioStream.contents chunks = [] -> ending = Normal tt ->
   snd (AudioStream.processAudioStream onChunk true audio
          (AudioStream.Stream chunks ending) fallback AudioStream.start)
   = SdkStream audio :: SdkFallback audio ::
       match fallback with
       | Normal reply => if (or_else reply "" =? "")%string then [] else onChunk (or_else reply "")
       | Thrown _ => []
       end)
  /\ (AudioStream.contents chunks <> [] ->
      snd (AudioStream.processAudioStream onChunk true audio
             (AudioStream.Stream chunks ending) fallback AudioStream.start)
      = SdkStream audio :: concat (map onChunk (AudioStream.contents chunks))).
Proof.
  unfold AudioStream.processAudioStream. cbn [negb]. split.
  - intros Hnone ->. eff_unfold. cbn -[bool_decide].
    rewrite for_await_spec, Hnone. cbn.
    destruct fallback as [reply|e]; cbn.
    + destruct (String.eqb (or_else reply "") ""); cbn; [reflexivity|].
      unfold AudioStream.call_back. now rewrite ?app_nil_r.
    + unfold AudioStream.rethrow. destruct e; reflexivity.
  - intros Hsome. eff_unfold. cbn -[bool_decide].
    rewrite for_await_spec. rewrite bool_decide_eq_false_2 by assumption.
    cbn. destruct ending as [[]|e]; cbn.
    + now rewrite ?app_nil_r.
    + unfold AudioStream.rethrow. destruct e; cbn; now rewrite ?app_nil_r.
Qed.

Lemma audio_stream_fallback_witness :
  snd (AudioStream.processAudioStream (fun chunk => [Send (AudioStreamChunk chunk)])
         true "QUJD" (AudioStream.Stream [None; Some ""] (Normal tt))
         (Normal (Some "Hello world!")) AudioStream.start)
  = [SdkStream "QUJD"; SdkFallback "QUJD"; Send (AudioStreamChunk "Hello world!")]
  /\ snd (AudioStream.processAudioStream (fun chunk => [Send (AudioStreamChunk chunk)])
            true "QUJD"
            (AudioStream.Stream [Some "Hello "; None; Some "world"; Some "!"] (Normal tt))
            (Normal (Some "unused")) AudioStream.start)
     = [SdkStream "QUJD"; Send (AudioStreamChunk "Hello ");
        Send (AudioStreamChunk "world"); Send (AudioStreamChunk "!")].
Proof.
  split.
  - apply (proj1 (audio_stream_fallback (fun chunk => [Send (AudioStreamChunk chunk)])
                    "QUJD" [None; Some ""] (Normal tt) (Normal (Some "Hello world!"))));
      reflexivity.
  - apply (proj2 (audio_stream_fallback (fun chunk => [Send (AudioStreamChunk chunk)])
                    "QUJD" [Some "Hello "; None; Some "world"; Some "!"] (Normal tt)
                    (Normal (Some "unused")))).
    vm_compute. discriminate.
Defined.

(** ** The recorder *)

Lemma stopRecording_failure (closes : bool) (stat : completion N) (inner : js_error)
    (r : Recorder.t) :
  Recorder.isRecording r = true ->
  child_closes closes r = true ->
  stop_error stat = Some inner ->
  Recorder.stopRecording closes stat r =
    (Thrown (Error (stop_failure_message inner)),
     Recorder.set_isRecording false (Recorder.set_recordingProcess None r),
     kill_effects r).
Proof.
  intros Hrec Hcloses Hstat.
  unfold Recorder.stopRecording, Recorder.verify_and_return, kill_effects, child_closes in *.
  eff_unfold.
  rewrite Hrec. cbn [negb]. destruct r as [rec proc out n dev]. cbn in Hrec, Hcloses.
  subst rec. unfold stop_error in Hstat.
  destruct stat as [size|e].
  - destruct (N.eqb size 0) eqn:Hsize; [|discriminate]. injection Hstat as <-.
    destruct proc; cbn; rewrite ?Hcloses; cbn; rewrite ?Hsize; reflexivity.
  - injection Hstat as <-. destruct proc; cbn; rewrite ?Hcloses; reflexivity.
Qed.

Lemma stopRecording_success (closes : bool) (size : N) (r : Recorder.t) :
  Recorder.isRecording r = true ->
  child_closes closes r = true ->
  size <> 0%N ->
  Recorder.stopRecording closes (Normal size) r =
    (Normal (Fulfilled (Recorder.outputPath r)),
     Recorder.incr_questionCounter
       (Recorder.set_isRecording false (Recorder.set_recordingProcess None r)),
     kill_effects r).
Proof.
  intros Hrec Hcloses Hsize.
  unfold Recorder.stopRecording, Recorder.verify_and_return, kill_effects, child_closes in *.
  eff_unfold.
  rewrite Hrec. cbn [negb]. destruct r as [rec proc out n dev]. cbn in Hrec, Hcloses.
  subst rec. apply N.eqb_neq in Hsize.
  destruct proc; cbn; rewrite ?Hcloses; cbn; rewrite Hsize; reflexivity.
Qed.

(** A stop that waits for a child that does not close: the flag has been
    cleared and the signal sent, and nothing else happens. *)
Lemma stopRecording_pending (closes : bool) (stat : completion N) (r : Recorder.t) :
  Recorder.isRecording r = true ->
  child_closes closes r = false ->
  Recorder.stopRecording closes stat r =
    (Normal Pending, Recorder.set_isRecording false r, [Kill]).
Proof.
  intros Hrec Hcloses. unfold Recorder.stopRecording, child_closes in *. eff_unfold.
  rewrite Hrec. cbn [negb]. destruct r as [rec proc out n dev]. cbn in Hrec, Hcloses.
  subst rec. destruct proc; [|discriminate]. subst closes. reflexivity.
Qed.

Lemma startRecording_success (userData : string) (available : string -> bool)
    (tool : string) (r : Recorder.t) :
  Recorder.isRecording r = false ->
  List.find available ["arecord"; "sox"; "ffmpeg"] = Some tool ->
  let out := Recorder.question_path userData (Recorder.questionCounter r) in
  Recorder.startRecording userData available r =
    (Normal out,
     Recorder.set_isRecording true
       (Recorder.set_recordingProcess (Some tool) (Recorder.set_outputPath out r)),
     [Spawn tool (Recorder.recorder_args tool out)]).
Proof.
  intros Hrec Htool. unfold Recorder.startRecording, Recorder.checkRecordingCapability.
  eff_unfold. rewrite Hrec, Htool. reflexivity.
Qed.

Lemma stop_error_cases (stat : completion N) :
  stat = Normal 0%N \/ (exists e, stat = Thrown e) ->
  exists inner, stop_error stat = Some inner.
Proof. intros [->|[e ->]]; cbn; eauto. Qed.

(** Whatever a stop comes to, it leaves the recorder idle. *)
Lemma stopRecording_idle (closes : bool) (stat : completion N) (r : Recorder.t) :
  Recorder.isRecording r = true ->
  Recorder.isRecording (snd (fst (Recorder.stopRecording closes stat r))) = false.
Proof.
  intros Hrec. destruct (child_closes closes r) eqn:Hcloses.
  - destruct (stop_error stat) as [inner|] eqn:Hstat.
    + now rewrite (stopRecording_failure _ _ _ _ Hrec Hcloses Hstat).
    + unfold stop_error in Hstat. destruct stat as [size|e]; [|discriminate].
      destruct (N.eqb size 0) eqn:Hsize; [discriminate|]. apply N.eqb_neq in Hsize.
      now rewrite (stopRecording_success _ _ _ Hrec Hcloses Hsize).
  - now rewrite (stopRecording_pending _ _ _ Hrec Hcloses).
Qed.

(** C6: the recorder is a two-state machine.  A stop request while idle and a
    start request while recording are refused ('Not currently recording',
    'Already recording') and leave every variable of the recorder as it was;
    a toggle moves an idle recorder with a tool at hand to recording and a
    recording one to idle. *)
Theorem recorder_two_state_machine (userData : string) (available : string -> bool)
    (closes : bool) (stat : completion N) (r : Recorder.t) :
  (Recorder.isRecording r = false ->
   Recorder.stopRecording closes stat r
   = (Thrown (Error "Not currently recording"), r, []))
  /\ (Recorder.isRecording r = true ->
      Recorder.startRecording userData available r
      = (Thrown (Error "Already recording"), r, []))
  /\ (Recorder.isRecording r = false ->
      List.find available ["arecord"; "sox"; "ffmpeg"] <> None ->
      Recorder.isRecording
        (snd (fst (Recorder.toggleRecording userData available closes stat r))) = true)
  /\ (Recorder.isRecording r = true ->
      Recorder.isRecording
        (snd (fst (Recorder.toggleRecording userData available closes stat r))) = false).
Proof.
  repeat split.
  - intros Hrec. unfold Recorder.stopRecording. eff_unfold. now rewrite Hrec.
  - intros Hrec. unfold Recorder.startRecording. eff_unfold. now rewrite Hrec.
  - intros Hrec Htool. unfold Recorder.toggleRecording. eff_unfold. rewrite Hrec.
    destruct (List.find available _) as [tool|] eqn:Hfind; [|congruence].
    now rewrite (startRecording_success _ _ _ _ Hrec Hfind).
  - intros Hrec. unfold Recorder.toggleRecording. eff_unfold. rewrite Hrec.
    pose proof (stopRecording_idle closes stat r Hrec) as Hidle.
    destruct (Recorder.stopRecording closes stat r) as [[c r'] out]. exact Hidle.
Qed.

Lemma recorder_two_state_machine_witness :
  Recorder.stopRecording true (Normal 10%N) Recorder.initial
  = (Thrown (Error "Not currently recording"), Recorder.initial, [])
  /\ Recorder.startRecording "/u" (fun cmd => (cmd =? "sox")%string) recording
     = (Thrown (Error "Already recording"), recording, [])
  /\ Recorder.isRecording
       (snd (fst (Recorder.toggleRecording "/u" (fun cmd => (cmd =? "sox")%string)
                    true (Normal 10%N) Recorder.initial))) = true
  /\ Recorder.isRecording
       (snd (fst (Recorder.toggleRecording "/u" (fun cmd => (cmd =? "sox")%string)
                    true (Normal 10%N) recording))) = false.
Proof.
  pose proof (recorder_two_state_machine "/u" (fun cmd => (cmd =? "sox")%string)
                true (Normal 10%N) Recorder.initial) as (Hstop & _ & Hon & _).
  pose proof (recorder_two_state_machine "/u" (fun cmd => (cmd =? "sox")%string)
                true (Normal 10%N) recording) as (_ & Hstart & _ & Hoff).
  split; [|split; [|split]].
  - apply Hstop. reflexivity.
  - apply Hstart. reflexivity.
  - apply Hon; [reflexivity|]. vm_compute. discriminate.
  - apply Hoff. reflexivity.
Defined.

(** C10: a stop that fails on a missing or empty output file leaves the
    recorder idle with its question counter as before the call, so the next
    start records to the same [question-<n>.wav] path again.  The stop fails,
    with 'Failed to stop recording: Error: Recording file was not created
    properly: ...', when it gets past its wait for the child; when the child
    does not close it never settles, and the recorder is left the same way. *)
Theorem failed_stop_keeps_counter (userData : string) (available : string -> bool)
    (closes : bool) (stat : completion N) (inner : js_error) (r : Recorder.t) :
  Recorder.isRecording r = true ->
  Recorder.outputPath r = Recorder.question_path userData (Recorder.questionCounter r) ->
  stop_error stat = Some inner ->
  List.find available ["arecord"; "sox"; "ffmpeg"] <> None ->
  let stopped := Recorder.stopRecording closes stat r in
  let r' := snd (fst stopped) in
  let started := Recorder.startRecording userData available r' in
  fst (fst stopped)
  = (if child_closes closes r then Thrown (Error (stop_failure_message inner))
     else Normal Pending)
  /\ Recorder.isRecording r' = false
  /\ Recorder.questionCounter r' = Recorder.questionCounter r
  /\ fst (fst started) = Normal (Recorder.outputPath r)
  /\ Recorder.outputPath (snd (fst started)) = Recorder.outputPath r
  /\ Recorder.isRecording (snd (fst started)) = true.
Proof.
  intros Hrec Hpath Hinner Htool. cbn zeta.
  destruct (List.find available _) as [tool|] eqn:Hfind; [clear Htool|congruence].
  destruct (child_closes closes r) eqn:Hcloses.
  - rewrite (stopRecording_failure _ _ _ _ Hrec Hcloses Hinner). cbn [fst snd].
    rewrite (startRecording_success userData available tool) by (assumption || reflexivity).
    destruct r; cbn in *. subst. repeat split.
  - rewrite (stopRecording_pending _ _ _ Hrec Hcloses). cbn [fst snd].
    rewrite (startRecording_success userData available tool) by (assumption || reflexivity).
    destruct r; cbn in *. subst. repeat split.
Qed.

Lemma failed_stop_keeps_counter_witness :
  let stopped := Recorder.stopRecording true (Normal 0%N) recording in
  let started :=
    Recorder.startRecording "/u" (fun cmd => (cmd =? "sox")%string) (snd (fst stopped)) in
  fst (fst stopped)
  = Thrown (Error ("Failed to stop recording: Error: Recording file was not created "
                   +:+ "properly: Error: Recording file is empty"))
  /\ Recorder.questionCounter (snd (fst stopped)) = 1%N
  /\ Recorder.outputPath (snd (fst started)) = "/u/recordings/question-1.wav".
Proof.
  assert (List.find (fun cmd => (cmd =? "sox")%string) ["arecord"; "sox"; "ffmpeg"] <> None)
    as Htool by (vm_compute; discriminate).
  pose proof (failed_stop_keeps_counter "/u" (fun cmd => (cmd =? "sox")%string)
                true (Normal 0%N) (Error "Recording file is empty") recording
                eq_refl eq_refl eq_refl Htool)
    as (Hc & _ & Hn & _ & Hp & _).
  split; [exact Hc | split; [exact Hn | exact Hp]].
Defined.

(** ** Toggling the recording from the main process *)

Lemma toggle_failed_stop (userData : string) (h : Main.recording_host)
    (inner : js_error) (s : Main.state) :
  Recorder.isRecording (Main.recorder s) = true ->
  child_closes (Main.closes h) (Main.recorder s) = true ->
  stop_error (Main.stat h) = Some inner ->
  Main.handleToggleRecording userData h s =
    (Normal Main.Finished,
     Main.set_recorder
       (Recorder.set_isRecording false
          (Recorder.set_recordingProcess None (Main.recorder s))) s,
     kill_effects (Main.recorder s)
     ++ [Send (RecordingError (stop_failure_message inner))]).
Proof.
  intros Hrec Hcloses Hstat. unfold Main.handleToggleRecording, Main.on_recorder.
  unfold Recorder.toggleRecording. eff_unfold. rewrite Hrec.
  rewrite (stopRecording_failure _ _ _ _ Hrec Hcloses Hstat). cbn.
  now rewrite ?app_nil_r.
Qed.

(** A toggle that stops a child which does not close: the signal is sent and
    the handler stays suspended; nothing is sent to the renderer. *)
Lemma toggle_pending_stop (userData : string) (h : Main.recording_host) (s : Main.state) :
  Recorder.isRecording (Main.recorder s) = true ->
  child_closes (Main.closes h) (Main.recorder s) = false ->
  Main.handleToggleRecording userData h s =
    (Normal Main.Suspended,
     Main.set_recorder (Recorder.set_isRecording false (Main.recorder s)) s,
     [Kill]).
Proof.
  intros Hrec Hcloses. unfold Main.handleToggleRecording, Main.on_recorder.
  unfold Recorder.toggleRecording. eff_unfold. rewrite Hrec.
  rewrite (stopRecording_pending _ _ _ Hrec Hcloses). reflexivity.
Qed.

(** What holds of a stop whose output file is missing or empty: the audio
    pipeline is not entered, whatever the child does; when the stop gets past
    its wait for the child it fails and the main process reports it with
    [recording-error] and nothing else. *)
Lemma empty_recording_starts_no_audio_job (userData : string)
    (h : Main.recording_host) (inner : js_error) (s : Main.state) :
  Recorder.isRecording (Main.recorder s) = true ->
  stop_error (Main.stat h) = Some inner ->
  let '(c, s', out) := Main.handleToggleRecording userData h s in
  (child_closes (Main.closes h) (Main.recorder s) = true ->
   fst (fst (Recorder.stopRecording (Main.closes h) (Main.stat h) (Main.recorder s)))
   = Thrown (Error (stop_failure_message inner))
   /\ c = Normal Main.Finished
   /\ out = kill_effects (Main.recorder s)
            ++ [Send (RecordingError (stop_failure_message inner))])
  /\ ~ In (Send AudioProcessingStarted) out
  /\ (forall audio, ~ In (SdkStream audio) out /\ ~ In (SdkFallback audio) out)
  /\ Recorder.isRecording (Main.recorder s') = false.
Proof.
  intros Hrec Hinner.
  destruct (child_closes (Main.closes h) (Main.recorder s)) eqn:Hcloses.
  - rewrite (toggle_failed_stop _ _ _ _ Hrec Hcloses Hinner).
    rewrite (stopRecording_failure _ _ _ _ Hrec Hcloses Hinner). cbn [fst snd].
    split; [intros _; repeat split|].
    assert (forall e, In e (kill_effects (Main.recorder s)
                            ++ [Send (RecordingError (stop_failure_message inner))]) ->
                      e = Kill \/ e = Send (RecordingError (stop_failure_message inner)))
      as Hin.
    { intros e He. apply in_app_or in He as [He|[<-|[]]]; [|now right].
      unfold kill_effects in He. destruct (Recorder.recordingProcess _); [|destruct He].
      destruct He as [<-|[]]. now left. }
    split; [|split].
    + intros He. destruct (Hin _ He); discriminate.
    + intros audio. split; intros He; destruct (Hin _ He); discriminate.
    + destruct s as [? ? ? ? [ ] ? ?]. reflexivity.
  - rewrite (toggle_pending_stop _ _ _ Hrec Hcloses).
    split; [discriminate|]. split; [|split].
    + intros [He|[]]. discriminate.
    + intros audio. split; intros [He|[]]; discriminate.
    + destruct s as [? ? ? ? [ ] ? ?]. reflexivity.
Qed.

(** C7: a recording whose tool has exited before it is stopped and whose
    output file is empty.  The stop does not fail: it never settles.  The
    handler sends the signal and stays suspended, so neither
    [recording-error] nor any other message reaches the renderer, and the
    recorder keeps the handle of the child. *)
Theorem empty_recording_after_tool_exit_never_fails :
  let s := Main.set_recorder recording ready in
  Recorder.stopRecording (Main.closes exited_host) (Main.stat exited_host) recording
  = (Normal Pending, Recorder.set_isRecording false recording, [Kill])
  /\ Main.handleToggleRecording "/u" exited_host s
     = (Normal Main.Suspended,
        Main.set_recorder (Recorder.set_isRecording false recording) s,
        [Kill]).
Proof. split; vm_compute; reflexivity. Qed.

(** With a recording that has content and a Gemini configuration the same
    handler does enter the pipeline. *)
Example recorded_question_starts_audio_job :
  snd (Main.handleToggleRecording "/u"
         {| Main.available := fun cmd => (cmd =? "sox")%string;
            Main.closes := true;
            Main.stat := Normal 2048%N;
            Main.read := Normal "UklGRg==";
            Main.gemini_ready := true;
            Main.stream := AudioStream.Stream [Some "Hello "; Some "world"; Some "!"] (Normal tt);
            Main.fallback := Normal None |}
         (Main.set_recorder recording ready))
  = [Kill;
     Send (RecordingToggled false "/u/recordings/question-1.wav");
     Send AudioProcessingStarted;
     ReadFile "/u/recordings/question-1.wav";
     SdkStream "UklGRg==";
     Send (AudioStreamChunk "Hello "); Send (AudioStreamChunk "world");
     Send (AudioStreamChunk "!");
     Send AudioProcessingComplete].
Proof. vm_compute. reflexivity. Qed.

(** ** Resuming a suspended handler *)

Lemma resume_hit (t : nat) (k : Main.task -> option (M Main.state effect Main.status))
    (m : M Main.state effect Main.status) (s : Main.state) :
  Main.tasks s !! t ≫= k = Some m ->
  Main.resume t k s = m (Main.drop_task t s).
Proof.
  intros H. unfold Main.resume. unfold mbind at 1. unfold eff_bind, Eff.bind, Eff.get.
  rewrite H. eff_unfold. cbn.
  now destruct (m (Main.drop_task t s)) as [[c s'] out].
Qed.

Lemma resume_miss (t : nat) (k : Main.task -> option (M Main.state effect Main.status))
    (s : Main.state) :
  Main.tasks s !! t ≫= k = None ->
  Main.resume t k s = (Normal Main.Finished, s, []).
Proof.
  intros H. unfold Main.resume. unfold mbind at 1. unfold eff_bind, Eff.bind, Eff.get.
  now rewrite H.
Qed.

(** ** Processing the queue: the single-flight flag *)

Lemma process_noop (s : Main.state) :
  Main.isProcessing s = true \/ Main.queue s = [] ->
  Main.handleProcessScreenshots s = (Normal Main.Finished, s, []).
Proof.
  intros H. unfold Main.handleProcessScreenshots. eff_unfold.
  destruct H as [-> | ->]; [reflexivity|]. cbn. now rewrite orb_true_r.
Qed.

Lemma process_starts (cfg : Config) (s : Main.state) :
  Main.isProcessing s = false ->
  Main.queue s <> [] ->
  Main.config s = Some cfg ->
  supported cfg = true ->
  Main.handleProcessScreenshots s =
    (Normal Main.Suspended, job_started s,
     [Send ProcessingStarted; provider_call cfg (Main.queue s)]).
Proof.
  intros Hflag Hq Hcfg Hsup. unfold Main.handleProcessScreenshots, Main.suspend.
  eff_unfold. rewrite Hflag, Hcfg. cbn [orb].
  destruct (Main.queue s) as [|shot q] eqn:Hqueue; [congruence|]. cbn [length Nat.eqb].
  unfold supported, provider_call in *.
  destruct (String.eqb (provider cfg) "openai"); [reflexivity|].
  cbn [orb] in Hsup. rewrite Hsup. reflexivity.
Qed.

(** C1: a process-queue intent that finds the queue empty or a job in flight
    does nothing at all: no adapter call, no [processing-started], no change
    of state.  So of two intents in a row over a non-empty queue, with a
    configuration for a supported provider loaded, only the first calls the
    adapter. *)
Theorem process_queue_single_flight (userData temp : string) (cfg : Config)
    (s : Main.state) :
  (Main.isProcessing s = true \/ Main.queue s = [] ->
   Main.step userData temp Main.ProcessScreenshots s = (Normal Main.Finished, s, []))
  /\ (Main.isProcessing s = false ->
      Main.queue s <> [] ->
      Main.config s = Some cfg ->
      supported cfg = true ->
      let out :=
        snd (Main.run userData temp [Main.ProcessScreenshots; Main.ProcessScreenshots] s) in
      out = [Send ProcessingStarted; provider_call cfg (Main.queue s)]
      /\ Main.provider_calls out = 1).
Proof.
  split.
  - intros H. cbn [Main.step]. now apply process_noop.
  - intros Hflag Hq Hcfg Hsup. cbn [Main.run Main.step].
    rewrite (process_starts cfg s Hflag Hq Hcfg Hsup).
    rewrite (process_noop (job_started s)) by (left; reflexivity).
    cbn. split; [reflexivity|].
    unfold provider_call. now destruct (String.eqb (provider cfg) "openai").
Qed.

Lemma process_queue_single_flight_witness :
  Main.step "/u" "/tmp" Main.ProcessScreenshots ready = (Normal Main.Finished, ready, [])
  /\ Main.provider_calls
       (snd (Main.run "/u" "/tmp" [Main.ProcessScreenshots; Main.ProcessScreenshots]
               (Main.push one_shot ready))) = 1.
Proof.
  split.
  - apply (proj1 (process_queue_single_flight "/u" "/tmp" gemini_config ready)).
    right. reflexivity.
  - apply (proj2 (process_queue_single_flight "/u" "/tmp" gemini_config
                    (Main.push one_shot ready)));
      [reflexivity | vm_compute; discriminate | reflexivity | reflexivity].
Defined.

(** ** Handlers that leave the jobs alone *)

Section Respects.
Context {S E : Type} (R : S -> S -> Prop).
Hypothesis R_refl : forall s, R s s.
Hypothesis R_trans : forall s1 s2 s3, R s1 s2 -> R s2 s3 -> R s1 s3.

Lemma respects_ret {A} (a : A) : respects (E := E) R (mret a).
Proof. intros s. apply R_refl. Qed.

Lemma respects_throw {A} (e : js_error) : respects (E := E) (A := A) R (throw e).
Proof. intros s. apply R_refl. Qed.

Lemma respects_emit (e : E) : respects R (emit (S := S) e).
Proof. intros s. apply R_refl. Qed.

Lemma respects_get : respects (E := E) R get.
Proof. intros s. apply R_refl. Qed.

Lemma respects_await {A} (c : completion A) : respects (E := E) R (await c).
Proof. intros s. apply R_refl. Qed.

Lemma respects_modify (f : S -> S) :
  (forall s, R s (f s)) -> respects (E := E) R (modify f).
Proof. intros H s. apply H. Qed.

Lemma respects_bind {A B} (m : M S E A) (k : A -> M S E B) :
  respects R m -> (forall a, respects R (k a)) -> respects R (m ≫= k).
Proof.
  intros Hm Hk s. unfold mbind, eff_bind, Eff.bind.
  specialize (Hm s). destruct (m s) as [[[a|e] s1] out1]; cbn in *; [|exact Hm].
  specialize (Hk a s1). destruct (k a s1) as [[c s2] out2]. cbn in *. eauto.
Qed.

Lemma respects_try_catch {A} (m : M S E A) (h : js_error -> M S E A) :
  respects R m -> (forall e, respects R (h e)) -> respects R (try_catch m h).
Proof.
  intros Hm Hh s. unfold Eff.try_catch.
  specialize (Hm s). destruct (m s) as [[[a|e] s1] out1]; cbn in *; [exact Hm|].
  specialize (Hh e s1). destruct (h e s1) as [[c s2] out2]. cbn in *. eauto.
Qed.

Lemma respects_embed {L A} (init : L) (m : M L E A) : respects R (embed init m).
Proof. intros s. unfold Eff.embed. destruct (m init) as [[c l] out]. apply R_refl. Qed.

Lemma respects_zoom {T A} (proj : S -> T) (inj : T -> S -> S) (m : M T E A) :
  (forall t s, R s (inj t s)) -> respects R (zoom proj inj m).
Proof.
  intros H s. unfold Eff.zoom. destruct (m (proj s)) as [[c t] out]. apply H.
Qed.
End Respects.

Lemma keeps_jobs_refl (s : Main.state) : keeps_jobs s s.
Proof. repeat split; auto. Qed.

Lemma keeps_jobs_trans (s1 s2 s3 : Main.state) :
  keeps_jobs s1 s2 -> keeps_jobs s2 s3 -> keeps_jobs s1 s3.
Proof.
  intros (Hf1 & Hn1 & Hnew1 & Hold1) (Hf2 & Hn2 & Hnew2 & Hold2).
  repeat split; [congruence | lia | auto |].
  intros t Ht Hjob. apply Hold2; [lia | auto].
Qed.

Lemma keeps_jobs_suspend (k : Main.task) (s : Main.state) :
  k <> Main.ProcessTask ->
  keeps_jobs s
    (Main.set_next_task (S (Main.next_task s))
       (Main.set_tasks (<[Main.next_task s := k]> (Main.tasks s)) s)).
Proof.
  intros Hk. repeat split; cbn; [lia | |].
  - intros t. rewrite lookup_insert. case_decide; [congruence | auto].
  - intros t Ht Hjob. rewrite lookup_insert_ne by lia. exact Hjob.
Qed.

Lemma keeps_jobs_drop (t : nat) (s : Main.state) :
  Main.tasks s !! t <> Some Main.ProcessTask ->
  keeps_jobs s (Main.drop_task t s).
Proof.
  intros Ht. repeat split; cbn; [lia | |].
  - intros t'. rewrite lookup_delete. case_decide; [discriminate | auto].
  - intros t' _ Hjob. rewrite lookup_delete_ne by congruence. exact Hjob.
Qed.

Lemma job_in_flight_kept (t : nat) (s s' : Main.state) :
  job_in_flight t s -> keeps_jobs s s' -> job_in_flight t s'.
Proof.
  intros (Hjob & Hflag & Hlt & Honly) (Hf & Hn & Hnew & Hold).
  repeat split; [auto | congruence | lia | auto].
Qed.

Lemma suspend_respects (k : Main.task) :
  k <> Main.ProcessTask -> respects keeps_jobs (Main.suspend k).
Proof.
  intros Hk. unfold Main.suspend.
  apply (respects_bind keeps_jobs keeps_jobs_trans);
    [|intros; apply (respects_ret keeps_jobs keeps_jobs_refl)].
  apply respects_modify. intros s. now apply keeps_jobs_suspend.
Qed.

Ltac respect_step :=
  first
    [ apply suspend_respects; discriminate
    | apply (respects_ret keeps_jobs keeps_jobs_refl)
    | apply (respects_throw keeps_jobs keeps_jobs_refl)
    | apply (respects_emit keeps_jobs keeps_jobs_refl)
    | apply (respects_get keeps_jobs keeps_jobs_refl)
    | apply (respects_await keeps_jobs keeps_jobs_refl)
    | apply (respects_embed keeps_jobs keeps_jobs_refl)
    | apply (respects_bind keeps_jobs keeps_jobs_trans); [|intros ?]
    | apply (respects_try_catch keeps_jobs keeps_jobs_trans); [|intros ?]
    | apply respects_zoom; intros; solve [repeat split; cbn; auto]
    | apply respects_modify; intros; solve [repeat split; cbn; auto]
    | match goal with
      | |- respects _ (match ?x with _ => _ end) => destruct x
      end ].

Ltac respect := repeat respect_step.

Lemma handleTakeScreenshot_respects : respects keeps_jobs Main.handleTakeScreenshot.
Proof. unfold Main.handleTakeScreenshot. respect. Qed.

Lemma take_resume_respects (temp : string) (c : Main.capture) :
  respects keeps_jobs (Main.take_resume temp c).
Proof. unfold Main.take_resume. respect. Qed.

Lemma reset_loop_respects (arr i : nat) : respects keeps_jobs (Main.reset_loop arr i).
Proof. unfold Main.reset_loop. respect. Qed.

Lemma reset_resume_respects (arr i : nat) (r : completion unit) :
  respects keeps_jobs (Main.reset_resume arr i r).
Proof. unfold Main.reset_resume. respect. Qed.

Lemma handleProcessAudio_respects (h : Main.recording_host) (file : string) :
  respects keeps_jobs (Main.handleProcessAudio h file).
Proof. unfold Main.handleProcessAudio, Main.on_recorder. respect. Qed.

Lemma handleToggleRecording_respects (userData : string) (h : Main.recording_host) :
  respects keeps_jobs (Main.handleToggleRecording userData h).
Proof. unfold Main.handleToggleRecording, Main.on_recorder. respect. Qed.

Lemma resume_respects (t : nat) (k : Main.task -> option (M Main.state effect Main.status)) :
  k Main.ProcessTask = None ->
  (forall task m, k task = Some m -> respects keeps_jobs m) ->
  respects keeps_jobs (Main.resume t k).
Proof.
  intros Hjob Hk s. unfold Main.resume. eff_unfold.
  destruct (Main.tasks s !! t) as [task|] eqn:Ht; cbn; [|apply keeps_jobs_refl].
  destruct (k task) as [m|] eqn:Hm; cbn; [|apply keeps_jobs_refl].
  specialize (Hk task m Hm (Main.drop_task t s)).
  destruct (m (Main.drop_task t s)) as [[c s'] out]. cbn in *.
  eapply keeps_jobs_trans; [|exact Hk].
  apply keeps_jobs_drop. rewrite Ht. intros [= ->]. congruence.
Qed.

(** ** What handlers send *)

Section Emits.
Context {S E : Type} (P : E -> Prop).

Lemma emits_ret {A} (a : A) : emits (S := S) P (mret a).
Proof. intros s. constructor. Qed.

Lemma emits_throw {A} (e : js_error) : emits (S := S) (A := A) P (throw e).
Proof. intros s. constructor. Qed.

Lemma emits_get : emits (S := S) P get.
Proof. intros s. constructor. Qed.

Lemma emits_await {A} (c : completion A) : emits (S := S) P (await c).
Proof. intros s. constructor. Qed.

Lemma emits_modify (f : S -> S) : emits P (modify f).
Proof. intros s. constructor. Qed.

Lemma emits_emit (e : E) : P e -> emits (S := S) P (emit e).
Proof. intros He s. now repeat constructor. Qed.

Lemma emits_bind {A B} (m : M S E A) (k : A -> M S E B) :
  emits P m -> (forall a, emits P (k a)) -> emits P (m ≫= k).
Proof.
  intros Hm Hk s. unfold mbind, eff_bind, Eff.bind.
  specialize (Hm s). destruct (m s) as [[[a|e] s1] out1]; cbn in *; [|exact Hm].
  specialize (Hk a s1). destruct (k a s1) as [[c s2] out2]. cbn in *.
  apply Forall_app. auto.
Qed.

Lemma emits_try_catch {A} (m : M S E A) (h : js_error -> M S E A) :
  emits P m -> (forall e, emits P (h e)) -> emits P (try_catch m h).
Proof.
  intros Hm Hh s. unfold Eff.try_catch.
  specialize (Hm s). destruct (m s) as [[[a|e] s1] out1]; cbn in *; [exact Hm|].
  specialize (Hh e s1). destruct (h e s1) as [[c s2] out2]. cbn in *.
  apply Forall_app. auto.
Qed.

Lemma emits_finally {A} (m : M S E A) (fin : M S E unit) :
  emits P m -> emits P fin -> emits P (finally m fin).
Proof.
  intros Hm Hf s. unfold Eff.finally.
  specialize (Hm s). destruct (m s) as [[c s1] out1]. cbn in *.
  specialize (Hf s1). destruct (fin s1) as [[[[]|e] s2] out2]; cbn in *;
    apply Forall_app; auto.
Qed.

Lemma emits_zoom {T A} (proj : S -> T) (inj : T -> S -> S) (m : M T E A) :
  emits P m -> emits P (zoom proj inj m).
Proof.
  intros Hm s. unfold Eff.zoom. specialize (Hm (proj s)).
  now destruct (m (proj s)) as [[c t] out].
Qed.

Lemma emits_embed {L A} (init : L) (m : M L E A) :
  emits P m -> emits (S := S) P (embed init m).
Proof.
  intros Hm s. unfold Eff.embed. specialize (Hm init).
  now destruct (m init) as [[c l] out].
Qed.
End Emits.

Ltac quiet_step :=
  first
    [ apply emits_ret | apply emits_throw | apply emits_get | apply emits_await
    | apply emits_modify
    | apply emits_emit; exact I
    | apply emits_bind; [|intros ?]
    | apply emits_try_catch; [|intros ?]
    | apply emits_finally
    | apply emits_zoom
    | match goal with
      | |- emits _ (match ?x with _ => _ end) => destruct x
      end ].

Ltac quiet := repeat quiet_step.

Lemma processAudioStream_emits (P : effect -> Prop) (onChunk : string -> list effect)
    (ready : bool) (audio : string) (st : AudioStream.stream)
    (fallback : completion (option string)) :
  (forall text, Forall P (onChunk text)) ->
  P (SdkStream audio) -> P (SdkFallback audio) ->
  emits P (AudioStream.processAudioStream onChunk ready audio st fallback).
Proof.
  intros Hcb Hstream Hfallback.
  assert (forall text, emits P (AudioStream.call_back onChunk text)) as Hcall
    by (intros text l; apply Hcb).
  assert (forall chunks, emits P (AudioStream.for_await onChunk chunks)) as Hloop.
  { induction chunks as [|c rest IH]; cbn [AudioStream.for_await]; [apply emits_ret|].
    apply emits_bind; [|intros; exact IH].
    unfold AudioStream.on_stream_chunk.
    apply emits_bind; [apply emits_modify|intros _].
    destruct c as [text|]; [|apply emits_ret].
    destruct (String.eqb text ""); [apply emits_ret|].
    apply emits_bind; [apply emits_modify|intros; apply Hcall]. }
  unfold AudioStream.processAudioStream, AudioStream.rethrow.
  destruct ready; cbn [negb]; [|apply emits_throw].
  apply emits_try_catch; [|intros e; destruct e; apply emits_throw].
  apply emits_bind; [now apply emits_emit|intros _].
  destruct st as [e|chunks ending]; [apply emits_throw|].
  apply emits_bind; [apply Hloop|intros _].
  apply emits_bind; [apply emits_await|intros _].
  apply emits_bind; [apply emits_get|intros l].
  destruct (negb (AudioStream.hasReceivedContent l)); [|apply emits_ret].
  apply emits_bind; [now apply emits_emit|intros _].
  apply emits_bind; [apply emits_await|intros reply].
  cbn zeta. destruct (String.eqb (or_else reply "") ""); [apply emits_ret|apply Hcall].
Qed.

(** The recorder and the audio pipeline spawn and stop the recording tool,
    read the recording, call the audio SDK and send the recording and audio
    messages; nothing else. *)
Lemma handleToggleRecording_emits (userData : string) (h : Main.recording_host) :
  emits recording_effect (Main.handleToggleRecording userData h).
Proof.
  unfold Main.handleToggleRecording, Main.on_recorder.
  apply emits_try_catch;
    [|intros e; apply emits_bind; [now apply emits_emit|intros; apply emits_ret]].
  apply emits_bind.
  { apply emits_zoom. unfold Recorder.toggleRecording.
    apply emits_bind; [apply emits_get|intros r]. destruct (Recorder.isRecording r).
    - unfold Recorder.stopRecording, Recorder.verify_and_return. quiet.
    - unfold Recorder.startRecording, Recorder.checkRecordingCapability. quiet. }
  intros [filePath|]; [|apply emits_ret]. apply emits_bind.
  { apply emits_zoom. unfold Recorder.getRecordingStatus. quiet. }
  intros isRecording. apply emits_bind; [now apply emits_emit|intros _].
  apply emits_bind; [|intros; apply emits_ret].
  destruct (negb isRecording && negb (String.eqb filePath "")); [|apply emits_ret].
  unfold Main.handleProcessAudio, Main.on_recorder.
  apply emits_bind; [apply emits_get|intros s].
  destruct (Main.config s) as [cfg|]; [|now apply emits_emit].
  apply emits_try_catch; [|intros e; now apply emits_emit].
  apply emits_bind; [now apply emits_emit|intros _].
  apply emits_bind.
  { apply emits_zoom. unfold Recorder.audioFileToBase64. quiet. }
  intros audio. destruct (String.eqb (provider cfg) "gemini"); [|apply emits_throw].
  apply emits_bind; [|intros; now apply emits_emit].
  apply emits_embed. apply processAudioStream_emits; [|exact I..].
  intros text. now repeat constructor.
Qed.

Lemma emits_weaken {S E A} (P Q : E -> Prop) (m : M S E A) :
  (forall e, P e -> Q e) -> emits P m -> emits Q m.
Proof. intros HPQ Hm s. eapply Forall_impl; [apply Hm|exact HPQ]. Qed.

Lemma suspend_emits (P : effect -> Prop) (k : Main.task) : emits P (Main.suspend k).
Proof. unfold Main.suspend. quiet. Qed.

Lemma resume_emits (P : effect -> Prop) (t : nat)
    (k : Main.task -> option (M Main.state effect Main.status)) :
  (forall task m, k task = Some m -> emits P m) -> emits P (Main.resume t k).
Proof.
  intros Hk s. unfold Main.resume. eff_unfold.
  destruct (Main.tasks s !! t) as [task|]; cbn; [|constructor].
  destruct (k task) as [m|] eqn:Hm; cbn; [|constructor].
  specialize (Hk task m Hm (Main.drop_task t s)).
  now destruct (m (Main.drop_task t s)) as [[c s'] out].
Qed.

Lemma take_emits (P : effect -> Prop) (temp : string) (c : Main.capture) :
  P HideWindow -> P ShowWindow -> (forall f, P (WriteFile f)) ->
  (forall shot, P (Send (ScreenshotTaken shot))) ->
  emits P Main.handleTakeScreenshot /\ emits P (Main.take_resume temp c).
Proof.
  intros Hhide Hshow Hwrite Hsent. split.
  - unfold Main.handleTakeScreenshot.
    apply emits_bind; [apply emits_get|intros s].
    destruct (Nat.leb _ _); [apply emits_ret|].
    apply emits_bind; [now apply emits_emit|intros; apply suspend_emits].
  - unfold Main.take_resume.
    apply emits_bind; [|intros; apply emits_ret].
    apply emits_try_catch; [|intros; now apply emits_emit].
    destruct c as [e|base64 now written]; [apply emits_throw|].
    repeat (apply emits_bind; [|intros ?]);
      first [apply emits_await | apply emits_modify | now apply emits_emit].
Qed.

Lemma reset_loop_emits (P : effect -> Prop) (arr i : nat) :
  (forall f, P (Unlink f)) -> P (Send QueueReset) -> emits P (Main.reset_loop arr i).
Proof.
  intros Hunlink Hreset. unfold Main.reset_loop.
  apply emits_bind; [apply emits_get|intros s].
  destruct (Main.array_at s arr !! i).
  - apply emits_bind; [now apply emits_emit|intros; apply suspend_emits].
  - repeat (apply emits_bind; [|intros ?]);
      first [apply emits_modify | now apply emits_emit | apply emits_ret].
Qed.

Lemma process_emits (P : effect -> Prop) :
  P (Send ProcessingStarted) -> (forall q, P (Send (ProcessingComplete q))) ->
  (forall q, P (CallOpenAI q)) -> (forall q, P (CallGemini q)) ->
  emits P Main.handleProcessScreenshots /\ (forall r, emits P (Main.process_settle r)).
Proof.
  intros Hstart Hdone Hopenai Hgemini.
  assert (forall r, emits P (Main.process_settle r)) as Hsettle.
  { intros r. unfold Main.process_settle.
    apply emits_bind; [|intros; apply emits_ret].
    apply emits_finally; [|apply emits_modify].
    apply emits_try_catch; [|intros e].
    - apply emits_bind; [apply emits_await|intros v].
      apply emits_bind; [apply emits_get|intros s].
      destruct (negb _); [apply emits_ret|now apply emits_emit].
    - apply emits_bind; [apply emits_get|intros s].
      destruct (negb _); [apply emits_ret|now apply emits_emit]. }
  split; [|exact Hsettle]. unfold Main.handleProcessScreenshots.
  apply emits_bind; [apply emits_get|intros s].
  destruct (_ || _); [apply emits_ret|].
  destruct (Main.config s) as [cfg|].
  - apply emits_bind; [apply emits_modify|intros _].
    apply emits_bind; [now apply emits_emit|intros _].
    destruct (String.eqb (provider cfg) "openai").
    { apply emits_bind; [now apply emits_emit|intros; apply suspend_emits]. }
    destruct (String.eqb (provider cfg) "gemini"); [|apply Hsettle].
    apply emits_bind; [now apply emits_emit|intros; apply suspend_emits].
  - apply emits_bind; [now apply emits_emit|intros; apply emits_ret].
Qed.

(** While a job is in flight and the flag is set, nothing but a reset intent
    or the settling of that job changes either. *)
Lemma step_keeps_job (userData temp : string) (t : nat) (i : Main.input) (s : Main.state) :
  job_in_flight t s ->
  leaves_job_alone t i = true ->
  job_in_flight t (snd (fst (Main.step userData temp i s))).
Proof.
  intros Hjob Hi. destruct i as [| | |h| |t' c|t' r|t' r]; cbn [Main.step];
    try discriminate.
  - eapply job_in_flight_kept; [eassumption|]. apply handleTakeScreenshot_respects.
  - rewrite process_noop; [exact Hjob|]. left. apply Hjob.
  - eapply job_in_flight_kept; [eassumption|]. apply handleToggleRecording_respects.
  - exact Hjob.
  - eapply job_in_flight_kept; [eassumption|]. apply resume_respects; [reflexivity|].
    intros [] m [= <-]. apply take_resume_respects.
  - (* the settling of a job other than [t]: there is none *)
    cbn in Hi. apply negb_true_iff, Nat.eqb_neq in Hi.
    unfold Main.resume. eff_unfold.
    destruct (Main.tasks s !! t') as [[]|] eqn:Ht'; cbn; try exact Hjob.
    destruct Hjob as (_ & _ & _ & Honly). now apply Honly in Ht'.
  - eapply job_in_flight_kept; [eassumption|]. apply resume_respects; [reflexivity|].
    intros [] m [= <-]. apply reset_resume_respects.
Qed.

Lemma run_keeps_job (userData temp : string) (t : nat) (inputs : list Main.input)
    (s : Main.state) :
  job_in_flight t s ->
  forallb (leaves_job_alone t) inputs = true ->
  job_in_flight t (fst (Main.run userData temp inputs s)).
Proof.
  revert s. induction inputs as [|i rest IH]; intros s Hjob Hall; [exact Hjob|].
  cbn [forallb] in Hall. apply andb_true_iff in Hall as [Hi Hrest].
  cbn [Main.run]. pose proof (step_keeps_job userData temp t i s Hjob Hi) as Hstep.
  destruct (Main.step userData temp i s) as [[c s1] out1]. cbn in Hstep.
  specialize (IH s1 Hstep Hrest).
  destruct (Main.run userData temp rest s1) as [s2 out2]. exact IH.
Qed.

(** And nothing but those two sends [processing-complete]. *)
Lemma step_quiet (userData temp : string) (t : nat) (i : Main.input) (s : Main.state) :
  job_in_flight t s ->
  leaves_job_alone t i = true ->
  Forall not_processing_complete (snd (Main.step userData temp i s)).
Proof.
  intros Hjob Hi. destruct i as [| | |h| |t' c|t' r|t' r]; cbn [Main.step];
    try discriminate.
  - now apply (take_emits not_processing_complete temp (Main.CaptureFailed (Error ""))).
  - rewrite process_noop; [constructor|]. left. apply Hjob.
  - eapply emits_weaken; [|apply handleToggleRecording_emits].
    intros [[]| | | | | | | | | | |]; easy.
  - unfold Main.handleResetAudioQueue. quiet.
  - apply resume_emits. intros [] m [= <-].
    now apply (take_emits not_processing_complete temp c).
  - cbn in Hi. apply negb_true_iff, Nat.eqb_neq in Hi.
    rewrite resume_miss; [constructor|].
    destruct (Main.tasks s !! t') as [[]|] eqn:Ht'; try reflexivity.
    destruct Hjob as (_ & _ & _ & Honly). now apply Honly in Ht'.
  - apply resume_emits. intros [] m [= <-]. unfold Main.reset_resume.
    apply emits_bind; [quiet|intros _]. now apply reset_loop_emits.
Qed.

Lemma run_quiet (userData temp : string) (t : nat) (inputs : list Main.input)
    (s : Main.state) :
  job_in_flight t s ->
  forallb (leaves_job_alone t) inputs = true ->
  Forall not_processing_complete (snd (Main.run userData temp inputs s)).
Proof.
  revert s. induction inputs as [|i rest IH]; intros s Hjob Hall; [constructor|].
  cbn [forallb] in Hall. apply andb_true_iff in Hall as [Hi Hrest].
  cbn [Main.run]. pose proof (step_keeps_job userData temp t i s Hjob Hi) as Hkeep.
  pose proof (step_quiet userData temp t i s Hjob Hi) as Hquiet.
  destruct (Main.step userData temp i s) as [[c s1] out1]. cbn in Hkeep, Hquiet.
  specialize (IH s1 Hkeep Hrest).
  destruct (Main.run userData temp rest s1) as [s2 out2]. cbn in *.
  apply Forall_app. auto.
Qed.

(** ** How a job ends *)

Lemma process_settle_success (v : json) (s : Main.state) :
  Main.isProcessing s = true ->
  Main.process_settle (Normal v) s =
    (Normal Main.Finished, Main.set_isProcessing false s, [Send (ProcessingComplete v)]).
Proof. intros H. unfold Main.process_settle. eff_unfold. now rewrite H. Qed.

Lemma process_settle_failure (e : js_error) (s : Main.state) :
  Main.isProcessing s = true ->
  Main.process_settle (Thrown e) s =
    (Normal Main.Finished, Main.set_isProcessing false s,
     [Send (ProcessingComplete (Main.error_payload (Main.relevant_message e)))]).
Proof. intros H. unfold Main.process_settle. eff_unfold. now rewrite H. Qed.

(** The check the handler makes for a cancellation: with the flag clear,
    nothing is sent, whatever the call settled with. *)
Lemma process_settle_suppressed (r : completion json) (s : Main.state) :
  Main.isProcessing s = false ->
  Main.process_settle r s = (Normal Main.Finished, Main.set_isProcessing false s, []).
Proof.
  intros H. unfold Main.process_settle. eff_unfold. destruct r; now rewrite H.
Qed.

Lemma job_started_in_flight (s : Main.state) :
  (forall t, Main.tasks s !! t <> Some Main.ProcessTask) ->
  job_in_flight (Main.next_task s) (job_started s).
Proof.
  intros Hnone. unfold job_started. repeat split; cbn.
  - apply lookup_insert_eq.
  - lia.
  - intros t'. rewrite lookup_insert. case_decide; [auto|]. intros Hjob. now apply Hnone in Hjob.
Qed.

Lemma relevant_message_nested (e : js_error) (m : string) :
  nested_message e = Some m -> m <> "" -> Main.relevant_message e = m.
Proof.
  intros H Hm. unfold Main.relevant_message, or_else. rewrite H.
  apply String.eqb_neq in Hm. now rewrite Hm.
Qed.

Lemma relevant_message_plain (e : js_error) (m : string) :
  nested_message e = None -> message e = Some m -> m <> "" ->
  Main.relevant_message e = m.
Proof.
  intros Hn H Hm. unfold Main.relevant_message, or_else. rewrite Hn, H.
  apply String.eqb_neq in Hm. now rewrite Hm.
Qed.

(** What holds of a failed adapter call when no earlier job is still in
    flight at the intent and no reset intervenes: nothing is thrown out of the
    handler and exactly one [processing-complete] is sent for the job: none
    between the intent and the failure, and one when the call settles, whose
    payload has the approach 'Error occurred while processing', both
    complexities 'N/A' and the code 'Error: ' followed by the message of the
    error. *)
Theorem provider_failure_reported (userData temp : string) (cfg : Config)
    (s0 : Main.state) (mid : list Main.input) (e : js_error) :
  Main.isProcessing s0 = false ->
  Main.queue s0 <> [] ->
  Main.config s0 = Some cfg ->
  supported cfg = true ->
  (forall t, Main.tasks s0 !! t <> Some Main.ProcessTask) ->
  forallb (leaves_job_alone (Main.next_task s0)) mid = true ->
  let job := Main.next_task s0 in
  let s1 := snd (fst (Main.step userData temp Main.ProcessScreenshots s0)) in
  let s2 := fst (Main.run userData temp mid s1) in
  let payload := Main.error_payload (Main.relevant_message e) in
  Forall not_processing_complete (snd (Main.run userData temp mid s1))
  /\ Main.step userData temp (Main.ProviderSettled job (Thrown e)) s2
     = (Normal Main.Finished, Main.set_isProcessing false (Main.drop_task job s2),
        [Send (ProcessingComplete payload)])
  /\ get_prop payload "approach" = Some (JStr "Error occurred while processing")
  /\ get_prop payload "timeComplexity" = Some (JStr "N/A")
  /\ get_prop payload "spaceComplexity" = Some (JStr "N/A")
  /\ get_prop payload "code" = Some (JStr ("Error: " +:+ Main.relevant_message e))
  /\ (forall m, m <> "" ->
        nested_message e = Some m \/ (nested_message e = None /\ message e = Some m) ->
        Main.relevant_message e = m).
Proof.
  intros Hflag Hq Hcfg Hsup Hnone Hmid. cbn zeta. split; [|split; [|repeat split]].
  - cbn [Main.step]. rewrite (process_starts cfg s0 Hflag Hq Hcfg Hsup). cbn [fst snd].
    exact (run_quiet userData temp _ mid _ (job_started_in_flight s0 Hnone) Hmid).
  - cbn [Main.step]. rewrite (process_starts cfg s0 Hflag Hq Hcfg Hsup). cbn [fst snd].
    pose proof (run_keeps_job userData temp _ mid _ (job_started_in_flight s0 Hnone) Hmid)
      as (Hjob & Hset & _ & _).
    destruct (Main.run userData temp mid (job_started s0)) as [s2 out2]. cbn [fst] in *.
    unfold Main.resume. eff_unfold. rewrite Hjob. cbn.
    rewrite process_settle_failure by exact Hset. reflexivity.
  - intros m Hm [Hn|[Hn Hp]].
    + now apply relevant_message_nested.
    + now apply relevant_message_plain.
Qed.

Lemma provider_failure_reported_witness :
  let s0 := Main.push one_shot ready in
  let s1 := snd (fst (Main.step "/u" "/tmp" Main.ProcessScreenshots s0)) in
  let s2 := fst (Main.run "/u" "/tmp" [Main.TakeScreenshot; Main.ProcessScreenshots] s1) in
  snd (Main.step "/u" "/tmp" (Main.ProviderSettled 0 (Thrown (Error "429 quota exceeded"))) s2)
  = [Send (ProcessingComplete (Main.error_payload "429 quota exceeded"))].
Proof.
  assert (forall t, Main.tasks (Main.push one_shot ready) !! t <> Some Main.ProcessTask)
    as Hnone by (intros t; cbn; rewrite lookup_empty; discriminate).
  pose proof (provider_failure_reported "/u" "/tmp" gemini_config (Main.push one_shot ready)
                [Main.TakeScreenshot; Main.ProcessScreenshots] (Error "429 quota exceeded")
                eq_refl ltac:(vm_compute; discriminate) eq_refl eq_refl Hnone eq_refl)
    as (_ & Hstep & _).
  cbn zeta in *. change (Main.next_task (Main.push one_shot ready)) with 0 in Hstep.
  rewrite Hstep. reflexivity.
Defined.

(** ** The capacity of the queue *)

(** At capacity a take-screenshot intent does nothing: no capture, no change
    of the queue, no message. *)
Lemma take_at_capacity_noop (userData temp : string) (s : Main.state) :
  Main.MAX_SCREENSHOTS <= length (Main.queue s) ->
  Main.step userData temp Main.TakeScreenshot s = (Normal Main.Finished, s, []).
Proof.
  intros Hfull. cbn [Main.step]. unfold Main.handleTakeScreenshot. eff_unfold.
  apply Nat.leb_le in Hfull. now rewrite Hfull.
Qed.

Lemma queue_push (shot : Screenshot) (s : Main.state) :
  Main.queue (Main.push shot s)
  = match Main.arrays s !! Main.screenshotQueue s with
    | Some q => q ++ [shot]
    | None => []
    end.
Proof.
  unfold Main.queue, Main.array_at, Main.push. cbn.
  rewrite list_lookup_alter_eq. now destruct (Main.arrays s !! Main.screenshotQueue s).
Qed.

Lemma length_queue_push (shot : Screenshot) (s : Main.state) :
  length (Main.queue (Main.push shot s)) <= S (length (Main.queue s)).
Proof.
  rewrite queue_push. unfold Main.queue, Main.array_at.
  destruct (Main.arrays s !! Main.screenshotQueue s); cbn; [|lia].
  rewrite length_app. cbn. lia.
Qed.

Lemma take_below_capacity (s : Main.state) :
  length (Main.queue s) < Main.MAX_SCREENSHOTS ->
  Main.handleTakeScreenshot s =
    (Normal Main.Suspended,
     Main.set_next_task (S (Main.next_task s))
       (Main.set_tasks (<[Main.next_task s := Main.TakeTask]> (Main.tasks s)) s),
     [HideWindow]).
Proof.
  intros Hlen. unfold Main.handleTakeScreenshot, Main.suspend. eff_unfold.
  apply Nat.leb_gt in Hlen. now rewrite Hlen.
Qed.

Lemma take_resume_queue (temp : string) (c : Main.capture) (s : Main.state) :
  let s' := snd (fst (Main.take_resume temp c s)) in
  Main.tasks s' = Main.tasks s
  /\ length (Main.queue s') <= S (length (Main.queue s)).
Proof.
  unfold Main.take_resume. eff_unfold.
  destruct c as [e|base64 now [[]|e]]; cbn; try (split; [reflexivity|lia]).
  split; [reflexivity|]. apply length_queue_push.
Qed.

(** One intent handled to its end before anything else arrives. *)
Lemma take_then_settle (userData temp : string) (c : Main.capture) (s : Main.state) :
  Main.tasks s = ∅ ->
  length (Main.queue s) <= Main.MAX_SCREENSHOTS ->
  let s' := fst (Main.run userData temp
                   [Main.TakeScreenshot; Main.CaptureSettled (Main.next_task s) c] s) in
  Main.tasks s' = ∅ /\ length (Main.queue s') <= Main.MAX_SCREENSHOTS.
Proof.
  intros Hidle Hlen. cbn zeta. cbn [Main.run Main.step].
  destruct (Nat.le_gt_cases Main.MAX_SCREENSHOTS (length (Main.queue s))) as [Hfull|Hroom].
  - (* at capacity: the intent is dropped and there is nothing to settle *)
    pose proof (take_at_capacity_noop userData temp s Hfull) as Hnoop.
    cbn [Main.step] in Hnoop. rewrite Hnoop.
    rewrite resume_miss by (rewrite Hidle, lookup_empty; reflexivity).
    cbn. auto.
  - rewrite (take_below_capacity s Hroom).
    erewrite resume_hit by (cbn; rewrite lookup_insert_eq; reflexivity).
    match goal with
    | |- context [Main.take_resume temp c ?st] =>
        pose proof (take_resume_queue temp c st) as [Htasks Hqueue];
        destruct (Main.take_resume temp c st) as [[c' s'] out]
    end.
    cbn in *. rewrite Htasks, Hidle, delete_insert_eq, delete_empty.
    split; [reflexivity|].
    change (length (Main.queue s') <= S (length (Main.queue s))) in Hqueue.
    unfold Main.MAX_SCREENSHOTS in *. lia.
Qed.

(** When every capture settles before the next intent arrives, the queue
    never holds more than four screenshots. *)
Lemma sequential_takes_bounded (userData temp : string) (cs : list Main.capture)
    (s : Main.state) :
  Main.tasks s = ∅ ->
  length (Main.queue s) <= Main.MAX_SCREENSHOTS ->
  length (Main.queue (take_each userData temp cs s)) <= Main.MAX_SCREENSHOTS.
Proof.
  revert s. induction cs as [|c rest IH]; intros s Hidle Hlen; [exact Hlen|].
  cbn [take_each]. destruct (take_then_settle userData temp c s Hidle Hlen) as [Hidle' Hlen'].
  now apply IH.
Qed.

(** C2, where the code departs from it: the guard is read before the
    handler's awaits and the push comes after them, so five intents that
    arrive before the first capture has settled all pass the guard and the
    queue ends with five screenshots. *)
Theorem overlapping_takes_exceed_capacity :
  Main.queue ready = []
  /\ length (Main.queue (fst (Main.run "/u" "/tmp" five_overlapping_takes ready))) = 5
  /\ map path (Main.queue (fst (Main.run "/u" "/tmp" five_overlapping_takes ready)))
     = ["/tmp/screenshots/1.png"; "/tmp/screenshots/2.png"; "/tmp/screenshots/3.png";
        "/tmp/screenshots/4.png"; "/tmp/screenshots/5.png"].
Proof. repeat split; vm_compute; reflexivity. Qed.

(** ** A reset while a job is in flight *)

(** C3, where the code departs from it: the handler tells a cancelled job by
    the flag being clear when the call settles.  After a reset, a new job sets
    the flag again; when the call of the cancelled job settles next, its
    result is sent as [processing-complete] after the reset, and its cleanup
    clears the flag of the new job, whose own result is then dropped. *)
Theorem stale_result_after_reset :
  let '(s, out) := Main.run "/u" "/tmp" reset_then_process_again ready in
  In (Send QueueReset) out
  /\ map path (Main.queue s) = ["/tmp/screenshots/2.png"]
  /\ snd (Main.step "/u" "/tmp" (Main.ProviderSettled 1 (Normal stale_result)) s)
     = [Send (ProcessingComplete stale_result)]
  /\ snd (Main.step "/u" "/tmp"
            (Main.ProviderSettled 1 (Thrown (Error "timeout"))) s)
     = [Send (ProcessingComplete (Main.error_payload "timeout"))]
  /\ snd (Main.run "/u" "/tmp"
            [Main.ProviderSettled 1 (Normal stale_result);
             Main.ProviderSettled 4 (Normal fresh_result)] s)
     = [Send (ProcessingComplete stale_result)].
Proof.
  vm_compute. repeat split; try reflexivity. tauto.
Qed.

(** C4, where the code departs from it: a job whose adapter call fails while
    the call of an earlier job, cancelled by a reset before this job was
    started, is still pending.  No reset arrives during the job.  The call of
    the cancelled job settles first: its result is sent as
    [processing-complete] and its cleanup clears the flag of the job; when
    the job's own call then fails, the handler takes it for cancelled and
    drops the failure: no error-shaped result is sent for it. *)
Theorem provider_failure_dropped_behind_stale_job :
  let failure := Thrown (Error "429 quota exceeded") in
  let s := fst (Main.run "/u" "/tmp" reset_then_process_again ready) in
  let s1 := snd (fst (Main.step "/u" "/tmp"
                        (Main.ProviderSettled 1 (Normal stale_result)) s)) in
  Main.tasks s !! 4 = Some Main.ProcessTask
  /\ Main.isProcessing s = true
  /\ forallb (leaves_job_alone 4) [Main.ProviderSettled 1 (Normal stale_result)] = true
  /\ snd (Main.step "/u" "/tmp" (Main.ProviderSettled 1 (Normal stale_result)) s)
     = [Send (ProcessingComplete stale_result)]
  /\ Main.tasks s1 !! 4 = Some Main.ProcessTask
  /\ Main.isProcessing s1 = false
  /\ Main.step "/u" "/tmp" (Main.ProviderSettled 4 failure) s1
     = (Normal Main.Finished, Main.drop_task 4 s1, [])
  /\ snd (Main.run "/u" "/tmp"
            [Main.ProviderSettled 1 (Normal stale_result); Main.ProviderSettled 4 failure] s)
     = [Send (ProcessingComplete stale_result)].
Proof. vm_compute. repeat split. Qed.

(** Without a new job in between, the result of the cancelled job is dropped
    as the specification says. *)
Example stale_result_dropped_when_idle :
  snd (Main.run "/u" "/tmp"
         [Main.TakeScreenshot; Main.CaptureSettled 0 (shot_at 1);
          Main.ProcessScreenshots;
          Main.ResetQueue; Main.UnlinkSettled 2 (Normal tt);
          Main.ProviderSettled 1 (Normal stale_result)] ready)
  = [HideWindow; WriteFile "/tmp/screenshots/1.png"; ShowWindow;
     Send (ScreenshotTaken one_shot);
     Send ProcessingStarted; CallGemini ["data:image/png;base64,QUJD"];
     Send (ProcessingComplete Main.cancelled_payload);
     Unlink "/tmp/screenshots/1.png"; Send QueueReset].
Proof. vm_compute. reflexivity. Qed.

(** ** Reset *)

Lemma reset_resume_loop (arr i : nat) (r : completion unit) (s : Main.state) :
  Main.reset_resume arr i r s = Main.reset_loop arr (S i) s.
Proof.
  unfold Main.reset_resume. eff_unfold.
  destruct r as [[]|e]; cbn; now destruct (Main.reset_loop arr (S i) s) as [[c s'] out].
Qed.

Lemma queue_fresh (s : Main.state) : Main.queue (Main.fresh_queue s) = [].
Proof.
  unfold Main.queue, Main.array_at, Main.fresh_queue. cbn.
  now rewrite list_lookup_middle.
Qed.

(** The loop of [handleResetQueue] from element [i] on, each deletion
    answered in turn: every remaining file is unlinked once, in order,
    whatever the outcome of the deletions, and then the queue is empty. *)
Lemma reset_loop_run (userData temp : string) (arr : nat) (rs : list (completion unit)) :
  forall (i : nat) (s : Main.state),
    length rs + i = length (Main.array_at s arr) ->
    let '(_, s1, out1) := Main.reset_loop arr i s in
    let '(s2, out2) :=
      Main.run userData temp (App.unlink_replies (Main.next_task s) rs) s1 in
    Main.queue s2 = []
    /\ Main.isProcessing s2 = Main.isProcessing s
    /\ out1 ++ out2 = deletions (drop i (Main.array_at s arr)) ++ [Send QueueReset].
Proof.
  induction rs as [|r rest IH]; intros i s Hlen.
  - cbn in Hlen. unfold Main.reset_loop. eff_unfold.
    rewrite lookup_ge_None_2 by lia. cbn.
    rewrite drop_ge by lia. rewrite queue_fresh. auto.
  - cbn [length] in Hlen.
    destruct (lookup_lt_is_Some_2 (Main.array_at s arr) i ltac:(lia)) as [shot Hshot].
    unfold Main.reset_loop at 1. unfold Main.suspend. eff_unfold. rewrite Hshot. cbn.
    erewrite resume_hit by (cbn; rewrite lookup_insert_eq; reflexivity).
    rewrite reset_resume_loop.
    match goal with
    | |- context [Main.reset_loop arr (S i) ?st] =>
        specialize (IH (S i) st); change (Main.next_task st) with (S (Main.next_task s)) in IH;
        change (Main.array_at st arr) with (Main.array_at s arr) in IH;
        change (Main.isProcessing st) with (Main.isProcessing s) in IH;
        destruct (Main.reset_loop arr (S i) st) as [[c s1] out1]
    end.
    specialize (IH ltac:(lia)).
    destruct (Main.run userData temp _ s1) as [s2 out2].
    destruct IH as (Hq & Hflag & Hout). repeat split; [exact Hq | exact Hflag |].
    rewrite (drop_S _ _ _ Hshot). cbn. f_equal. exact Hout.
Qed.

Lemma reset_queue_spec (userData temp : string) (rs : list (completion unit))
    (m : Main.state) :
  length rs = length (Main.queue m) ->
  let '(m1, out) := App.reset_queue userData temp rs m in
  Main.queue m1 = []
  /\ Main.isProcessing m1 = false
  /\ out = cancel_notice m ++ deletions (Main.queue m) ++ [Send QueueReset].
Proof.
  intros Hlen. unfold App.reset_queue. cbn [Main.run Main.step].
  unfold Main.handleResetQueue, cancel_notice. eff_unfold.
  destruct (Main.isProcessing m) eqn:Hflag; cbn.
  - pose proof (reset_loop_run userData temp (Main.screenshotQueue m) rs 0
                  (Main.set_isProcessing false m)) as H.
    change (Main.array_at (Main.set_isProcessing false m) (Main.screenshotQueue m))
      with (Main.queue m) in H.
    change (Main.next_task (Main.set_isProcessing false m)) with (Main.next_task m) in H.
    specialize (H ltac:(lia)).
    destruct (Main.reset_loop _ 0 _) as [[c s1] out1].
    destruct (Main.run userData temp _ s1) as [s2 out2].
    destruct H as (Hq & Hf & Hout). cbn in Hf. rewrite drop_0 in Hout.
    repeat split; [exact Hq | exact Hf |]. cbn. f_equal. exact Hout.
  - pose proof (reset_loop_run userData temp (Main.screenshotQueue m) rs 0 m) as H.
    change (Main.array_at m (Main.screenshotQueue m)) with (Main.queue m) in H.
    specialize (H ltac:(lia)).
    destruct (Main.reset_loop _ 0 _) as [[c s1] out1].
    destruct (Main.run userData temp _ s1) as [s2 out2].
    destruct H as (Hq & Hf & Hout). rewrite drop_0 in Hout.
    repeat split; [exact Hq | congruence |]. cbn. exact Hout.
Qed.

Lemma handleResetQueue_loop (s : Main.state) :
  Main.handleResetQueue s =
    let '(c, s', out) :=
      Main.reset_loop (Main.screenshotQueue s) 0
        (if Main.isProcessing s then Main.set_isProcessing false s else s) in
    (c, s', cancel_notice s ++ out).
Proof.
  unfold Main.handleResetQueue, cancel_notice. eff_unfold.
  destruct (Main.isProcessing s); cbn;
    now destruct (Main.reset_loop _ 0 _) as [[c s'] out].
Qed.

Lemma emits_not_in {A} (m : M Main.state effect A) (s : Main.state) :
  emits not_queue_reset m -> ~ In (Send QueueReset) (snd (m s)).
Proof.
  intros Hm Hin. specialize (Hm s). rewrite Forall_forall in Hm.
  apply (Hm (Send QueueReset)). now apply list_elem_of_In.
Qed.

Lemma reset_loop_done (arr i : nat) (s : Main.state) :
  In (Send QueueReset) (snd (Main.reset_loop arr i s)) ->
  Main.queue (snd (fst (Main.reset_loop arr i s))) = [].
Proof.
  unfold Main.reset_loop, Main.suspend. eff_unfold.
  destruct (Main.array_at s arr !! i); cbn.
  - intros [H|[]]. discriminate.
  - intros _. apply queue_fresh.
Qed.

(** Whatever else arrives while the deletions of a reset are pending, the
    queue is empty when the reset ends. *)
Lemma queue_reset_means_empty (userData temp : string) (i : Main.input) (s : Main.state) :
  In (Send QueueReset) (snd (Main.step userData temp i s)) ->
  Main.queue (snd (fst (Main.step userData temp i s))) = [].
Proof.
  destruct i as [| | |h| |t c|t r|t r]; cbn [Main.step]; intros Hin.
  - exfalso. revert Hin. apply emits_not_in.
    now apply (take_emits not_queue_reset temp (Main.CaptureFailed (Error ""))).
  - exfalso. revert Hin. apply emits_not_in. now apply process_emits.
  - rewrite handleResetQueue_loop in *.
    match goal with
    | _ : context [Main.reset_loop ?arr 0 ?st] |- _ =>
        pose proof (reset_loop_done arr 0 st) as Hdone;
        destruct (Main.reset_loop arr 0 st) as [[c s'] out]
    end.
    cbn in *. apply Hdone. apply in_app_or in Hin as [Hin|Hin]; [|exact Hin].
    unfold cancel_notice in Hin. destruct (Main.isProcessing s); [|destruct Hin].
    destruct Hin as [Hin|[]]. discriminate.
  - exfalso. revert Hin. apply emits_not_in.
    eapply emits_weaken; [|apply handleToggleRecording_emits].
    intros [[]| | | | | | | | | | |]; easy.
  - exfalso. revert Hin. apply emits_not_in. unfold Main.handleResetAudioQueue. quiet.
  - exfalso. revert Hin. apply emits_not_in. apply resume_emits. intros [] m [= <-].
    now apply (take_emits not_queue_reset temp c).
  - exfalso. revert Hin. apply emits_not_in. apply resume_emits. intros [] m [= <-].
    now apply process_emits.
  - destruct (Main.tasks s !! t) as [[| |arr j]|] eqn:Ht.
    + rewrite resume_miss in Hin by (rewrite Ht; reflexivity). destruct Hin.
    + rewrite resume_miss in Hin by (rewrite Ht; reflexivity). destruct Hin.
    + erewrite resume_hit in * by (rewrite Ht; reflexivity).
      rewrite reset_resume_loop in *. now apply reset_loop_done.
    + rewrite resume_miss in Hin by (rewrite Ht; reflexivity). destruct Hin.
Qed.

Lemma deliver_app (now : N) (out1 out2 : list effect) (r : Renderer.state) :
  Renderer.deliver now (out1 ++ out2) r
  = Renderer.deliver now out2 (Renderer.deliver now out1 r).
Proof.
  revert r. induction out1 as [|e out1 IH]; intros r; [reflexivity|].
  cbn. destruct e; auto.
Qed.

Lemma deliver_deletions (now : N) (q : list Screenshot) (r : Renderer.state) :
  Renderer.deliver now (deletions q) r = r.
Proof. induction q as [|shot q IH]; [reflexivity|exact IH]. Qed.

(** What the renderer shows after the messages of one reset. *)
Lemma deliver_reset (now : N) (m : Main.state) (r : Renderer.state) :
  let r' :=
    Renderer.deliver now
      (cancel_notice m ++ deletions (Main.queue m) ++ [Send QueueReset]) r in
  Renderer.screenshots r' = []
  /\ Renderer.history r'
     = (if Main.isProcessing m then [history_item now Main.cancelled_payload] else [])
       ++ Renderer.history r.
Proof.
  cbn zeta. rewrite !deliver_app, deliver_deletions. unfold cancel_notice.
  destruct (Main.isProcessing m); split; reflexivity.
Qed.

(** C9, where the code departs from it: the global shortcut for reset-all
    runs [handleResetQueue] of the main process and nothing else.  The queue
    is emptied, but the renderer's listener for [queue-reset] clears the
    previews only and the history stays as it was.  The same reset issued by
    the renderer's own [handleReset] does clear it. *)
Lemma reset_keeps_history_counterexample :
  let after := App.shortcut_reset "/u" "/tmp" 9 [] (ready, with_history) in
  Main.queue (fst after) = []
  /\ Renderer.history (snd after) = [old_item]
  /\ Renderer.history (snd after) <> []
  /\ Renderer.history (snd (App.handleReset "/u" "/tmp" 9 [] (ready, with_history))) = [].
Proof. vm_compute. repeat split. discriminate. Qed.

(** What a reset does on each of its two ways.  Whatever the prior state, a
    reset handled by the main process clears the single-flight flag, attempts
    the deletion of every queued screenshot file once, in order and whatever
    the outcome of the deletions, and leaves the queue empty; the renderer
    then empties its preview list and keeps its history (to which the notice
    of a cancelled job is added).  The history is cleared when the reset is
    the renderer's own [handleReset], which clears it after the two calls to
    the main process.  Whatever arrives while the deletions are pending, the
    queue is empty at the moment a reset ends. *)
Theorem reset_all_effect (userData temp : string) (now : N) (rs : list (completion unit))
    (m : Main.state) (r : Renderer.state) :
  length rs = length (Main.queue m) ->
  let '(m1, out) := App.reset_queue userData temp rs m in
  let by_shortcut := snd (App.shortcut_reset userData temp now rs (m, r)) in
  let by_renderer := snd (App.handleReset userData temp now rs (m, r)) in
  Main.queue m1 = []
  /\ Main.isProcessing m1 = false
  /\ out = cancel_notice m ++ deletions (Main.queue m) ++ [Send QueueReset]
  /\ Renderer.screenshots by_shortcut = []
  /\ Renderer.history by_shortcut
     = (if Main.isProcessing m then [history_item now Main.cancelled_payload] else [])
       ++ Renderer.history r
  /\ Renderer.screenshots by_renderer = []
  /\ Renderer.history by_renderer = []
  /\ (forall i s, In (Send QueueReset) (snd (Main.step userData temp i s)) ->
                  Main.queue (snd (fst (Main.step userData temp i s))) = []).
Proof.
  intros Hlen. pose proof (reset_queue_spec userData temp rs m Hlen) as H.
  pose proof (queue_reset_means_empty userData temp) as Hany.
  unfold App.shortcut_reset, App.handleReset. cbn [fst snd].
  destruct (App.reset_queue userData temp rs m) as [m1 out].
  destruct H as (Hq & Hflag & ->). cbn zeta.
  destruct (deliver_reset now m r) as [Hshots Hhist].
  repeat split; assumption.
Qed.

Lemma reset_all_effect_witness :
  let '(m1, out) :=
    App.reset_queue "/u" "/tmp" [Thrown (Error "EPERM")] (Main.push one_shot ready) in
  Main.queue m1 = []
  /\ out = [Unlink "/tmp/screenshots/1.png"; Send QueueReset].
Proof.
  pose proof (reset_all_effect "/u" "/tmp" 9 [Thrown (Error "EPERM")]
                (Main.push one_shot ready) with_history eq_refl) as H.
  destruct (App.reset_queue _ _ _ _) as [m1 out].
  destruct H as (Hq & _ & Hout & _). split; [exact Hq | exact Hout].
Defined.

(** * Further properties of the code *)

(** ** Strings, further *)

Lemma string_append_assoc (a b c : string) : (a +:+ b) +:+ c = a +:+ (b +:+ c).
Proof. induction a as [|x a IH]; [reflexivity|]. rewrite !append_cons. now f_equal. Qed.

Lemma string_append_nil_r (a : string) : a +:+ "" = a.
Proof. induction a as [|x a IH]; [reflexivity|]. rewrite append_cons. now f_equal. Qed.

Lemma string_length_append (a b : string) :
  String.length (a +:+ b) = String.length a + String.length b.
Proof. induction a as [|x a IH]; [reflexivity|]. rewrite append_cons. cbn. now f_equal. Qed.

Lemma string_append_inj_r (a b t : string) : a +:+ t = b +:+ t -> a = b.
Proof.
  revert b. induction a as [|x a IH]; intros [|y b] H.
  - reflexivity.
  - apply (f_equal String.length) in H. rewrite append_nil_l, string_length_append in H.
    cbn in H. lia.
  - apply (f_equal String.length) in H. rewrite append_nil_l, string_length_append in H.
    cbn in H. lia.
  - rewrite !append_cons in H. injection H as -> H. f_equal. auto.
Qed.

(** ** The recorder: tools, device and file names *)

(** Two questions are recorded to the same file only when they have the same
    number. *)
Lemma question_path_inj (userData : string) (n m : N) :
  Recorder.question_path userData n = Recorder.question_path userData m -> n = m.
Proof.
  unfold Recorder.question_path, path_join, show. intros H.
  do 3 apply String.app_inj in H. apply string_append_inj_r in H.
  now apply pretty_N_inj in H.
Qed.

Lemma startRecording_no_tool (userData : string) (available : string -> bool)
    (r : Recorder.t) :
  Recorder.isRecording r = false ->
  List.find available ["arecord"; "sox"; "ffmpeg"] = None ->
  Recorder.startRecording userData available r =
    (Thrown (Error ("Failed to start recording: Error: No audio recording tool found. "
                    +:+ "Please install arecord, sox, or ffmpeg.")),
     Recorder.set_isRecording false
       (Recorder.set_outputPath
          (Recorder.question_path userData (Recorder.questionCounter r)) r),
     []).
Proof.
  intros Hrec Htool. unfold Recorder.startRecording, Recorder.checkRecordingCapability.
  eff_unfold. rewrite Hrec, Htool. reflexivity.
Qed.

(** X1: the audio device chosen in the configuration has no part in a
    recording: whatever [updateConfig] has stored, [startRecording] returns
    the same, spawns the same command with the same arguments and changes the
    other variables of the recorder in the same way. *)
Theorem recording_device_is_ignored (userData : string) (available : string -> bool)
    (deviceId : string) (r : Recorder.t) :
  Recorder.startRecording userData available (Recorder.updateConfig deviceId r)
  = let '(c, r', out) := Recorder.startRecording userData available r in
    (c, Recorder.updateConfig deviceId r', out).
Proof.
  unfold Recorder.startRecording, Recorder.checkRecordingCapability. eff_unfold.
  destruct r as [rec proc out n dev]. cbn [Recorder.isRecording Recorder.updateConfig].
  destruct rec; [reflexivity|].
  destruct (List.find available _); reflexivity.
Qed.

(** X2: an idle recorder starts the first of [arecord], [sox] and [ffmpeg]
    that is installed, as one child process whose last argument is the file
    of the current question, and returns that file; with none of them
    installed it throws 'Failed to start recording: Error: No audio recording
    tool found...', spawns nothing and stays idle.  The question counter is
    not changed by a start. *)
Theorem recording_tool_choice (userData : string) (available : string -> bool)
    (r : Recorder.t) :
  Recorder.isRecording r = false ->
  let file := Recorder.question_path userData (Recorder.questionCounter r) in
  let '(c, r', out) := Recorder.startRecording userData available r in
  match List.find available ["arecord"; "sox"; "ffmpeg"] with
  | Some tool =>
      c = Normal file
      /\ out = [Spawn tool (Recorder.recorder_args tool file)]
      /\ last (Recorder.recorder_args tool file) = Some file
      /\ Recorder.isRecording r' = true
  | None =>
      c = Thrown (Error ("Failed to start recording: Error: No audio recording tool found. "
                         +:+ "Please install arecord, sox, or ffmpeg."))
      /\ out = []
      /\ Recorder.isRecording r' = false
  end
  /\ Recorder.questionCounter r' = Recorder.questionCounter r.
Proof.
  intros Hrec. cbn zeta.
  destruct (List.find available _) as [tool|] eqn:Hfind.
  - rewrite (startRecording_success _ _ _ _ Hrec Hfind). cbn zeta.
    repeat split.
    apply find_some in Hfind as [Hin _].
    cbn in Hin. destruct Hin as [<-|[<-|[<-|[]]]]; reflexivity.
  - rewrite (startRecording_no_tool _ _ _ Hrec Hfind). repeat split.
Qed.

Lemma recording_tool_choice_witness :
  snd (Recorder.startRecording "/u" (fun cmd => (cmd =? "ffmpeg")%string) Recorder.initial)
  = [Spawn "ffmpeg"
       ["-f"; "pulse"; "-i"; "default"; "-ac"; "1"; "-ar"; "16000"; "-acodec"; "pcm_s16le";
        "/u/recordings/question-1.wav"]].
Proof.
  pose proof (recording_tool_choice "/u" (fun cmd => (cmd =? "ffmpeg")%string)
                Recorder.initial eq_refl) as H.
  vm_compute in H. vm_compute. exact (proj1 (proj2 (proj1 H))).
Defined.

Lemma record_question_ok (userData : string) (available : string -> bool) (tool : string)
    (stop : bool * N) (r : Recorder.t) :
  Recorder.isRecording r = false ->
  List.find available ["arecord"; "sox"; "ffmpeg"] = Some tool ->
  completes stop ->
  exists r' out,
    record_question userData available stop r
    = (Normal (Fulfilled (Recorder.question_path userData (Recorder.questionCounter r))),
       r', out)
    /\ Recorder.isRecording r' = false
    /\ Recorder.questionCounter r' = (Recorder.questionCounter r + 1)%N.
Proof.
  intros Hrec Hfind [Hcloses Hsize]. unfold record_question.
  unfold mbind, eff_bind, Eff.bind.
  rewrite (startRecording_success _ _ _ _ Hrec Hfind). cbn zeta.
  rewrite Hcloses, stopRecording_success by (assumption || reflexivity).
  cbn. eauto.
Qed.

(** X3: questions recorded one after the other, each stopped while its tool
    is still running (so that the child closes after the signal) and with a
    file that has content, are written to [question-<n>.wav],
    [question-<n+1>.wav] and so on from the counter the recorder starts with:
    no two of them to the same file, and the counter ends that many higher,
    with the recorder idle. *)
Theorem recordings_are_numbered (userData : string) (available : string -> bool)
    (stops : list (bool * N)) (r : Recorder.t) :
  Recorder.isRecording r = false ->
  List.find available ["arecord"; "sox"; "ffmpeg"] <> None ->
  Forall completes stops ->
  let '(files, r') := record_questions userData available stops r in
  files = map (fun k => Normal (Fulfilled (Recorder.question_path userData
                                             (Recorder.questionCounter r + N.of_nat k))))
              (seq 0 (length stops))
  /\ NoDup files
  /\ Recorder.questionCounter r' = (Recorder.questionCounter r + N.of_nat (length stops))%N
  /\ Recorder.isRecording r' = false.
Proof.
  intros Hrec Htool Hstops.
  destruct (List.find available _) as [tool|] eqn:Hfind; [clear Htool|congruence].
  assert (let '(files, r') := record_questions userData available stops r in
          files = map (fun k => Normal (Fulfilled (Recorder.question_path userData
                                          (Recorder.questionCounter r + N.of_nat k))))
                      (seq 0 (length stops))
          /\ Recorder.questionCounter r'
             = (Recorder.questionCounter r + N.of_nat (length stops))%N
          /\ Recorder.isRecording r' = false) as H.
  { revert r Hrec. induction Hstops as [|stop rest Hstop Hrest IH]; intros r Hrec.
    - cbn. rewrite N.add_0_r. auto.
    - cbn [record_questions].
      destruct (record_question_ok userData available tool stop r Hrec Hfind Hstop)
        as (r1 & out & -> & Hrec1 & Hn1).
      specialize (IH r1 Hrec1).
      destruct (record_questions userData available rest r1) as [cs r2].
      destruct IH as (-> & Hn2 & Hrec2). cbn [length seq map].
      rewrite N.add_0_r. split; [|split; [lia|exact Hrec2]].
      f_equal. rewrite <- seq_shift, map_map. apply map_ext. intros k.
      do 3 f_equal. lia. }
  destruct (record_questions userData available stops r) as [files r'].
  destruct H as (-> & Hn & Hidle). repeat split; try assumption.
  apply NoDup_fmap_2; [|apply NoDup_seq].
  intros j k [= Hjk]. apply question_path_inj in Hjk. lia.
Qed.

Lemma recordings_are_numbered_witness :
  fst (record_questions "/u" (fun cmd => (cmd =? "sox")%string)
         [(true, 2048%N); (true, 4096%N)] Recorder.initial)
  = [Normal (Fulfilled "/u/recordings/question-1.wav");
     Normal (Fulfilled "/u/recordings/question-2.wav")].
Proof.
  assert (List.find (fun cmd => (cmd =? "sox")%string) ["arecord"; "sox"; "ffmpeg"] <> None)
    as Htool by (vm_compute; discriminate).
  assert (Forall completes [(true, 2048%N); (true, 4096%N)]) as Hstops
    by (repeat constructor; discriminate).
  pose proof (recordings_are_numbered "/u" (fun cmd => (cmd =? "sox")%string)
                [(true, 2048%N); (true, 4096%N)] Recorder.initial eq_refl Htool Hstops)
    as H.
  destruct (record_questions _ _ _ _) as [files r']. destruct H as (-> & _).
  vm_compute. reflexivity.
Defined.

(** ** The audio job *)

(** X4: how [processAudioStream] fails.  Without a client it throws 'Google
    AI client not initialized...' before any call.  A streaming call that is
    rejected, a stream that breaks off and a fallback call that is rejected are
    rethrown: as 'Gemini audio processing failed: ' followed by the message
    when what was thrown is an [Error] object, and as 'Unknown error occurred
    during Gemini audio processing' when it is any other value, whatever
    [message] it carries.  The content chunks that arrived before a stream
    broke off have been handed to the callback by then, and no fallback call
    is made for a stream that broke off, whether or not it had carried
    content. *)
Theorem audio_stream_failures (onChunk : string -> list effect) (audio : string)
    (chunks : list (option string)) (e : js_error)
    (fallback : completion (option string)) (l : AudioStream.locals) :
  AudioStream.processAudioStream onChunk false audio (AudioStream.Stream chunks (Normal tt))
    fallback l
  = (Thrown (Error "Google AI client not initialized. Please configure your API key."), l, [])
  /\ (let '(c, _, out) :=
        AudioStream.processAudioStream onChunk true audio (AudioStream.StreamRejected e)
          fallback l in
      c = Thrown (audio_failure e) /\ out = [SdkStream audio])
  /\ (let '(c, _, out) :=
        AudioStream.processAudioStream onChunk true audio
          (AudioStream.Stream chunks (Thrown e)) fallback l in
      c = Thrown (audio_failure e)
      /\ out = SdkStream audio :: concat (map onChunk (AudioStream.contents chunks)))
  /\ (AudioStream.contents chunks = [] ->
      let '(c, _, out) :=
        AudioStream.processAudioStream onChunk true audio
          (AudioStream.Stream chunks (Normal tt)) (Thrown e) AudioStream.start in
      c = Thrown (audio_failure e) /\ out = [SdkStream audio; SdkFallback audio]).
Proof.
  unfold AudioStream.processAudioStream, audio_failure, AudioStream.rethrow.
  split; [reflexivity|]. cbn [negb]. split; [|split].
  - eff_unfold. cbn. destruct e; cbn; auto.
  - eff_unfold. cbn -[bool_decide]. rewrite for_await_spec. cbn -[bool_decide].
    destruct e; cbn; rewrite ?app_nil_r; auto.
  - intros Hnone. eff_unfold. cbn -[bool_decide]. rewrite for_await_spec, Hnone. cbn.
    destruct e; cbn; auto.
Qed.

Lemma audio_stream_failures_witness :
  AudioStream.processAudioStream send_chunk true "QUJD"
    (AudioStream.Stream [Some "Hello "; None] (Thrown (Error "503 overloaded")))
    (Normal (Some "unused")) AudioStream.start
  = (Thrown (Error "Gemini audio processing failed: 503 overloaded"),
     {| AudioStream.chunkCount := 2; AudioStream.hasReceivedContent := true |},
     [SdkStream "QUJD"; Send (AudioStreamChunk "Hello ")])
  /\ AudioStream.processAudioStream send_chunk true "QUJD"
       (AudioStream.StreamRejected (ThrownValue "[object Object]" (Some "quota") None))
       (Normal (Some "unused")) AudioStream.start
     = (Thrown (Error "Unknown error occurred during Gemini audio processing"),
        AudioStream.start, [SdkStream "QUJD"]).
Proof.
  pose proof (audio_stream_failures send_chunk "QUJD" [Some "Hello "; None]
                (Error "503 overloaded") (Normal (Some "unused")) AudioStream.start)
    as (_ & _ & Hbroken & _).
  pose proof (audio_stream_failures send_chunk "QUJD" []
                (ThrownValue "[object Object]" (Some "quota") None) (Normal (Some "unused"))
                AudioStream.start)
    as (_ & Hrejected & _).
  split.
  - destruct (AudioStream.processAudioStream _ _ _ (AudioStream.Stream _ _) _ _)
      as [[c l] out] eqn:Hrun.
    destruct Hbroken as [-> ->]. f_equal. f_equal.
    apply (f_equal (fun x => snd (fst x))) in Hrun. cbn [fst snd] in Hrun. subst l.
    vm_compute. reflexivity.
  - destruct (AudioStream.processAudioStream _ _ _ (AudioStream.StreamRejected _) _ _)
      as [[c l] out] eqn:Hrun.
    destruct Hrejected as [-> ->]. f_equal. f_equal.
    apply (f_equal (fun x => snd (fst x))) in Hrun. cbn [fst snd] in Hrun. subst l.
    vm_compute. reflexivity.
Defined.

Lemma set_recorder_same (s : Main.state) : Main.set_recorder (Main.recorder s) s = s.
Proof. now destruct s. Qed.

Lemma audioFileToBase64_spec (file : string) (read : completion string) (r : Recorder.t) :
  Recorder.audioFileToBase64 file read r =
    (match read with
     | Normal audio => Normal audio
     | Thrown e => Thrown (Error ("Failed to read audio file: " +:+ error_to_string e))
     end, r, [ReadFile file]).
Proof.
  unfold Recorder.audioFileToBase64. eff_unfold. destruct read; reflexivity.
Qed.

(** [handleProcessAudio] catches whatever is thrown and changes no variable
    of the main process. *)
Lemma handleProcessAudio_state (h : Main.recording_host) (file : string) (s : Main.state) :
  let '(c, s', _) := Main.handleProcessAudio h file s in c = Normal tt /\ s' = s.
Proof.
  unfold Main.handleProcessAudio, Main.on_recorder.
  unfold mbind at 1. unfold eff_bind, Eff.bind, Eff.get.
  destruct (Main.config s) as [cfg|]; [|cbn; auto].
  unfold Eff.try_catch, mbind, eff_bind, Eff.bind, Eff.emit, Eff.zoom.
  rewrite audioFileToBase64_spec, set_recorder_same.
  destruct (Main.read h) as [audio|e]; [|cbn; auto].
  destruct (String.eqb (provider cfg) "gemini"); [|cbn; auto].
  unfold Eff.embed.
  destruct (AudioStream.processAudioStream _ _ _ _ _ _) as [[[[]|e] l] traffic]; cbn; auto.
Qed.

(** X5: the messages of an audio job.  [handleProcessAudio] throws nothing
    and changes no variable of the main process.  Without a configuration it
    sends [audio-processing-error] 'No configuration found' and nothing else.
    With one it sends [audio-processing-started], reads the recording, and
    ends with exactly one of [audio-processing-complete] and
    [audio-processing-error], sent last; between the read and that last
    message there are only calls of the audio SDK and [audio-stream-chunk]
    messages, and there are any only when the provider is Gemini and the
    recording could be read. *)
Theorem audio_job_protocol (h : Main.recording_host) (file : string) (s : Main.state) :
  let '(c, s', out) := Main.handleProcessAudio h file s in
  c = Normal tt /\ s' = s
  /\ match Main.config s with
     | None => out = [Send (AudioProcessingError "No configuration found")]
     | Some cfg =>
         exists traffic final,
           out = Send AudioProcessingStarted :: ReadFile file :: traffic ++ [final]
           /\ Forall audio_traffic traffic
           /\ audio_terminal final
           /\ (traffic <> [] ->
               provider cfg = "gemini" /\ exists audio, Main.read h = Normal audio)
     end.
Proof.
  unfold Main.handleProcessAudio, Main.on_recorder.
  unfold mbind at 1. unfold eff_bind, Eff.bind, Eff.get.
  destruct (Main.config s) as [cfg|] eqn:Hcfg; [|cbn; auto].
  unfold Eff.try_catch, mbind, eff_bind, Eff.bind, Eff.emit, Eff.zoom.
  rewrite audioFileToBase64_spec, set_recorder_same.
  destruct (Main.read h) as [audio|e] eqn:Hread.
  2:{ cbn. repeat split. exists [], (Send (AudioProcessingError
        ("Failed to read audio file: " +:+ error_to_string e))). cbn. repeat split; auto.
      all: congruence. }
  destruct (String.eqb (provider cfg) "gemini") eqn:Hp.
  2:{ cbn. repeat split. eexists [], _. cbn. repeat split; eauto. all: congruence. }
  apply String.eqb_eq in Hp.
  unfold Eff.embed.
  pose proof (processAudioStream_emits audio_traffic
                (fun chunk => [Send (AudioStreamChunk chunk)]) (Main.gemini_ready h)
                audio (Main.stream h) (Main.fallback h)) as Hemits.
  assert (forall text, Forall audio_traffic [Send (AudioStreamChunk text)]) as Hcb
    by (intros text; now repeat constructor).
  specialize (Hemits Hcb I I AudioStream.start).
  destruct (AudioStream.processAudioStream _ _ _ _ _ _) as [[[[]|e] l] traffic];
    cbn in Hemits; cbn [fst snd app]; repeat split.
  - exists traffic, (Send AudioProcessingComplete). repeat split; eauto.
  - exists traffic, (Send (AudioProcessingError (default "" (message e)))).
    repeat split; eauto.
Qed.

Lemma deliver_chunks (now : N) (texts : list string) (r : Renderer.state) :
  let r' := Renderer.deliver now (concat (map send_chunk texts)) r in
  Renderer.streamingResponse r' = Renderer.streamingResponse r +:+ joined texts
  /\ Renderer.history r' = Renderer.history r
  /\ Renderer.currentItem r' = Renderer.currentItem r
  /\ Renderer.isAudioProcessing r' = Renderer.isAudioProcessing r
  /\ (texts <> [] -> Renderer.showStreamingResponse r' = true).
Proof.
  revert r. induction texts as [|text rest IH]; intros r; cbn.
  - rewrite string_append_nil_r. repeat split. congruence.
  - destruct (IH (Renderer.on_event now (AudioStreamChunk text) r))
      as (Htext & Hhist & Hcur & Hproc & Hshow).
    cbn in *. rewrite Htext, Hhist, Hcur, Hproc, string_append_assoc. repeat split.
    intros _. destruct rest as [|t rest']; [reflexivity|]. apply Hshow. discriminate.
Qed.

(** X6: a streamed answer, end to end.  When the recording is read, the
    provider is Gemini and the stream ends normally after at least one content
    chunk, the main process sends [audio-processing-started], one
    [audio-stream-chunk] per content chunk in arrival order and
    [audio-processing-complete]; the renderer then shows the content chunks
    appended in that order, keeps showing them, is no longer marked as
    processing audio, and has added nothing to its history: the listener for
    [audio-processing-complete] reads the streamed text of the render that
    registered it, which is empty. *)
Theorem streamed_answer_is_displayed (h : Main.recording_host) (file : string)
    (s : Main.state) (cfg : Config) (audio : string) (chunks : list (option string))
    (now : N) (r : Renderer.state) :
  Main.config s = Some cfg ->
  provider cfg = "gemini" ->
  Main.read h = Normal audio ->
  Main.gemini_ready h = true ->
  Main.stream h = AudioStream.Stream chunks (Normal tt) ->
  AudioStream.contents chunks <> [] ->
  let out := snd (Main.handleProcessAudio h file s) in
  let r' := Renderer.deliver now out r in
  out = Send AudioProcessingStarted :: ReadFile file :: SdkStream audio
        :: concat (map send_chunk (AudioStream.contents chunks))
        ++ [Send AudioProcessingComplete]
  /\ Renderer.streamingResponse r' = joined (AudioStream.contents chunks)
  /\ Renderer.showStreamingResponse r' = true
  /\ Renderer.isAudioProcessing r' = false
  /\ Renderer.history r' = Renderer.history r
  /\ Renderer.currentItem r' = None.
Proof.
  intros Hcfg Hp Hread Hready Hstream Hsome. cbn zeta.
  assert (snd (Main.handleProcessAudio h file s)
          = Send AudioProcessingStarted :: ReadFile file :: SdkStream audio
            :: concat (map send_chunk (AudioStream.contents chunks))
            ++ [Send AudioProcessingComplete]) as ->.
  { unfold Main.handleProcessAudio, Main.on_recorder.
    unfold mbind at 1. unfold eff_bind, Eff.bind, Eff.get. rewrite Hcfg.
    unfold Eff.try_catch, mbind, eff_bind, Eff.bind, Eff.emit, Eff.zoom.
    rewrite audioFileToBase64_spec, Hread, Hp.
    change ("gemini" =? "gemini") with true. unfold Eff.embed.
    rewrite Hready, Hstream.
    change (fun chunk => [Send (AudioStreamChunk chunk)]) with send_chunk.
    assert (AudioStream.processAudioStream send_chunk true audio
              (AudioStream.Stream chunks (Normal tt)) (Main.fallback h) AudioStream.start
            = (Normal tt,
               snd (fst (AudioStream.for_await send_chunk chunks AudioStream.start)),
               SdkStream audio :: concat (map send_chunk (AudioStream.contents chunks))))
      as ->.
    { unfold AudioStream.processAudioStream. cbn [negb]. eff_unfold.
      cbn -[bool_decide]. rewrite for_await_spec.
      rewrite bool_decide_eq_false_2 by assumption. cbn. now rewrite app_nil_r. }
    reflexivity. }
  split; [reflexivity|].
  cbn [Renderer.deliver].
  rewrite deliver_app.
  set (r1 := Renderer.on_event now AudioProcessingStarted r).
  destruct (deliver_chunks now (AudioStream.contents chunks) r1)
    as (Htext & Hhist & Hcur & Hproc & Hshow).
  specialize (Hshow Hsome).
  set (r2 := Renderer.deliver now _ r1) in *. clearbody r2.
  cbn. rewrite Htext, Hhist, Hshow, Hcur. repeat split.
Qed.

Lemma streamed_answer_is_displayed_witness :
  let out :=
    snd (Main.handleProcessAudio answering_host "/u/recordings/question-1.wav" ready) in
  Renderer.streamingResponse (Renderer.deliver 9 out with_history) = "Hello world"
  /\ Renderer.history (Renderer.deliver 9 out with_history) = [old_item].
Proof.
  assert (AudioStream.contents [Some "Hello "; None; Some "world"] <> []) as Hsome
    by (vm_compute; discriminate).
  pose proof (streamed_answer_is_displayed answering_host "/u/recordings/question-1.wav"
                ready gemini_config "UklGRg==" [Some "Hello "; None; Some "world"] 9
                with_history eq_refl eq_refl eq_refl eq_refl eq_refl Hsome)
    as (_ & Htext & _ & _ & Hhist & _).
  cbn zeta. split; [exact Htext | exact Hhist].
Defined.

(** X7: what a toggle does when it does not fail on the recording.  From an
    idle recorder it spawns the first installed tool and sends
    [recording-toggled] with [isRecording] true and the file of the question,
    and with no tool installed it sends [recording-error] and nothing else;
    no audio job is started either way.  From a recording recorder whose tool
    closes after the signal and whose file has content it stops the tool,
    sends [recording-toggled] with [isRecording] false and the file, and goes
    on with the audio job on that file; the recorder ends idle with its
    counter one higher.  When the tool does not close, having exited before,
    the signal is all that happens: the handler stays suspended, nothing is
    sent, no audio job is started and the counter is not changed. *)
Theorem toggle_recording_outcomes (userData : string) (h : Main.recording_host)
    (s : Main.state) :
  let r := Main.recorder s in
  let c := fst (fst (Main.handleToggleRecording userData h s)) in
  let out := snd (Main.handleToggleRecording userData h s) in
  let s' := snd (fst (Main.handleToggleRecording userData h s)) in
  let file := Recorder.question_path userData (Recorder.questionCounter r) in
  (Recorder.isRecording r = false ->
   match List.find (Main.available h) ["arecord"; "sox"; "ffmpeg"] with
   | Some tool =>
       out = [Spawn tool (Recorder.recorder_args tool file);
              Send (RecordingToggled true file)]
       /\ Recorder.isRecording (Main.recorder s') = true
   | None =>
       out = [Send (RecordingError
                      ("Failed to start recording: Error: No audio recording tool found. "
                       +:+ "Please install arecord, sox, or ffmpeg."))]
       /\ Recorder.isRecording (Main.recorder s') = false
   end)
  /\ (Recorder.isRecording r = true ->
      child_closes (Main.closes h) r = true ->
      Recorder.outputPath r <> "" ->
      forall size, Main.stat h = Normal size -> size <> 0%N ->
      let stopped :=
        Recorder.incr_questionCounter
          (Recorder.set_isRecording false (Recorder.set_recordingProcess None r)) in
      c = Normal Main.Finished
      /\ out = kill_effects r
               ++ Send (RecordingToggled false (Recorder.outputPath r))
               :: snd (Main.handleProcessAudio h (Recorder.outputPath r)
                         (Main.set_recorder stopped s))
      /\ Recorder.isRecording (Main.recorder s') = false
      /\ Recorder.questionCounter (Main.recorder s')
         = (Recorder.questionCounter r + 1)%N)
  /\ (Recorder.isRecording r = true ->
      child_closes (Main.closes h) r = false ->
      c = Normal Main.Suspended
      /\ out = [Kill]
      /\ s' = Main.set_recorder (Recorder.set_isRecording false r) s).
Proof.
  cbn zeta. split; [|split].
  - intros Hrec. unfold Main.handleToggleRecording, Main.on_recorder.
    unfold Recorder.toggleRecording. eff_unfold. rewrite Hrec.
    destruct (List.find (Main.available h) _) as [tool|] eqn:Hfind.
    + rewrite (startRecording_success _ _ _ _ Hrec Hfind). cbn.
      destruct (String.eqb _ ""); split; reflexivity.
    + unfold Recorder.startRecording, Recorder.checkRecordingCapability. eff_unfold.
      rewrite Hrec, Hfind. cbn. split; reflexivity.
  - intros Hrec Hcloses Hpath size Hstat Hsize.
    unfold Main.handleToggleRecording, Main.on_recorder.
    unfold Recorder.toggleRecording. eff_unfold. rewrite Hrec, Hstat.
    rewrite (stopRecording_success _ _ _ Hrec Hcloses Hsize).
    unfold Recorder.getRecordingStatus. eff_unfold.
    apply String.eqb_neq in Hpath.
    cbn -[Main.handleProcessAudio kill_effects]. rewrite Hpath.
    cbn -[Main.handleProcessAudio kill_effects].
    change (Main.set_recorder ?x (Main.set_recorder ?x s)) with (Main.set_recorder x s).
    match goal with
    | |- context [Main.handleProcessAudio h ?f ?st] =>
        pose proof (handleProcessAudio_state h f st) as Hjob;
        destruct (Main.handleProcessAudio h f st) as [[c s2] out2]
    end.
    destruct Hjob as [-> ->]. cbn -[kill_effects]. rewrite ?app_nil_r.
    repeat split.
  - intros Hrec Hcloses. rewrite (toggle_pending_stop _ _ _ Hrec Hcloses).
    repeat split.
Qed.

Lemma toggle_recording_outcomes_witness :
  snd (Main.handleToggleRecording "/u" answering_host ready)
  = [Spawn "sox" ["-d"; "-t"; "wav"; "-c"; "1"; "-r"; "16000"; "/u/recordings/question-1.wav"];
     Send (RecordingToggled true "/u/recordings/question-1.wav")]
  /\ Recorder.questionCounter
       (Main.recorder
          (snd (fst (Main.handleToggleRecording "/u" answering_host
                       (Main.set_recorder recording ready))))) = 2%N
  /\ snd (Main.handleToggleRecording "/u" exited_host (Main.set_recorder recording ready))
     = [Kill].
Proof.
  pose proof (toggle_recording_outcomes "/u" answering_host ready) as [Hstart _].
  pose proof (toggle_recording_outcomes "/u" answering_host
                (Main.set_recorder recording ready)) as (_ & Hstop & _).
  pose proof (toggle_recording_outcomes "/u" exited_host
                (Main.set_recorder recording ready)) as (_ & _ & Hpending).
  cbn zeta in Hstart, Hstop, Hpending. split; [|split].
  - specialize (Hstart eq_refl). vm_compute in Hstart. vm_compute. exact (proj1 Hstart).
  - assert (Recorder.outputPath (Main.recorder (Main.set_recorder recording ready)) <> "")
      as Hpath by (vm_compute; discriminate).
    assert (2048%N <> 0%N) as Hsize by discriminate.
    exact (proj2 (proj2 (proj2 (Hstop eq_refl eq_refl Hpath 2048%N eq_refl Hsize)))).
  - exact (proj1 (proj2 (Hpending eq_refl eq_refl))).
Defined.

(** ** The result history of the renderer *)

(** X8: the messages of the main process add to the history of the renderer
    one entry for every [processing-complete] among them, the newest first,
    and change it in no other way: the notice of a cancelled job and the
    report of a failed one are entries like any result, each entry records an
    empty list of screenshots, and no other message,
    [audio-processing-complete] included, adds or removes an entry. *)
Theorem history_lists_every_result (now : N) (out : list effect) (r : Renderer.state) :
  Renderer.history (Renderer.deliver now out r)
  = rev (map (history_item now) (completions out)) ++ Renderer.history r.
Proof.
  revert r. induction out as [|e out IH]; intros r; [reflexivity|].
  destruct e as [ev| | | | | | | | | | |]; cbn [Renderer.deliver completions omap];
    try apply IH.
  rewrite IH. unfold completions.
  destruct ev; cbn; try reflexivity.
  now rewrite <- app_assoc.
Qed.

(** ** The preview row of the renderer *)

Lemma same_queue_refl (s : Main.state) : same_queue s s.
Proof. split; reflexivity. Qed.

Lemma same_queue_trans (s1 s2 s3 : Main.state) :
  same_queue s1 s2 -> same_queue s2 s3 -> same_queue s1 s3.
Proof. intros [H1 H2] [H3 H4]. split; congruence. Qed.

Ltac same_queue_step :=
  first
    [ apply (respects_ret same_queue same_queue_refl)
    | apply (respects_throw same_queue same_queue_refl)
    | apply (respects_emit same_queue same_queue_refl)
    | apply (respects_get same_queue same_queue_refl)
    | apply (respects_await same_queue same_queue_refl)
    | apply (respects_embed same_queue same_queue_refl)
    | apply (respects_bind same_queue same_queue_trans); [|intros ?]
    | apply (respects_try_catch same_queue same_queue_trans); [|intros ?]
    | apply respects_zoom; intros; split; reflexivity
    | apply respects_modify; intros; split; reflexivity
    | match goal with
      | |- respects _ (match ?x with _ => _ end) => destruct x
      | |- respects _ (if ?x then _ else _) => destruct x
      end ].

Lemma respects_finally {S E A} (R : S -> S -> Prop)
    (R_trans : forall s1 s2 s3, R s1 s2 -> R s2 s3 -> R s1 s3)
    (m : M S E A) (fin : M S E unit) :
  respects R m -> respects R fin -> respects R (finally m fin).
Proof.
  intros Hm Hf s. unfold Eff.finally.
  specialize (Hm s). destruct (m s) as [[c s1] out1]. cbn in *.
  specialize (Hf s1). destruct (fin s1) as [[[[]|e] s2] out2]; cbn in *; eauto.
Qed.

Lemma suspend_same_queue (k : Main.task) : respects same_queue (Main.suspend k).
Proof. unfold Main.suspend. repeat same_queue_step. Qed.

Lemma process_settle_same_queue (r : completion json) :
  respects same_queue (Main.process_settle r).
Proof.
  unfold Main.process_settle.
  apply (respects_bind same_queue same_queue_trans); [|intros; same_queue_step].
  apply (respects_finally same_queue same_queue_trans); repeat same_queue_step.
Qed.

Lemma handleProcessScreenshots_same_queue :
  respects same_queue Main.handleProcessScreenshots.
Proof.
  unfold Main.handleProcessScreenshots.
  repeat first [apply suspend_same_queue | apply process_settle_same_queue | same_queue_step].
Qed.

Lemma handleTakeScreenshot_same_queue : respects same_queue Main.handleTakeScreenshot.
Proof.
  unfold Main.handleTakeScreenshot. repeat first [apply suspend_same_queue | same_queue_step].
Qed.

Lemma handleToggleRecording_same_queue (userData : string) (h : Main.recording_host) :
  respects same_queue (Main.handleToggleRecording userData h).
Proof.
  unfold Main.handleToggleRecording, Main.handleProcessAudio, Main.on_recorder.
  repeat same_queue_step.
Qed.

Lemma same_queue_queue (s s' : Main.state) : same_queue s s' -> Main.queue s' = Main.queue s.
Proof. intros [Ha Hq]. unfold Main.queue, Main.array_at. now rewrite Ha, Hq. Qed.

Lemma deliver_neutral (now : N) (out : list effect) (r : Renderer.state) :
  Forall preview_neutral out ->
  Renderer.screenshots (Renderer.deliver now out r) = Renderer.screenshots r.
Proof.
  intros H. revert r. induction H as [|e out He Hout IH]; intros r; [reflexivity|].
  destruct e as [ev| | | | | | | | | | |]; cbn [Renderer.deliver]; try apply IH.
  rewrite IH. destruct ev; cbn in *; try reflexivity; contradiction.
Qed.

Lemma neutral_shows_queue {A} (now : N) (m : M Main.state effect A)
    (s : Main.state) (r : Renderer.state) :
  respects same_queue m -> emits preview_neutral m ->
  shows_queue s r ->
  shows_queue (snd (fst (m s))) (Renderer.deliver now (snd (m s)) r).
Proof.
  intros Hm He [Href Hshows]. specialize (Hm s). specialize (He s).
  destruct (m s) as [[c s'] out]. cbn in *.
  split.
  - destruct Hm as [-> ->]. exact Href.
  - rewrite (deliver_neutral now out r He), (same_queue_queue s s' Hm). exact Hshows.
Qed.

Lemma take_resume_shows_queue (now : N) (temp : string) (c : Main.capture)
    (s : Main.state) (r : Renderer.state) :
  shows_queue s r ->
  shows_queue (snd (fst (Main.take_resume temp c s)))
    (Renderer.deliver now (snd (Main.take_resume temp c s)) r).
Proof.
  intros [Href Hshows]. unfold Main.take_resume. eff_unfold.
  destruct c as [e|base64 at_ [[]|e]]; cbn; try (split; assumption).
  split.
  - unfold Main.push. cbn. now rewrite length_alter.
  - rewrite queue_push, Hshows. unfold Main.queue, Main.array_at.
    destruct (lookup_lt_is_Some_2 _ _ Href) as [q ->]. reflexivity.
Qed.

Lemma reset_loop_shows_queue (now : N) (arr i : nat) (s : Main.state) (r : Renderer.state) :
  shows_queue s r ->
  shows_queue (snd (fst (Main.reset_loop arr i s)))
    (Renderer.deliver now (snd (Main.reset_loop arr i s)) r).
Proof.
  intros [Href Hshows]. unfold Main.reset_loop, Main.suspend. eff_unfold.
  destruct (Main.array_at s arr !! i); cbn; [split; assumption|].
  split.
  - unfold Main.fresh_queue. cbn. rewrite length_app. cbn. lia.
  - symmetry. apply queue_fresh.
Qed.

Lemma step_shows_queue (userData temp : string) (now : N) (i : Main.input)
    (s : Main.state) (r : Renderer.state) :
  shows_queue s r ->
  shows_queue (snd (fst (Main.step userData temp i s)))
    (Renderer.deliver now (snd (Main.step userData temp i s)) r).
Proof.
  intros H. destruct i as [| | |h| |t c|t res|t res]; cbn [Main.step].
  - apply neutral_shows_queue; [apply handleTakeScreenshot_same_queue| |exact H].
    unfold Main.handleTakeScreenshot.
    apply emits_bind; [apply emits_get|intros s0].
    destruct (Nat.leb _ _); [apply emits_ret|].
    apply emits_bind; [now apply emits_emit|intros; apply suspend_emits].
  - apply neutral_shows_queue; [apply handleProcessScreenshots_same_queue| |exact H].
    now apply process_emits.
  - rewrite handleResetQueue_loop.
    match goal with
    | |- context [Main.reset_loop ?arr 0 ?st] =>
        pose proof (reset_loop_shows_queue now arr 0 st
                      (Renderer.deliver now (cancel_notice s) r)) as Hloop;
        destruct (Main.reset_loop arr 0 st) as [[c s'] out]
    end.
    cbn [fst snd] in *. rewrite deliver_app. apply Hloop.
    destruct H as [Href Hshows]. unfold cancel_notice.
    destruct (Main.isProcessing s); split; assumption.
  - apply neutral_shows_queue; [apply handleToggleRecording_same_queue| |exact H].
    eapply emits_weaken; [|apply handleToggleRecording_emits].
    intros [[]| | | | | | | | | | |]; easy.
  - exact H.
  - destruct (Main.tasks s !! t) as [[| |arr j]|] eqn:Ht;
      try (rewrite resume_miss by (rewrite Ht; reflexivity); exact H).
    erewrite resume_hit by (rewrite Ht; reflexivity).
    now apply take_resume_shows_queue.
  - destruct (Main.tasks s !! t) as [[| |arr j]|] eqn:Ht;
      try (rewrite resume_miss by (rewrite Ht; reflexivity); exact H).
    erewrite resume_hit by (rewrite Ht; reflexivity).
    apply neutral_shows_queue; [apply process_settle_same_queue| |exact H].
    now apply process_emits.
  - destruct (Main.tasks s !! t) as [[| |arr j]|] eqn:Ht;
      try (rewrite resume_miss by (rewrite Ht; reflexivity); exact H).
    erewrite resume_hit by (rewrite Ht; reflexivity).
    rewrite reset_resume_loop. now apply reset_loop_shows_queue.
Qed.

Lemma run_shows_queue (userData temp : string) (now : N) (inputs : list Main.input)
    (s : Main.state) (r : Renderer.state) :
  shows_queue s r ->
  shows_queue (fst (Main.run userData temp inputs s))
    (Renderer.deliver now (snd (Main.run userData temp inputs s)) r).
Proof.
  revert s r. induction inputs as [|i rest IH]; intros s r H; [exact H|].
  cbn [Main.run]. pose proof (step_shows_queue userData temp now i s r H) as Hstep.
  destruct (Main.step userData temp i s) as [[c s1] out1]. cbn [fst snd] in Hstep.
  specialize (IH s1 _ Hstep).
  destruct (Main.run userData temp rest s1) as [s2 out2]. cbn [fst snd] in *.
  now rewrite deliver_app.
Qed.

(** X9: after any sequence of shortcuts, settled captures, settled adapter
    calls and settled deletions, starting from a fresh main process and a
    fresh renderer, the preview row of the renderer lists exactly the
    screenshots of the queue of the main process, in the same order. *)
Theorem preview_shows_queue (userData temp : string) (now : N) (cfg : option Config)
    (inputs : list Main.input) :
  let '(s, out) := Main.run userData temp inputs (Main.initial cfg) in
  Renderer.screenshots (Renderer.deliver now out Renderer.first_render) = Main.queue s.
Proof.
  pose proof (run_shows_queue userData temp now inputs (Main.initial cfg)
                Renderer.first_render) as H.
  destruct (Main.run userData temp inputs (Main.initial cfg)) as [s out].
  apply H. split; [cbn; lia|reflexivity].
Qed.

(** ** Jobs in flight *)

Lemma keeps_jobs_flag_has_job (s s' : Main.state) :
  keeps_jobs s s' -> flag_has_job s -> flag_has_job s'.
Proof.
  intros (Hflag & Hnext & _ & Hold) Hinv Hset. rewrite Hflag in Hset.
  destruct (Hinv Hset) as (t & Ht & Hjob). exists t. split; [lia|auto].
Qed.

Lemma process_settle_clears_flag (r : completion json) (s : Main.state) :
  Main.isProcessing (snd (fst (Main.process_settle r s))) = false.
Proof.
  unfold Main.process_settle. eff_unfold.
  destruct r as [v|e]; destruct (Main.isProcessing s); reflexivity.
Qed.

Lemma handleProcessScreenshots_flag_has_job (s : Main.state) :
  flag_has_job s -> flag_has_job (snd (fst (Main.handleProcessScreenshots s))).
Proof.
  intros Hinv.
  destruct (Main.isProcessing s) eqn:Hflag.
  { rewrite process_noop by now left. exact Hinv. }
  destruct (Main.queue s) as [|shot q] eqn:Hq.
  { rewrite process_noop by now right. exact Hinv. }
  unfold Main.handleProcessScreenshots, Main.suspend. eff_unfold.
  rewrite Hflag, Hq. cbn [length Nat.eqb orb].
  destruct (Main.config s) as [cfg|]; [|exact Hinv].
  assert (flag_has_job (job_started s)) as Hstarted.
  { intros _. exists (Main.next_task s). cbn. split; [lia|apply lookup_insert_eq]. }
  destruct (String.eqb (provider cfg) "openai"); [exact Hstarted|].
  destruct (String.eqb (provider cfg) "gemini"); [exact Hstarted|].
  intros Hset. exfalso. revert Hset.
  match goal with
  | |- context [Main.process_settle ?r ?st] =>
      pose proof (process_settle_clears_flag r st) as Hclear;
      destruct (Main.process_settle r st) as [[c s'] out]
  end.
  cbn in *. congruence.
Qed.

Lemma step_flag_has_job (userData temp : string) (i : Main.input) (s : Main.state) :
  flag_has_job s -> flag_has_job (snd (fst (Main.step userData temp i s))).
Proof.
  intros Hinv. destruct i as [| | |h| |t c|t r|t r]; cbn [Main.step].
  - eapply keeps_jobs_flag_has_job; [apply handleTakeScreenshot_respects|exact Hinv].
  - now apply handleProcessScreenshots_flag_has_job.
  - rewrite handleResetQueue_loop.
    match goal with
    | |- context [Main.reset_loop ?arr 0 ?st] =>
        pose proof (reset_loop_respects arr 0 st) as (Hflag & _);
        assert (Main.isProcessing st = false) as Hst
          by (destruct (Main.isProcessing s) eqn:E; [reflexivity|exact E]);
        destruct (Main.reset_loop arr 0 st) as [[c s'] out]
    end.
    cbn in *. intros Hset. congruence.
  - eapply keeps_jobs_flag_has_job; [apply handleToggleRecording_respects|exact Hinv].
  - exact Hinv.
  - eapply keeps_jobs_flag_has_job; [|exact Hinv]. apply resume_respects; [reflexivity|].
    intros [] m [= <-]. apply take_resume_respects.
  - destruct (Main.tasks s !! t) as [[| |arr j]|] eqn:Ht;
      try (rewrite resume_miss by (rewrite Ht; reflexivity); exact Hinv).
    erewrite resume_hit by (rewrite Ht; reflexivity).
    intros Hset. rewrite process_settle_clears_flag in Hset. discriminate.
  - eapply keeps_jobs_flag_has_job; [|exact Hinv]. apply resume_respects; [reflexivity|].
    intros [] m [= <-]. apply reset_resume_respects.
Qed.

(** X10: the processing flag is never left set with nothing under way:
    after any sequence of inputs from a fresh main process, if [isProcessing]
    is true then a job is suspended at its adapter call. *)
Theorem flag_set_means_call_pending (userData temp : string) (cfg : option Config)
    (inputs : list Main.input) :
  let s := fst (Main.run userData temp inputs (Main.initial cfg)) in
  Main.isProcessing s = true ->
  exists t, Main.tasks s !! t = Some Main.ProcessTask.
Proof.
  cbn zeta.
  assert (forall s0, flag_has_job s0 ->
            flag_has_job (fst (Main.run userData temp inputs s0))) as Hrun.
  { induction inputs as [|i rest IH]; intros s0 H0; [exact H0|].
    cbn [Main.run]. pose proof (step_flag_has_job userData temp i s0 H0) as Hstep.
    destruct (Main.step userData temp i s0) as [[c s1] out1]. cbn [fst snd] in Hstep.
    specialize (IH s1 Hstep). now destruct (Main.run userData temp rest s1). }
  intros Hset.
  destruct (Hrun (Main.initial cfg)) as (t & _ & Hjob); [discriminate|exact Hset|eauto].
Qed.

Lemma flag_set_means_call_pending_witness :
  exists t,
    Main.tasks (fst (Main.run "/u" "/tmp"
                       [Main.TakeScreenshot; Main.CaptureSettled 0 (shot_at 1);
                        Main.ProcessScreenshots; Main.TakeScreenshot]
                       (Main.initial (Some gemini_config)))) !! t
    = Some Main.ProcessTask.
Proof.
  apply (flag_set_means_call_pending "/u" "/tmp" (Some gemini_config)
           [Main.TakeScreenshot; Main.CaptureSettled 0 (shot_at 1);
            Main.ProcessScreenshots; Main.TakeScreenshot]).
  reflexivity.
Defined.

Lemma process_settle_emits (P : effect -> Prop) (r : completion json) :
  (forall q, P (Send (ProcessingComplete q))) -> emits P (Main.process_settle r).
Proof.
  intros Hdone. unfold Main.process_settle.
  apply emits_bind; [|intros; apply emits_ret].
  apply emits_finally; [|apply emits_modify].
  apply emits_try_catch; [|intros e].
  - apply emits_bind; [apply emits_await|intros v].
    apply emits_bind; [apply emits_get|intros s].
    destruct (negb _); [apply emits_ret|now apply emits_emit].
  - apply emits_bind; [apply emits_get|intros s].
    destruct (negb _); [apply emits_ret|now apply emits_emit].
Qed.

Lemma handleTakeScreenshot_emits (P : effect -> Prop) :
  P HideWindow -> emits P Main.handleTakeScreenshot.
Proof.
  intros Hhide. unfold Main.handleTakeScreenshot.
  apply emits_bind; [apply emits_get|intros s].
  destruct (Nat.leb _ _); [apply emits_ret|].
  apply emits_bind; [now apply emits_emit|intros; apply suspend_emits].
Qed.

Lemma handleResetQueue_emits (P : effect -> Prop) :
  (forall f, P (Unlink f)) -> P (Send QueueReset) ->
  (forall q, P (Send (ProcessingComplete q))) ->
  emits P Main.handleResetQueue.
Proof.
  intros Hunlink Hreset Hdone. unfold Main.handleResetQueue.
  apply emits_bind; [apply emits_get|intros s].
  apply emits_bind; [|intros; now apply reset_loop_emits].
  destruct (Main.isProcessing s); [|apply emits_ret].
  apply emits_bind; [apply emits_modify|intros; now apply emits_emit].
Qed.

Lemma handleProcessScreenshots_calls : emits call_has_screenshots Main.handleProcessScreenshots.
Proof.
  intros s.
  destruct (Main.isProcessing s) eqn:Hflag.
  { rewrite process_noop by now left. constructor. }
  destruct (Main.queue s) as [|shot q] eqn:Hq.
  { rewrite process_noop by now right. constructor. }
  unfold Main.handleProcessScreenshots, Main.suspend. eff_unfold.
  rewrite Hflag, Hq. cbn [length Nat.eqb orb].
  destruct (Main.config s) as [cfg|]; [|now repeat constructor].
  destruct (String.eqb (provider cfg) "openai"); [now repeat constructor|].
  destruct (String.eqb (provider cfg) "gemini"); [now repeat constructor|].
  match goal with
  | |- context [Main.process_settle ?r ?st] =>
      pose proof (process_settle_emits call_has_screenshots r (fun _ => I) st) as Hsettle;
      destruct (Main.process_settle r st) as [[c s'] out]
  end.
  cbn in *. now repeat constructor.
Qed.

(** X11: whatever the state and the inputs, no adapter is ever called with an
    empty list: every [processScreenshots] call carries at least one
    screenshot and every [processImages] call at least one image. *)
Theorem adapter_called_with_screenshots (userData temp : string)
    (inputs : list Main.input) (s : Main.state) :
  Forall call_has_screenshots (snd (Main.run userData temp inputs s)).
Proof.
  revert s. induction inputs as [|i rest IH]; intros s; [constructor|].
  cbn [Main.run].
  assert (Forall call_has_screenshots (snd (Main.step userData temp i s))) as Hstep.
  { destruct i as [| | |h| |t c|t r|t r]; cbn [Main.step].
    - now apply handleTakeScreenshot_emits.
    - apply handleProcessScreenshots_calls.
    - now apply handleResetQueue_emits.
    - eapply emits_weaken; [|apply handleToggleRecording_emits].
      intros [[]| | | | | | | | | | |]; easy.
    - unfold Main.handleResetAudioQueue. quiet.
    - apply resume_emits. intros [] m [= <-].
      now apply (take_emits call_has_screenshots temp c).
    - apply resume_emits. intros [] m [= <-]. now apply process_settle_emits.
    - apply resume_emits. intros [] m [= <-]. unfold Main.reset_resume.
      apply emits_bind; [quiet|intros _]. now apply reset_loop_emits. }
  destruct (Main.step userData temp i s) as [[c s1] out1].
  specialize (IH s1). destruct (Main.run userData temp rest s1) as [s2 out2].
  cbn in *. apply Forall_app. auto.
Qed.

(** X12: processing a queue that is not empty while no job runs, without a
    usable provider.  With no configuration the renderer gets one
    [processing-complete] with the 'No configuration found' payload and no
    [processing-started]; with a provider that is neither [openai] nor
    [gemini] it gets [processing-started] and then [processing-complete] with
    the error 'Unsupported AI provider: ' followed by the provider.  Either
    way no adapter is called and all variables, the flag included, are as
    before. *)
Theorem process_without_provider (s : Main.state) :
  Main.isProcessing s = false ->
  Main.queue s <> [] ->
  match Main.config s with
  | None =>
      Main.handleProcessScreenshots s
      = (Normal Main.Finished, s, [Send (ProcessingComplete Main.no_config_payload)])
  | Some cfg =>
      supported cfg = false ->
      Main.handleProcessScreenshots s
      = (Normal Main.Finished, s,
         [Send ProcessingStarted;
          Send (ProcessingComplete
                  (Main.error_payload ("Unsupported AI provider: " +:+ provider cfg)))])
  end.
Proof.
  intros Hflag Hq. unfold Main.handleProcessScreenshots.
  destruct (Main.queue s) as [|shot q] eqn:Hqueue; [congruence|].
  destruct (Main.config s) as [cfg|] eqn:Hcfg.
  - intros Hsup. unfold supported in Hsup. apply orb_false_iff in Hsup as [Ho Hg].
    eff_unfold. rewrite Hflag, Hqueue, Hcfg, Ho, Hg. cbn.
    destruct s; cbn in *. subst. reflexivity.
  - eff_unfold. rewrite Hflag, Hqueue, Hcfg. reflexivity.
Qed.

Lemma process_without_provider_witness :
  snd (Main.handleProcessScreenshots (Main.push one_shot (Main.initial (Some claude_config))))
  = [Send ProcessingStarted;
     Send (ProcessingComplete (Main.error_payload "Unsupported AI provider: claude"))].
Proof.
  assert (Main.queue (Main.push one_shot (Main.initial (Some claude_config))) <> [])
    as Hqueue by (vm_compute; discriminate).
  pose proof (process_without_provider
                (Main.push one_shot (Main.initial (Some claude_config))) eq_refl Hqueue) as H.
  cbn [Main.config Main.push Main.initial] in H. now rewrite H.
Defined.

(** ** Hiding and showing the window *)

Lemma same_captures_refl (s : Main.state) : same_captures s s.
Proof. intros H. auto. Qed.

Lemma same_captures_trans (s1 s2 s3 : Main.state) :
  same_captures s1 s2 -> same_captures s2 s3 -> same_captures s1 s3.
Proof.
  intros H12 H23 H1. destruct (H12 H1) as [H2 E12]. destruct (H23 H2) as [H3 E23].
  split; [exact H3|congruence].
Qed.

Lemma fresh_ids_next (s : Main.state) : fresh_ids s -> Main.tasks s !! Main.next_task s = None.
Proof.
  intros H. destruct (Main.tasks s !! Main.next_task s) as [k|] eqn:E; [|reflexivity].
  apply H in E. lia.
Qed.

Lemma pending_captures_suspend (k : Main.task) (s : Main.state) :
  fresh_ids s ->
  let s' := Main.set_next_task (S (Main.next_task s))
              (Main.set_tasks (<[Main.next_task s := k]> (Main.tasks s)) s) in
  fresh_ids s'
  /\ pending_captures s'
     = (if decide (k = Main.TakeTask) then 1 else 0) + pending_captures s.
Proof.
  intros Hfresh. cbn zeta. split.
  - intros t k'. cbn. rewrite lookup_insert. case_decide.
    + intros _. lia.
    + intros H'. apply Hfresh in H'. lia.
  - unfold pending_captures. cbn.
    pose proof (fresh_ids_next s Hfresh) as Hnone.
    destruct (decide (k = Main.TakeTask)) as [Hk|Hk].
    + rewrite map_filter_insert_True by exact Hk.
      rewrite map_size_insert_None; [reflexivity|].
      apply map_lookup_filter_None. now left.
    + rewrite map_filter_insert_not' ; [reflexivity|exact Hk|].
      intros y. rewrite Hnone. discriminate.
Qed.

Lemma pending_captures_drop (t : nat) (s : Main.state) :
  fresh_ids s ->
  fresh_ids (Main.drop_task t s)
  /\ pending_captures s
     = (if decide (Main.tasks s !! t = Some Main.TakeTask) then 1 else 0)
       + pending_captures (Main.drop_task t s).
Proof.
  intros Hfresh. split.
  - intros t' k. cbn. rewrite lookup_delete. case_decide; [discriminate|]. apply Hfresh.
  - unfold pending_captures. cbn. rewrite map_filter_delete.
    set (P := fun kv : nat * Main.task => kv.2 = Main.TakeTask).
    destruct (decide (Main.tasks s !! t = Some Main.TakeTask)) as [Ht|Ht].
    + assert (filter P (Main.tasks s) !! t = Some Main.TakeTask) as Hin
        by now apply map_lookup_filter_Some_2.
      rewrite map_size_delete_Some by (rewrite Hin; eauto).
      assert (size (filter P (Main.tasks s)) <> 0); [|lia].
      apply map_size_ne_0_lookup_2 with t. rewrite Hin. eauto.
    + rewrite delete_id; [reflexivity|].
      apply map_lookup_filter_None.
      destruct (Main.tasks s !! t) as [k|]; [right|now left].
      intros k' [= <-] Hk. unfold P in Hk. cbn in Hk. congruence.
Qed.

Lemma count_effects_app (f : effect -> bool) (out1 out2 : list effect) :
  count_effects f (out1 ++ out2) = count_effects f out1 + count_effects f out2.
Proof. unfold count_effects. now rewrite List.filter_app, length_app. Qed.

Lemma count_effects_neutral (out : list effect) :
  Forall window_neutral out -> count_effects is_hide out = 0 /\ count_effects is_show out = 0.
Proof.
  induction 1 as [|e out He Hout [IH1 IH2]]; [split; reflexivity|].
  unfold count_effects in *. cbn. destruct e; cbn in *; auto; contradiction.
Qed.

Lemma neutral_balance {A} (m : M Main.state effect A) (s : Main.state) :
  respects same_captures m -> emits window_neutral m ->
  window_balance s (snd (m s)) (snd (fst (m s))).
Proof.
  intros Hm He Hfresh. specialize (Hm s Hfresh). specialize (He s).
  destruct (m s) as [[c s'] out]. cbn [fst snd] in *.
  destruct (count_effects_neutral out He) as [-> ->]. destruct Hm as [Hfresh' ->]. auto.
Qed.

Lemma window_balance_trans (s1 s2 s3 : Main.state) (out1 out2 : list effect) :
  window_balance s1 out1 s2 -> window_balance s2 out2 s3 ->
  window_balance s1 (out1 ++ out2) s3.
Proof.
  intros H12 H23 H1. destruct (H12 H1) as [H2 E12]. destruct (H23 H2) as [H3 E23].
  split; [exact H3|]. rewrite !count_effects_app. lia.
Qed.

Lemma suspend_same_captures (k : Main.task) :
  k <> Main.TakeTask -> respects same_captures (Main.suspend k).
Proof.
  intros Hk. unfold Main.suspend.
  apply (respects_bind same_captures same_captures_trans);
    [|intros; apply (respects_ret same_captures same_captures_refl)].
  apply respects_modify. intros s Hfresh.
  destruct (pending_captures_suspend k s Hfresh) as [Hfresh' Hcount].
  split; [exact Hfresh'|]. rewrite Hcount. now destruct (decide (k = Main.TakeTask)).
Qed.

Ltac same_captures_step :=
  first
    [ apply suspend_same_captures; discriminate
    | apply (respects_ret same_captures same_captures_refl)
    | apply (respects_throw same_captures same_captures_refl)
    | apply (respects_emit same_captures same_captures_refl)
    | apply (respects_get same_captures same_captures_refl)
    | apply (respects_await same_captures same_captures_refl)
    | apply (respects_embed same_captures same_captures_refl)
    | apply (respects_bind same_captures same_captures_trans); [|intros ?]
    | apply (respects_try_catch same_captures same_captures_trans); [|intros ?]
    | apply respects_zoom; intros ? ? ?; split; [assumption|reflexivity]
    | apply respects_modify; intros ? ?; split; [assumption|reflexivity]
    | match goal with
      | |- respects _ (match ?x with _ => _ end) => destruct x
      | |- respects _ (if ?x then _ else _) => destruct x
      end ].

Lemma process_settle_same_captures (r : completion json) :
  respects same_captures (Main.process_settle r).
Proof.
  unfold Main.process_settle.
  apply (respects_bind same_captures same_captures_trans); [|intros; same_captures_step].
  apply (respects_finally same_captures same_captures_trans); repeat same_captures_step.
Qed.

Lemma handleProcessScreenshots_same_captures :
  respects same_captures Main.handleProcessScreenshots.
Proof.
  unfold Main.handleProcessScreenshots.
  repeat first [apply process_settle_same_captures | same_captures_step].
Qed.

Lemma reset_loop_same_captures (arr i : nat) : respects same_captures (Main.reset_loop arr i).
Proof. unfold Main.reset_loop. repeat same_captures_step. Qed.

Lemma handleResetQueue_same_captures : respects same_captures Main.handleResetQueue.
Proof.
  unfold Main.handleResetQueue.
  repeat first [apply reset_loop_same_captures | same_captures_step].
Qed.

Lemma handleToggleRecording_same_captures (userData : string) (h : Main.recording_host) :
  respects same_captures (Main.handleToggleRecording userData h).
Proof.
  unfold Main.handleToggleRecording, Main.handleProcessAudio, Main.on_recorder.
  repeat same_captures_step.
Qed.

Lemma take_resume_window (temp : string) (c : Main.capture) (s : Main.state) :
  let '(_, s', out) := Main.take_resume temp c s in
  Main.tasks s' = Main.tasks s /\ Main.next_task s' = Main.next_task s
  /\ count_effects is_hide out = 0 /\ count_effects is_show out = 1.
Proof.
  unfold Main.take_resume. eff_unfold.
  destruct c as [e|base64 at_ [[]|e]]; cbn; auto.
Qed.

Lemma resume_balance (t : nat) (k : Main.task -> option (M Main.state effect Main.status))
    (s : Main.state) :
  k Main.TakeTask = None ->
  (forall task m, k task = Some m -> respects same_captures m /\ emits window_neutral m) ->
  window_balance s (snd (Main.resume t k s)) (snd (fst (Main.resume t k s))).
Proof.
  intros Htake Hk.
  destruct (Main.tasks s !! t ≫= k) as [m|] eqn:Hm.
  - rewrite (resume_hit _ _ _ _ Hm).
    destruct (Main.tasks s !! t) as [task|] eqn:Ht; [|discriminate]. cbn in Hm.
    destruct (Hk task m Hm) as [Hres Hemit].
    intros Hfresh. destruct (pending_captures_drop t s Hfresh) as [Hfresh' Hcount].
    destruct (neutral_balance m (Main.drop_task t s) Hres Hemit Hfresh') as [Hf Hc].
    split; [exact Hf|]. rewrite Hcount, Ht.
    destruct (decide (Some task = Some Main.TakeTask)) as [[= ->]|_]; [congruence|lia].
  - rewrite (resume_miss _ _ _ Hm). intros Hfresh. auto.
Qed.

Lemma step_balance (userData temp : string) (i : Main.input) (s : Main.state) :
  window_balance s (snd (Main.step userData temp i s))
    (snd (fst (Main.step userData temp i s))).
Proof.
  destruct i as [| | |h| |t c|t r|t r]; cbn [Main.step].
  - destruct (Nat.le_gt_cases Main.MAX_SCREENSHOTS (length (Main.queue s))) as [Hfull|Hroom].
    + pose proof (take_at_capacity_noop userData temp s Hfull) as Hnoop.
      cbn [Main.step] in Hnoop. rewrite Hnoop. intros Hfresh. auto.
    + rewrite (take_below_capacity s Hroom). cbn [fst snd]. intros Hfresh.
      destruct (pending_captures_suspend Main.TakeTask s Hfresh) as [Hfresh' Hcount].
      split; [exact Hfresh'|]. cbn zeta in Hcount. rewrite Hcount. reflexivity.
  - apply neutral_balance; [apply handleProcessScreenshots_same_captures|].
    now apply process_emits.
  - apply neutral_balance; [apply handleResetQueue_same_captures|].
    unfold Main.handleResetQueue.
    apply emits_bind; [apply emits_get|intros s0].
    apply emits_bind; [|intros; now apply reset_loop_emits].
    destruct (Main.isProcessing s0); [|apply emits_ret].
    apply emits_bind; [apply emits_modify|intros; now apply emits_emit].
  - apply neutral_balance; [apply handleToggleRecording_same_captures|].
    eapply emits_weaken; [|apply handleToggleRecording_emits].
    intros [[]| | | | | | | | | | |]; easy.
  - intros Hfresh. auto.
  - destruct (Main.tasks s !! t) as [[| |arr j]|] eqn:Ht;
      try (rewrite resume_miss by (rewrite Ht; reflexivity); intros Hfresh; now auto).
    erewrite resume_hit by (rewrite Ht; reflexivity).
    intros Hfresh. destruct (pending_captures_drop t s Hfresh) as [Hfresh' Hcount].
    pose proof (take_resume_window temp c (Main.drop_task t s)) as Hw.
    destruct (Main.take_resume temp c (Main.drop_task t s)) as [[c' s'] out].
    destruct Hw as (Htasks & Hnext & Hhide & Hshow). cbn [fst snd].
    split.
    + intros t' k'. rewrite Htasks, Hnext. apply Hfresh'.
    + rewrite Hhide, Hshow, Hcount, Ht. unfold pending_captures. rewrite Htasks.
      destruct (decide (Some Main.TakeTask = Some Main.TakeTask)); [reflexivity|congruence].
  - apply resume_balance; [reflexivity|].
    intros [] m [= <-]. split; [apply process_settle_same_captures|now apply process_emits].
  - apply resume_balance; [reflexivity|].
    intros [] m [= <-]. split.
    + unfold Main.reset_resume.
      repeat first [apply reset_loop_same_captures | same_captures_step].
    + unfold Main.reset_resume. apply emits_bind; [quiet|intros _].
      now apply reset_loop_emits.
Qed.

(** X13: taking a screenshot hides the window once when the capture is
    started and shows it again once when the capture settles, whether it
    succeeded or failed, and the handlers for processing, reset and recording
    never touch the window: after any sequence of inputs from a fresh main
    process, these handlers have hidden the window as often as they have
    shown it, plus once for every capture still pending. *)
Theorem window_shown_after_captures (userData temp : string) (cfg : option Config)
    (inputs : list Main.input) :
  let '(s, out) := Main.run userData temp inputs (Main.initial cfg) in
  count_effects is_hide out = count_effects is_show out + pending_captures s.
Proof.
  assert (forall s0, window_balance s0 (snd (Main.run userData temp inputs s0))
                       (fst (Main.run userData temp inputs s0))) as Hrun.
  { induction inputs as [|i rest IH]; intros s0.
    - intros Hfresh. auto.
    - cbn [Main.run]. pose proof (step_balance userData temp i s0) as Hstep.
      destruct (Main.step userData temp i s0) as [[c s1] out1]. cbn [fst snd] in Hstep.
      specialize (IH s1). destruct (Main.run userData temp rest s1) as [s2 out2].
      cbn [fst snd] in *. eapply window_balance_trans; eassumption. }
  specialize (Hrun (Main.initial cfg)).
  destruct (Main.run userData temp inputs (Main.initial cfg)) as [s out]. cbn [fst snd] in Hrun.
  destruct Hrun as [_ Hcount].
  - intros t k. cbn. rewrite lookup_empty. discriminate.
  - cbn in Hcount. unfold pending_captures in Hcount at 1. cbn in Hcount.
    rewrite map_filter_empty, map_size_empty in Hcount. lia.
Qed.


(** ** Capturing the screen *)

Lemma grab_spec (tmpPath cmd : string) (args : list string) (a : Capture.attempt) :
  let '(c, _, out) := Capture.grab tmpPath cmd args a tt in
  commands_run out = [cmd]
  /\ match grabbed a with
     | Some buffer => c = Normal buffer
     | None => exists e, c = Thrown e
     end.
Proof.
  unfold Capture.grab, grabbed. eff_unfold.
  destruct a as [[[]|e1] [buffer|e2] [[]|e3]]; cbn; eauto.
Qed.

Lemma try_tools_spec (temp : string) (now : N) (host : string -> Capture.attempt)
    (tools : list (string * list string)) :
  let '(c, _, out) := Capture.try_tools temp now host tools tt in
  commands_run out = tools_tried host (map fst tools)
  /\ c = match first_grab host (map fst tools) with
         | Some buffer => Normal buffer
         | None =>
             Thrown (Error ("No screenshot tool available on Linux. Please install one of: "
                            +:+ "gnome-screenshot, scrot, imagemagick, maim, or spectacle"))
         end.
Proof.
  induction tools as [|[cmd args] rest IH]; [split; reflexivity|].
  cbn [Capture.try_tools map fst tools_tried first_grab]. unfold Eff.try_catch.
  pose proof (grab_spec (Capture.tmpPath temp now) cmd args (host cmd)) as Hgrab.
  destruct (Capture.grab _ cmd args (host cmd) tt) as [[c []] out].
  destruct Hgrab as [Hcmds Hc].
  destruct (grabbed (host cmd)) as [buffer|] eqn:Hworks.
  - subst c. split; [exact Hcmds|reflexivity].
  - destruct Hc as [e ->].
    destruct (Capture.try_tools temp now host rest tt) as [[c' []] out'].
    destruct IH as [IHcmds IHc]. split; [|exact IHc].
    unfold commands_run in *. rewrite omap_app, Hcmds, IHcmds. reflexivity.
Qed.

(** X14: on Linux a capture runs [gnome-screenshot], [scrot], [import],
    [maim] and [spectacle] in this order and stops at the first one that
    runs, whose file can be read and whose file can be deleted; it returns the
    image of that tool and runs none of the later ones.  When none of the five
    gets through its three steps, each has been run once and the capture
    throws 'No screenshot tool available on Linux...'. *)
Theorem linux_capture_first_working_tool (temp : string) (now : N)
    (host : string -> Capture.attempt) :
  let '(c, _, out) := Capture.captureScreenshot temp now host Capture.linux tt in
  commands_run out = tools_tried host linux_tool_names
  /\ c = match first_grab host linux_tool_names with
         | Some buffer => Normal buffer
         | None =>
             Thrown (Error ("No screenshot tool available on Linux. Please install one of: "
                            +:+ "gnome-screenshot, scrot, imagemagick, maim, or spectacle"))
         end.
Proof.
  exact (try_tools_spec temp now host (Capture.linux_tools (Capture.tmpPath temp now))).
Qed.

(** ** The requests of the adapters *)

Lemma upto_comma_id (s : string) :
  Adapter.contains "," s = false -> GeminiRequest.upto_comma s = s.
Proof.
  induction s as [|c s IH]; [reflexivity|]. cbn [Adapter.contains GeminiRequest.upto_comma].
  intros H. apply orb_false_iff in H as [-> H]. now rewrite IH.
Qed.

Lemma split_comma_1_spec (pre rest : string) :
  Adapter.contains "," pre = false ->
  GeminiRequest.split_comma_1 (pre +:+ String "," rest)
  = Some (GeminiRequest.upto_comma rest).
Proof.
  induction pre as [|c pre IH]; [reflexivity|].
  cbn [Adapter.contains]. intros H. apply orb_false_iff in H as [Hc H].
  rewrite append_cons. cbn [GeminiRequest.split_comma_1]. rewrite Hc. auto.
Qed.

Lemma split_comma_1_None (s : string) :
  GeminiRequest.split_comma_1 s = None <-> Adapter.contains "," s = false.
Proof.
  induction s as [|c s IH]; [easy|]. cbn [GeminiRequest.split_comma_1 Adapter.contains].
  destruct (Ascii.eqb c ","); [easy|exact IH].
Qed.

(** X15: the image the Gemini adapter sends for a captured screenshot is the
    captured base64 text itself: the preview that [handleTakeScreenshot]
    builds by putting 'data:image/png;base64,' in front is cut back to the
    text after the comma by [processImages], and the part is labelled
    [image/jpeg] although the capture is a PNG file.  The parts of the
    screenshots queued before are as they were and the new one is last. *)
Theorem gemini_receives_captured_image (temp base64 : string) (now : N) (s : Main.state) :
  Adapter.contains "," base64 = false ->
  Main.screenshotQueue s < length (Main.arrays s) ->
  let s' := snd (fst (Main.take_resume temp (Main.Captured base64 now (Normal tt)) s)) in
  GeminiRequest.imageParts (map preview (Main.queue s'))
  = GeminiRequest.imageParts (map preview (Main.queue s))
    ++ [{| GeminiRequest.data := Some base64; GeminiRequest.mimeType := "image/jpeg" |}].
Proof.
  intros Hcomma Href. cbn zeta. unfold Main.take_resume. eff_unfold. cbn [fst snd].
  rewrite queue_push. unfold Main.queue, Main.array_at.
  destruct (lookup_lt_is_Some_2 _ _ Href) as [q ->]. cbn [default preview].
  unfold GeminiRequest.imageParts. rewrite !map_app. cbn [map preview]. do 3 f_equal.
  change ("data:image/png;base64," +:+ base64)
    with ("data:image/png;base64" +:+ String "," base64).
  rewrite split_comma_1_spec by reflexivity. now rewrite upto_comma_id.
Qed.

Lemma gemini_receives_captured_image_witness :
  GeminiRequest.imageParts
    (map preview (Main.queue (snd (fst (Main.take_resume "/tmp" (shot_at 1) ready)))))
  = [{| GeminiRequest.data := Some "QUJD"; GeminiRequest.mimeType := "image/jpeg" |}].
Proof.
  assert (Main.screenshotQueue ready < length (Main.arrays ready)) as Href
    by (vm_compute; lia).
  exact (gemini_receives_captured_image "/tmp" "QUJD" 1 ready eq_refl Href).
Defined.

Lemma add_images_spec (readFile : string -> completion string) (shots : list Screenshot) :
  forall messages,
    OpenAIRequest.add_images readFile shots messages tt
    = (match first_read_error readFile shots with
       | None => Normal (messages ++ map (image_message readFile) shots)
       | Some e => Thrown e
       end, tt,
       map (fun shot => OpenAIRequest.ReadImage (path shot))
           (read_until_failure readFile shots)).
Proof.
  induction shots as [|shot rest IH]; intros messages.
  - cbn. now rewrite app_nil_r.
  - cbn [OpenAIRequest.add_images first_read_error read_until_failure map].
    eff_unfold. unfold image_message at 1.
    destruct (readFile (path shot)) as [b|e]; [|reflexivity].
    rewrite IH. cbn [app]. destruct (first_read_error readFile rest); [reflexivity|].
    now rewrite <- app_assoc.
Qed.

(** X16: the request of the OpenAI adapter.  With a client and a prompt,
    [processScreenshots] reads the files of the screenshots in order.  When
    every read succeeds it makes one completion call whose messages are the
    system prompt, the user prompt and one image message per screenshot, in
    the order of the screenshots, each 'data:image/png;base64,' followed by
    the content of its file; it returns the parsed content, with no check of
    its fields, and rethrows the error of a rejected call or of a content that
    is not JSON.  The first read that fails ends it with that error: no later
    file is read and no call is made. *)
Theorem openai_request_reads_every_file (readFile : string -> completion string)
    (syntax_error : string -> js_error)
    (system user : string) (shots : list Screenshot) (reply : completion (option string)) :
  let '(c, _, out) :=
    OpenAIRequest.processScreenshots readFile syntax_error true (Normal (system, user)) shots reply tt in
  match first_read_error readFile shots with
  | Some e =>
      c = Thrown e
      /\ out = map (fun shot => OpenAIRequest.ReadImage (path shot))
                   (read_until_failure readFile shots)
  | None =>
      out = map (fun shot => OpenAIRequest.ReadImage (path shot)) shots
            ++ [OpenAIRequest.CreateCompletion
                  (OpenAIRequest.System system :: OpenAIRequest.UserText user
                   :: map (image_message readFile) shots)]
      /\ match reply with
         | Normal content =>
             c = match Adapter.openai_of_content content with
                 | Adapter.Solved v => Normal v
                 | Adapter.Failed _ => Thrown (syntax_error (or_else content "{}"))
                 end
         | Thrown e => c = Thrown e
         end
  end.
Proof.
  unfold OpenAIRequest.processScreenshots. cbn [negb]. eff_unfold. cbn [fst snd].
  rewrite add_images_spec.
  destruct (first_read_error readFile shots) as [e|] eqn:Herr;
    [cbn; rewrite app_nil_r; split; reflexivity|].
  assert (read_until_failure readFile shots = shots) as ->.
  { clear -Herr. induction shots as [|shot rest IH]; [reflexivity|].
    cbn in *. destruct (readFile (path shot)); [|discriminate]. now rewrite IH. }
  cbn [app]. destruct reply as [content|e]; cbn.
  - unfold Adapter.openai_of_content.
    destruct (JSON_parse (or_else content "{}")); cbn; rewrite ?app_nil_r; auto.
  - rewrite app_nil_r. auto.
Qed.


(** ** [JSON.stringify] and [JSON.parse] *)

Lemma quote_char_parses (c : ascii) (tail : string) :
  parse_string_body (Stringify.quote_char c +:+ tail)
  = cons_unit (unit_of c) (parse_string_body tail).
Proof.
  destruct c as [[] [] [] [] [] [] [] []]; reflexivity.
Qed.

Lemma encode_unit (c : ascii) (rest : list unit16) :
  encode (unit_of c :: rest) = String c (encode rest).
Proof.
  destruct c as [[] [] [] [] [] [] [] []];
    try reflexivity; destruct rest as [|[a|lo] rest']; reflexivity.
Qed.

Lemma encode_units_of (s : string) : encode (units_of s) = s.
Proof.
  induction s as [|c s IH]; [reflexivity|].
  unfold units_of in *. cbn [list_ascii_of_string map]. now rewrite encode_unit, IH.
Qed.

Lemma quote_body_cons (c : ascii) (r : string) :
  no_lone_surrogate (String c r) = true ->
  Stringify.quote_body (String c r)
  = Stringify.quote_char c +:+ Stringify.quote_body r.
Proof.
  cbn [no_lone_surrogate Stringify.quote_body]. intros H. apply andb_true_iff in H as [H _].
  destruct r as [|b1 [|b2 r']]; try reflexivity.
  destruct (N.eqb (N_of_ascii c) 237); [|reflexivity].
  destruct (Stringify.surrogate_of b1 b2) as [u|]; [|reflexivity].
  cbn in H. discriminate.
Qed.

Lemma no_lone_surrogate_tail (c : ascii) (r : string) :
  no_lone_surrogate (String c r) = true -> no_lone_surrogate r = true.
Proof. cbn [no_lone_surrogate]. intros H. now apply andb_true_iff in H as [_ H]. Qed.

Lemma quote_body_parses (s rest : string) :
  no_lone_surrogate s = true ->
  parse_string_body (Stringify.quote_body s +:+ String dquote rest)
  = Some (units_of s, rest).
Proof.
  induction s as [|c s IH]; intros Hwf; [reflexivity|].
  rewrite (quote_body_cons _ _ Hwf), string_append_assoc, quote_char_parses.
  rewrite IH by exact (no_lone_surrogate_tail _ _ Hwf). reflexivity.
Qed.

(** A quoted string is read back as the string it was made from. *)
Lemma parse_string_quote (s rest : string) :
  no_lone_surrogate s = true ->
  parse_string (Stringify.quote_body s +:+ String dquote rest) = Some (s, rest).
Proof.
  intros Hwf. unfold parse_string. rewrite (quote_body_parses _ _ Hwf).
  now rewrite encode_units_of.
Qed.

Lemma quote_app (s tail : string) :
  Stringify.quote s +:+ tail
  = String dquote (Stringify.quote_body s +:+ String dquote tail).
Proof. unfold Stringify.quote. rewrite append_cons, string_append_assoc. reflexivity. Qed.

Lemma parse_value_quote (fuel : nat) (s tail : string) :
  no_lone_surrogate s = true ->
  parse_value (S fuel) (" " +:+ Stringify.quote s +:+ tail) = Parsed (JStr s) tail.
Proof.
  intros Hwf. rewrite quote_app.
  match goal with
  | |- parse_value _ (" " +:+ String dquote ?x) = _ =>
      change (parse_value (S fuel) (" " +:+ String dquote x))
        with (parsed_map JStr (of_option (parse_string x)))
  end.
  now rewrite (parse_string_quote _ _ Hwf).
Qed.

(** Members are laid out on lines of their own. *)
Lemma parse_member (fuel : nat) (k v tail : string) :
  no_lone_surrogate k = true -> no_lone_surrogate v = true ->
  parse_members (S (S fuel))
    (Stringify.newline +:+ "  " +:+ Stringify.member (k, v) +:+ tail)
  = match starts "}" (skip_ws tail), starts "," (skip_ws tail) with
    | Some r', _ => Parsed [(k, JStr v)] r'
    | None, Some r' => parsed_map (cons (k, JStr v)) (parse_members (S fuel) r')
    | None, None => SyntaxErr
    end.
Proof.
  intros Hk Hv. unfold Stringify.member. cbn [fst snd].
  rewrite !string_append_assoc, quote_app.
  match goal with
  | |- parse_members _ (_ +:+ _ +:+ String dquote ?x) = _ =>
      change (parse_members (S (S fuel)) (Stringify.newline +:+ "  " +:+ String dquote x))
        with (match parse_string x with
              | None => SyntaxErr
              | Some (k', r1) =>
                  match starts ":" (skip_ws r1) with
                  | None => SyntaxErr
                  | Some r2 =>
                      match parse_value (S fuel) r2 with
                      | Parsed v' r3 =>
                          let r4 := skip_ws r3 in
                          match starts "}" r4, starts "," r4 with
                          | Some r', _ => Parsed [(k', v')] r'
                          | None, Some r' =>
                              parsed_map (cons (k', v')) (parse_members (S fuel) r')
                          | None, None => SyntaxErr
                          end
                      | SyntaxErr => SyntaxErr
                      | OutOfFuel => OutOfFuel
                      end
                  end
              end)
  end.
  rewrite (parse_string_quote _ _ Hk).
  change (starts ":" (skip_ws (": " +:+ ?x))) with (Some (" " +:+ x)).
  cbv beta iota. now rewrite (parse_value_quote _ _ _ Hv).
Qed.

Lemma parse_join_members (members : list (string * string)) :
  forall (fuel : nat) (rest : string),
    members <> [] ->
    length members < fuel ->
    Forall (fun kv => no_lone_surrogate (fst kv) = true /\ no_lone_surrogate (snd kv) = true) members ->
    parse_members fuel
      (Stringify.newline +:+ "  " +:+ Stringify.join_members members
       +:+ Stringify.newline +:+ String "}" rest)
    = Parsed (map (fun kv => (fst kv, JStr (snd kv))) members) rest.
Proof.
  induction members as [|[k v] ms IH]; intros fuel rest Hne Hfuel Hwf; [congruence|].
  apply Forall_cons in Hwf as [[Hk Hv] Hms]. cbn [fst snd] in Hk, Hv.
  destruct fuel as [|[|fuel]]; cbn [length] in Hfuel; try lia.
  destruct ms as [|kv' ms'].
  - cbn [Stringify.join_members map fst snd].
    rewrite (parse_member fuel k v _ Hk Hv). reflexivity.
  - assert (Stringify.join_members ((k, v) :: kv' :: ms')
            = Stringify.member (k, v) +:+ "," +:+ Stringify.newline +:+ "  "
              +:+ Stringify.join_members (kv' :: ms')) as -> by reflexivity.
    rewrite !string_append_assoc.
    rewrite (parse_member fuel k v _ Hk Hv).
    match goal with
    | |- context [skip_ws ("," +:+ ?x)] =>
        change (skip_ws ("," +:+ x)) with (String "," x)
    end.
    cbn [starts]. change (Ascii.eqb "," "}") with false. change (Ascii.eqb "," ",") with true.
    cbn iota.
    rewrite <- !string_append_assoc. rewrite !string_append_assoc.
    rewrite (IH (S fuel) rest); [reflexivity|discriminate|cbn [length] in *; lia|exact Hms].
Qed.

Lemma length_join_members (members : list (string * string)) :
  length members <= String.length (Stringify.join_members members).
Proof.
  induction members as [|kv [|kv' ms] IH]; [cbn; lia| |].
  - cbn [Stringify.join_members length]. unfold Stringify.member, Stringify.quote.
    rewrite string_length_append. cbn. lia.
  - assert (Stringify.join_members (kv :: kv' :: ms)
            = Stringify.member kv +:+ "," +:+ Stringify.newline +:+ "  "
              +:+ Stringify.join_members (kv' :: ms)) as -> by reflexivity.
    rewrite !string_length_append. cbn [length] in *. cbn [String.length]. lia.
Qed.

(** [JSON.parse(JSON.stringify(o, null, 2))] for a flat object of well-formed
    strings. *)
Lemma parse_stringified_object (members : list (string * string)) :
  Forall (fun kv => no_lone_surrogate (fst kv) = true /\ no_lone_surrogate (snd kv) = true) members ->
  JSON_parse (Stringify.object members) = Some (object_value members).
Proof.
  intros Hwf. destruct members as [|kv ms]; [reflexivity|].
  unfold JSON_parse, Stringify.object.
  set (text := "{" +:+ _).
  assert (length (kv :: ms) < 2 * String.length text) as Hfuel.
  { subst text. rewrite !string_length_append.
    pose proof (length_join_members (kv :: ms)). cbn [String.length]. lia. }
  destruct (2 * String.length text) as [|fuel]; [lia|].
  subst text.
  assert (forall x, parse_value (S (S fuel))
                      ("{" +:+ Stringify.newline +:+ "  "
                       +:+ Stringify.join_members (kv :: ms) +:+ x)
                    = parsed_map JObj
                        (parse_members (S fuel)
                           (Stringify.newline +:+ "  "
                            +:+ Stringify.join_members (kv :: ms) +:+ x))) as ->
    by (intros x; destruct kv as [k v], ms as [|kv' ms']; reflexivity).
  rewrite (parse_join_members (kv :: ms) (S fuel) ""); [reflexivity|discriminate|lia|exact Hwf].
Qed.

(** ** Loading and saving the configuration *)

Section Settings_facts.
Variable userData : string.
Variable trim : string -> string.
Variable new_OpenAI new_GoogleGenAI : string -> option js_error.
Variable syntax_error : string -> js_error.

Lemma updateConfig_spec {E} (construct : string -> option js_error)
    (required default_model apiKey lang mdl itype : string) (t : Service.t) :
  apiKey <> "" ->
  Service.updateConfig (E := E) trim construct required default_model apiKey lang mdl itype t
  = match construct (trim apiKey) with
    | Some e => (Thrown e, t, [])
    | None =>
        (Normal tt,
         {| Service.client := Some (trim apiKey);
            Service.language := or_else (Some lang) "Python";
            Service.model := or_else (Some mdl) default_model;
            Service.interviewType := or_else (Some itype) "algorithmic" |}, [])
    end.
Proof.
  intros Hkey. unfold Service.updateConfig. apply String.eqb_neq in Hkey. rewrite Hkey.
  eff_unfold. destruct (construct (trim apiKey)); reflexivity.
Qed.

(** [init_service] changes nothing but the adapter of the provider, and
    nothing at all when it throws. *)
Lemma init_service_spec (c : Config) (s : Settings.state) :
  let '(r, s', out) := Settings.init_service trim new_OpenAI new_GoogleGenAI c s in
  out = [] /\ Settings.main s' = Settings.main s
  /\ match r with
     | Normal _ => True
     | Thrown _ => s' = s /\ ~ client_accepted trim new_OpenAI new_GoogleGenAI c
     end.
Proof.
  unfold Settings.init_service, Settings.openai_updateConfig, Settings.gemini_updateConfig.
  unfold Eff.zoom, client_accepted.
  destruct (String.eqb (provider c) "openai" && negb (String.eqb (openaiApiKey c) ""))
    eqn:Ho.
  { apply andb_true_iff in Ho as [_ Hk]. apply negb_true_iff, String.eqb_neq in Hk.
    rewrite updateConfig_spec by exact Hk.
    destruct (new_OpenAI _) eqn:Hnew; cbn; repeat split; try now destruct s.
    all: try (intros [H _]; congruence). }
  destruct (String.eqb (provider c) "gemini" && negb (String.eqb (geminiApiKey c) ""))
    eqn:Hg.
  { apply andb_true_iff in Hg as [_ Hk]. apply negb_true_iff, String.eqb_neq in Hk.
    rewrite updateConfig_spec by exact Hk.
    destruct (new_GoogleGenAI _) eqn:Hnew; cbn; repeat split; try now destruct s.
    all: try (intros [_ H]; congruence). }
  cbn. auto.
Qed.

Lemma saveConfig_invalid (c : Config) (written : completion unit) (s : Settings.state) :
  valid_config c = false ->
  exists e, Settings.saveConfig userData trim new_OpenAI new_GoogleGenAI c written s = (Thrown e, s, []).
Proof.
  unfold valid_config, Settings.saveConfig. intros Hvalid. eff_unfold.
  destruct (String.eqb (provider c) "" || String.eqb (language c) ""
            || String.eqb (model c) ""); [eauto|].
  destruct (String.eqb (provider c) "openai" && String.eqb (openaiApiKey c) ""); [eauto|].
  destruct (String.eqb (provider c) "gemini" && String.eqb (geminiApiKey c) ""); [eauto|].
  discriminate.
Qed.

Lemma saveConfig_valid (c : Config) (written : completion unit) (s : Settings.state) :
  valid_config c = true ->
  Settings.saveConfig userData trim new_OpenAI new_GoogleGenAI c written s
  = match written with
    | Thrown e =>
        (Thrown e, s, [Settings.WriteConfig (Settings.CONFIG_FILE userData)
                         (Stringify.stringify c)])
    | Normal _ =>
        let s1 := Settings.set_main (Settings.set_config (Some c) (Settings.main s)) s in
        let '(r, s2, _) := Settings.init_service trim new_OpenAI new_GoogleGenAI c s1 in
        (r,
         match r with
         | Normal _ =>
             Settings.set_main (Settings.set_device (audioDeviceId c) (Settings.main s2)) s2
         | Thrown _ => s2
         end,
         [Settings.WriteConfig (Settings.CONFIG_FILE userData) (Stringify.stringify c)])
    end.
Proof.
  unfold valid_config, Settings.saveConfig. intros Hvalid.
  apply andb_true_iff in Hvalid as [Hvalid Hg]. apply andb_true_iff in Hvalid as [Hreq Ho].
  apply negb_true_iff in Hreq, Ho, Hg. rewrite Hreq, Ho, Hg.
  destruct written as [[]|e]; [|reflexivity].
  eff_unfold. cbn [app].
  match goal with
  | |- context [Settings.init_service trim new_OpenAI new_GoogleGenAI c ?st] =>
      pose proof (init_service_spec c st) as Hinit;
      destruct (Settings.init_service trim new_OpenAI new_GoogleGenAI c st) as [[r s2] out]
  end.
  destruct Hinit as (-> & _ & _). now destruct r as [[]|e].
Qed.

(** X17: the [save-config] call answers [false] and changes nothing, neither
    the file nor any variable, for a configuration without provider, language
    or model, or one that names [openai] or [gemini] without the key of that
    provider.  When the write of the file fails it answers [false] with the
    variables unchanged.  It answers [true] only for a configuration that
    passes the check and has been handed to the file system, and then the
    main process holds that configuration and the recorder its audio
    device. *)
Theorem invalid_config_is_refused (c : Config) (written : completion unit)
    (s : Settings.state) :
  (valid_config c = false -> Settings.save_config userData trim new_OpenAI new_GoogleGenAI c written s = (Normal false, s, []))
  /\ (forall e, valid_config c = true ->
        Settings.save_config userData trim new_OpenAI new_GoogleGenAI c (Thrown e) s
        = (Normal false, s,
           [Settings.WriteConfig (Settings.CONFIG_FILE userData) (Stringify.stringify c)]))
  /\ (forall s' out, Settings.save_config userData trim new_OpenAI new_GoogleGenAI c written s = (Normal true, s', out) ->
        valid_config c = true /\ written = Normal tt
        /\ Main.config (Settings.main s') = Some c
        /\ Recorder.deviceId (Main.recorder (Settings.main s')) = audioDeviceId c).
Proof.
  unfold Settings.save_config. split; [|split].
  - intros Hvalid. destruct (saveConfig_invalid c written s Hvalid) as [e He].
    eff_unfold. now rewrite He.
  - intros e Hvalid. eff_unfold. now rewrite (saveConfig_valid c _ s Hvalid).
  - intros s' out. destruct (valid_config c) eqn:Hvalid.
    + eff_unfold. rewrite (saveConfig_valid c written s Hvalid).
      destruct written as [[]|e]; [|discriminate]. cbv zeta.
      match goal with
      | |- context [Settings.init_service trim new_OpenAI new_GoogleGenAI c ?st] =>
          pose proof (init_service_spec c st) as Hinit;
          destruct (Settings.init_service trim new_OpenAI new_GoogleGenAI c st) as [[r s2] out2]
      end.
      destruct Hinit as (_ & Hmain & _). destruct r as [[]|e]; [|discriminate].
      intros [= <- _]. cbn. rewrite Hmain. auto.
    + destruct (saveConfig_invalid c written s Hvalid) as [e He].
      eff_unfold. rewrite He. discriminate.
Qed.

Lemma field_of_text (v : json) (key text : string) :
  get_prop v key = Some (JStr text) ->
  Settings.field_of v key = if (text =? "")%string then Settings.Missing else Settings.Text text.
Proof. intros H. unfold Settings.field_of. now rewrite H. Qed.

Lemma or_default_text (v : json) (key text d : string) :
  get_prop v key = Some (JStr text) ->
  Settings.or_default (Settings.field_of v key) d = Some (or_else (Some text) d).
Proof.
  intros H. rewrite (field_of_text _ _ _ H). unfold or_else.
  now destruct (String.eqb text "").
Qed.

(** What [loadConfig] makes of a file written by [saveConfig]. *)
Lemma file_config_fields (c : Config) :
  provider c <> "" -> language c <> "" -> model c <> "" ->
  Settings.file_config (object_value (Stringify.fields c)) = Settings.Loaded (with_defaults c).
Proof.
  intros Hp Hl Hm. apply String.eqb_neq in Hp, Hl, Hm.
  unfold Settings.file_config, object_value. cbn [map Stringify.fields fst snd].
  rewrite (field_of_text _ "provider" (provider c)) by reflexivity.
  rewrite (field_of_text _ "language" (language c)) by reflexivity.
  rewrite (field_of_text _ "model" (model c)) by reflexivity.
  rewrite Hp, Hl, Hm.
  rewrite (or_default_text _ "openaiApiKey" (openaiApiKey c)) by reflexivity.
  rewrite (or_default_text _ "geminiApiKey" (geminiApiKey c)) by reflexivity.
  rewrite (or_default_text _ "audioDeviceId" (audioDeviceId c)) by reflexivity.
  rewrite (or_default_text _ "interviewType" (interviewType c)) by reflexivity.
  unfold with_defaults. do 2 f_equal.
  - unfold or_else. now destruct (String.eqb (openaiApiKey c) "") eqn:E;
      [apply String.eqb_eq in E|].
  - unfold or_else. now destruct (String.eqb (geminiApiKey c) "") eqn:E;
      [apply String.eqb_eq in E|].
Qed.

Lemma valid_config_required (c : Config) :
  valid_config c = true -> provider c <> "" /\ language c <> "" /\ model c <> "".
Proof.
  unfold valid_config. intros H. apply andb_true_iff in H as [H _].
  apply andb_true_iff in H as [H _]. apply negb_true_iff in H.
  apply orb_false_iff in H as [H Hm]. apply orb_false_iff in H as [Hp Hl].
  now apply String.eqb_neq in Hp, Hl, Hm.
Qed.

Lemma parse_stringified_config (c : Config) :
  config_well_formed c ->
  JSON_parse (Stringify.stringify c) = Some (object_value (Stringify.fields c)).
Proof.
  intros Hwf. apply parse_stringified_object.
  unfold config_well_formed in Hwf. cbn [Stringify.fields] in *.
  repeat (apply Forall_cons in Hwf as [? Hwf]).
  repeat (apply Forall_cons; split; [split; [reflexivity|assumption]|]).
  constructor.
Qed.

Lemma loadConfig_file (e : Settings.env) (c : Config) (s : Settings.state) :
  Settings.env_complete e = false ->
  valid_config c = true ->
  config_well_formed c ->
  Settings.loadConfig userData trim new_OpenAI new_GoogleGenAI syntax_error e
    (Normal (Stringify.stringify c)) s
  = let '(r, s1, _) :=
      Settings.init_service trim new_OpenAI new_GoogleGenAI (with_defaults c) s in
    match r with
    | Normal _ =>
        (Normal (Settings.Loaded (with_defaults c)),
         Settings.set_main
           (Settings.set_device (audioDeviceId (with_defaults c)) (Settings.main s1)) s1,
         [Settings.ReadConfig (Settings.CONFIG_FILE userData)])
    | Thrown _ =>
        (Normal Settings.NoConfig, s1, [Settings.ReadConfig (Settings.CONFIG_FILE userData)])
    end.
Proof.
  intros Henv Hvalid Hwf. destruct (valid_config_required c Hvalid) as (Hp & Hl & Hm).
  unfold Settings.loadConfig. rewrite Henv. eff_unfold.
  rewrite (parse_stringified_config c Hwf), (file_config_fields c Hp Hl Hm).
  pose proof (init_service_spec (with_defaults c) s) as Hinit.
  destruct (Settings.init_service trim new_OpenAI new_GoogleGenAI (with_defaults c) s)
    as [[r s1] out].
  destruct Hinit as (-> & _ & _). now destruct r as [[]|err].
Qed.

(** X18: a configuration that [save-config] accepts is written as JSON and
    read back by [loadConfig] as the same configuration when no configuration
    comes from the environment, provided its values are well-formed strings
    and the SDK constructors accept its keys; an empty audio device or
    interview type comes back as the default, [default] and [algorithmic]. *)
Theorem saved_config_loads_back (c : Config) (e : Settings.env)
    (s s0 : Settings.state) :
  valid_config c = true ->
  config_well_formed c ->
  client_accepted trim new_OpenAI new_GoogleGenAI c ->
  Settings.env_complete e = false ->
  let '(saved, s', out) :=
    Settings.save_config userData trim new_OpenAI new_GoogleGenAI c (Normal tt) s in
  let '(back, s0', out0) :=
    Settings.loadConfig userData trim new_OpenAI new_GoogleGenAI syntax_error e
      (Normal (Stringify.stringify c)) s0 in
  saved = Normal true
  /\ out = [Settings.WriteConfig (Settings.CONFIG_FILE userData) (Stringify.stringify c)]
  /\ Main.config (Settings.main s') = Some c
  /\ back = Normal (Settings.Loaded (with_defaults c))
  /\ out0 = [Settings.ReadConfig (Settings.CONFIG_FILE userData)]
  /\ (audioDeviceId c <> "" -> interviewType c <> "" -> with_defaults c = c).
Proof.
  intros Hvalid Hwf Hok Henv.
  unfold Settings.save_config. eff_unfold.
  rewrite (saveConfig_valid c _ s Hvalid). cbv zeta.
  match goal with
  | |- context [Settings.init_service trim new_OpenAI new_GoogleGenAI c ?st] =>
      pose proof (init_service_spec c st) as Hinit;
      destruct (Settings.init_service trim new_OpenAI new_GoogleGenAI c st) as [[r s2] out2]
  end.
  destruct Hinit as (_ & Hmain & Hr).
  destruct r as [[]|err]; [|now destruct Hr as [_ Hr]].
  rewrite (loadConfig_file e c s0 Henv Hvalid Hwf).
  pose proof (init_service_spec (with_defaults c) s0) as Hinit0.
  destruct (Settings.init_service trim new_OpenAI new_GoogleGenAI (with_defaults c) s0)
    as [[r0 s1] out1].
  destruct Hinit0 as (_ & _ & Hr0).
  destruct r0 as [[]|err]; [|now destruct Hr0 as [_ Hr0]].
  cbn. rewrite Hmain. repeat split.
  intros Hd Hi. unfold with_defaults, or_else.
  apply String.eqb_neq in Hd, Hi. rewrite Hd, Hi. now destruct c.
Qed.

(** X19: [loadConfig] never throws.  When the environment gives a key, a
    language, a model and a provider, the configuration file is not read: the
    result is the configuration of the environment, with the audio device
    [default], or no configuration when the SDK constructor rejects the key;
    the variables of the main process, the device of the recorder included,
    are not changed. *)
Theorem environment_overrides_file (e : Settings.env) (file : completion string)
    (s : Settings.state) :
  let '(r, s', out) :=
    Settings.loadConfig userData trim new_OpenAI new_GoogleGenAI syntax_error e file s in
  (exists l, r = Normal l)
  /\ (Settings.env_complete e = true ->
      out = [] /\ Settings.main s' = Settings.main s
      /\ audioDeviceId (Settings.env_config e) = "default"
      /\ (r = Normal (Settings.Loaded (Settings.env_config e))
          \/ (r = Normal Settings.NoConfig /\ s' = s
              /\ ~ client_accepted trim new_OpenAI new_GoogleGenAI (Settings.env_config e)))).
Proof.
  unfold Settings.loadConfig.
  destruct (Settings.env_complete e) eqn:Henv.
  - eff_unfold.
    pose proof (init_service_spec (Settings.env_config e) s) as Hinit.
    destruct (Settings.init_service trim new_OpenAI new_GoogleGenAI (Settings.env_config e) s)
      as [[r s1] out].
    destruct Hinit as (-> & Hmain & Hr).
    destruct r as [[]|err]; cbn; (split; [eauto|]); intros _; repeat split; auto;
      right; destruct Hr as [-> Hr]; auto.
  - eff_unfold.
    destruct file as [data|err]; [|cbn; split; [eauto|discriminate]].
    destruct (JSON_parse data) as [v|]; [|cbn; split; [eauto|discriminate]].
    destruct (Settings.file_config v) as [|c|]; try (cbn; split; [eauto|discriminate]).
    destruct (Settings.init_service trim new_OpenAI new_GoogleGenAI c s) as [[[[]|err] s1] out];
      cbn; (split; [eauto|discriminate]).
Qed.

(** X20: [loadConfig] does not apply the check of [saveConfig].  A file that
    names [gemini] and holds no key, which [save-config] refuses, is loaded
    as a configuration; no adapter is initialised by it, and with the Gemini
    client still missing the first processing ends with 'Google AI client not
    initialized'. *)
Theorem load_does_not_check_the_key (c : Config) (written : completion unit)
    (reply : Adapter.sdk_reply) (s : Settings.state) :
  provider c = "gemini" -> geminiApiKey c = "" ->
  language c <> "" -> model c <> "" ->
  config_well_formed c ->
  Service.client (Settings.gemini s) = None ->
  let '(r, s', _) :=
    Settings.loadConfig userData trim new_OpenAI new_GoogleGenAI syntax_error no_env
      (Normal (Stringify.stringify c)) s in
  Settings.save_config userData trim new_OpenAI new_GoogleGenAI c written s
  = (Normal false, s, [])
  /\ r = Normal (Settings.Loaded (with_defaults c))
  /\ Settings.gemini s' = Settings.gemini s
  /\ Settings.openai s' = Settings.openai s
  /\ Adapter.processImages (bool_decide (is_Some (Service.client (Settings.gemini s'))))
       reply
     = Adapter.Failed Adapter.ClientNotInitialized.
Proof.
  intros Hp Hk Hl Hm Hwf Hclient.
  assert (valid_config c = false) as Hinvalid.
  { unfold valid_config. rewrite Hp, Hk. cbn. apply andb_false_r. }
  assert (Settings.file_config (object_value (Stringify.fields c))
          = Settings.Loaded (with_defaults c)) as Hfile.
  { apply file_config_fields; [rewrite Hp; discriminate|assumption..]. }
  unfold Settings.loadConfig. change (Settings.env_complete no_env) with false.
  eff_unfold. rewrite (parse_stringified_config c Hwf), Hfile.
  assert (Settings.init_service trim new_OpenAI new_GoogleGenAI (with_defaults c) s
          = (Normal tt, s, [])) as ->.
  { unfold Settings.init_service. cbn [provider openaiApiKey geminiApiKey with_defaults].
    rewrite Hp, Hk. reflexivity. }
  cbn. rewrite Hclient.
  split; [|repeat split].
  destruct (saveConfig_invalid c written s Hinvalid) as [err He].
  unfold Settings.save_config. eff_unfold. now rewrite He.
Qed.

End Settings_facts.

Lemma invalid_config_is_refused_witness :
  Settings.save_config "/u" untrimmed accepting accepting keyless_config (Normal tt)
    unconfigured
  = (Normal false, unconfigured, []).
Proof.
  exact (proj1 (invalid_config_is_refused "/u" untrimmed accepting accepting keyless_config
                  (Normal tt) unconfigured) eq_refl).
Defined.

Lemma saved_config_loads_back_witness :
  fst (fst (Settings.loadConfig "/u" untrimmed accepting accepting reporting_text no_env
              (Normal (Stringify.stringify gemini_config)) unconfigured))
  = Normal (Settings.Loaded gemini_config).
Proof.
  assert (config_well_formed gemini_config) as Hwf by (repeat constructor).
  assert (client_accepted untrimmed accepting accepting gemini_config) as Hok
    by (split; reflexivity).
  pose proof (saved_config_loads_back "/u" untrimmed accepting accepting reporting_text
                gemini_config no_env unconfigured unconfigured eq_refl Hwf Hok eq_refl) as H.
  destruct (Settings.save_config _ _ _ _ _ _ _) as [[saved s'] out].
  destruct (Settings.loadConfig _ _ _ _ _ _ _ _) as [[back s0'] out0].
  destruct H as (_ & _ & _ & Hback & _). exact Hback.
Defined.

Lemma environment_overrides_file_witness :
  snd (Settings.loadConfig "/u" untrimmed accepting accepting reporting_text gemini_env
         (Normal (Stringify.stringify gemini_config)) unconfigured)
  = [].
Proof.
  pose proof (environment_overrides_file "/u" untrimmed accepting accepting reporting_text
                gemini_env (Normal (Stringify.stringify gemini_config)) unconfigured) as H.
  destruct (Settings.loadConfig _ _ _ _ _ _ _ _) as [[r s'] out].
  destruct H as [_ H]. exact (proj1 (H eq_refl)).
Defined.

Lemma load_does_not_check_the_key_witness :
  fst (fst (Settings.loadConfig "/u" untrimmed accepting accepting reporting_text no_env
              (Normal (Stringify.stringify keyless_config)) unconfigured))
  = Normal (Settings.Loaded (with_defaults keyless_config))
  /\ Settings.save_config "/u" untrimmed accepting accepting keyless_config (Normal tt)
       unconfigured
     = (Normal false, unconfigured, []).
Proof.
  assert (language keyless_config <> "") as Hl by discriminate.
  assert (model keyless_config <> "") as Hm by discriminate.
  assert (config_well_formed keyless_config) as Hwf by (repeat constructor).
  pose proof (load_does_not_check_the_key "/u" untrimmed accepting accepting reporting_text
                keyless_config (Normal tt) Adapter.SdkRejected unconfigured
                eq_refl eq_refl Hl Hm Hwf eq_refl) as H.
  destruct (Settings.loadConfig _ _ _ _ _ _ _ _) as [[r s'] out].
  destruct H as (Hsave & Hload & _). split; [exact Hload | exact Hsave].
Defined.
